(** * Pyra: production matcher, API dispatch, cache headers and the build pass

    A shallow embedding of the parts of Pyra's production server
    (the manifest matcher, [handleApiRouteInner], [buildCacheControlHeader])
    and of its build orchestrator (export detection, [assembleManifest], the
    prerender pass, [formatSize]), with the properties the specification
    states about them.

    Further parts of the code follow, with properties read off the code:
    [runMiddleware], [servePrerenderedPageInner] and [handleRequest] of
    the production server, [routeIdToSafeName] of the build, and
    [findAvailablePort]; and more about the matcher and the build pass:
    the parameter object of a match, the manifest and the files a build
    leaves, and the way from a prerendered page to the response for it.

    Conventions of the embedding.
    - A JavaScript string is a [string]; only ASCII-level operations are
      used ([startsWith], [slice], [split] on the slash), and those agree on
      UTF-8 bytes and on UTF-16 code units.
    - [Record<string, string>] (the parameter object) is a [gmap string string];
      [delete params[k]] is [delete k].
    - The [Map<string, TrieNode>] of static children is a [gmap string TrieNode].
    - [segments, index] of [matchSegments] is carried as the list of the
      segments not consumed yet, that is [segments.slice(index)]; the test
      [index === segments.length] is the test for the empty list.
    - The parameter object is mutated in place by [matchSegments]; the
      embedding threads it through every call and returns it. An
      assignment [params[name] = value] is [Js.assign]: it binds the
      name, except the name [__proto__], which an object literal does
      not take as a property.
    - User code and dynamic imports may throw or reject: such calls return
      a [Result]. File-system paths are taken as already resolved; where
      the server joins a path to its client directory, [path.join] is a
      function [clientPath] the definitions take.
    - Numbers that are printed (cache ages, byte counts) are integers, and
      so are the ports and the attempt count of [findAvailablePort],
      whose promise is a [Settlement]: resolved, rejected or never
      settled. *)

From Stdlib Require Import ZArith NArith String Ascii List Lia DecimalString.
From stdpp Require Import gmap strings list.

Local Open Scope string_scope.
Local Open Scope list_scope.

(** ** JavaScript string primitives *)

Module Js.

(** The double-quote character, as a one-character string. *)
Definition quote : string := String (ascii_of_nat 34) EmptyString.

(** [s.startsWith(p)] *)
Definition startsWith (p s : string) : bool := String.prefix p s.

(** [s.slice(1)] *)
Definition slice1 (s : string) : string :=
  match s with
  | EmptyString => EmptyString
  | String _ rest => rest
  end.

(** [s.endsWith("/")] *)
Fixpoint endsWithSlash (s : string) : bool :=
  match s with
  | EmptyString => false
  | String c EmptyString => bool_decide (c = "/"%char)
  | String _ rest => endsWithSlash rest
  end.

(** [s.slice(0, -1)] *)
Fixpoint dropLast (s : string) : string :=
  match s with
  | EmptyString => EmptyString
  | String _ EmptyString => EmptyString
  | String c rest => String c (dropLast rest)
  end.

(** [s.split("/")]: never empty, one more piece than there are slashes. *)
Fixpoint split (s : string) : list string :=
  match s with
  | EmptyString => [EmptyString]
  | String c rest =>
      if bool_decide (c = "/"%char) then EmptyString :: split rest
      else match split rest with
           | [] => [String c EmptyString]
           | piece :: pieces => String c piece :: pieces
           end
  end.

(** [Boolean(s)] on a string: the empty string is falsy. *)
Definition truthy (s : string) : bool :=
  match s with EmptyString => false | _ => true end.

(** [l.join(sep)] *)
Fixpoint join (sep : string) (l : list string) : string :=
  match l with
  | [] => EmptyString
  | [x] => x
  | x :: rest => x +:+ sep +:+ join sep rest
  end.

(** [obj[key] = value] for a string [value], on an object made by an
    object literal: the key [__proto__], unless it is an own property,
    reaches the setter of [Object.prototype], which ignores a value that
    is neither an object nor null, so that nothing is bound. *)
Definition assign (key value : string) (obj : gmap string string)
    : gmap string string :=
  if bool_decide (key = "__proto__") && bool_decide (obj !! key = None)
  then obj
  else <[key := value]> obj.

(** [l.includes(x)] on an array of strings *)
Definition includes (x : string) (l : list string) : bool :=
  bool_decide (x ∈ l).

(** Template-literal rendering of an integral number: [`${n}`]. Exact for
    integers of magnitude below 1e21, where JavaScript prints plain
    decimal digits. *)
Definition ofZ (n : Z) : string := NilZero.string_of_int (Z.to_int n).
Definition ofN (n : N) : string := NilZero.string_of_uint (N.to_uint n).

(** [s.slice(n)] *)
Fixpoint sliceFrom (n : nat) (s : string) : string :=
  match n, s with
  | O, _ => s
  | S n', String _ rest => sliceFrom n' rest
  | S _, EmptyString => EmptyString
  end.

(** The text before and after the first occurrence of [pat] in [s]. *)
Fixpoint splitAtFirst (pat s : string) : option (string * string) :=
  if String.prefix pat s then Some (EmptyString, sliceFrom (String.length pat) s)
  else match s with
       | EmptyString => None
       | String c rest =>
           match splitAtFirst pat rest with
           | Some (before, after) => Some (String c before, after)
           | None => None
           end
       end.

(** The replacement text of [String.prototype.replace] with a string
    pattern: dollar-dollar is a dollar, dollar-ampersand the match,
    dollar-backquote and dollar-quote the text before and after it. *)
Fixpoint expandReplacement (matched before after repl : string) : string :=
  match repl with
  | EmptyString => EmptyString
  | String c rest =>
      if bool_decide (c = "$"%char) then
        match rest with
        | String d rest' =>
            if bool_decide (d = "$"%char) then
              String "$"%char (expandReplacement matched before after rest')
            else if bool_decide (d = "&"%char) then
              matched +:+ expandReplacement matched before after rest'
            else if bool_decide (d = "`"%char) then
              before +:+ expandReplacement matched before after rest'
            else if bool_decide (d = "'"%char) then
              after +:+ expandReplacement matched before after rest'
            else String c (expandReplacement matched before after rest)
        | EmptyString => String c EmptyString
        end
      else String c (expandReplacement matched before after rest)
  end.

(** [s.replace(pat, repl)] with a string pattern: the first occurrence only. *)
Definition replace (s pat repl : string) : string :=
  match splitAtFirst pat s with
  | Some (before, after) =>
      before +:+ expandReplacement pat before after repl +:+ after
  | None => s
  end.

End Js.

(** ** The manifest *)

Inductive RouteType := Page | Api.

(** [CacheConfig] of pyrajs-shared: three optional numbers. *)
Record CacheConfig := mkCacheConfig {
  maxAge : option Z;
  sMaxAge : option Z;
  staleWhileRevalidate : option Z }.

(** [ManifestRouteEntry]; an [option] field is a property that may be
    [undefined]. *)
Record ManifestRouteEntry := mkEntry {
  e_id : string;
  e_pattern : string;
  e_type : RouteType;
  e_clientEntry : option string;
  e_clientChunks : option (list string);
  e_css : option (list string);
  e_ssrEntry : option string;
  e_serverEntry : option string;
  e_hasLoad : option bool;
  e_methods : option (list string);
  e_cache : option CacheConfig;
  e_layouts : option (list string);
  e_middleware : option (list string);
  e_prerendered : option bool;
  e_prerenderedFile : option string;
  e_prerenderedCount : option nat }.

(** ** The manifest matcher (prod-server, [buildMatcher]) *)

Module Matcher.

#[warnings="-register-all"]
Inductive TrieNode : Type := mkTrieNode {
  staticChildren : gmap string TrieNode;
  dynamicChild : option (string * TrieNode);
  catchAllChild : option (string * ManifestRouteEntry);
  entry : option ManifestRouteEntry }.

Record MatchResult := mkMatchResult {
  mr_entry : ManifestRouteEntry;
  mr_params : gmap string string }.

Definition createTrieNode : TrieNode := mkTrieNode ∅ None None None.

Definition splitSegments (value : string) : list string :=
  if bool_decide (value = "/") then []
  else
    let normalized :=
      if Js.endsWithSlash value && negb (bool_decide (value = "/"))
      then Js.dropLast value else value in
    filter (λ s, Is_true (Js.truthy s)) (Js.split normalized).

(** The body of the insertion loop of [buildMatcher] for one entry:
    [current] walks down along [segments], creating the children it
    misses; a segment starting with a star stores the entry as the
    catch-all of the node reached and stops; otherwise the node reached
    after the last segment receives the entry. The nodes are mutated in
    place in the source; every node has one parent, so the embedding
    rebuilds the spine. *)
Fixpoint insertSegments (segments : list string) (e : ManifestRouteEntry)
    (current : TrieNode) : TrieNode :=
  match segments with
  | [] =>
      mkTrieNode (staticChildren current) (dynamicChild current)
                 (catchAllChild current) (Some e)
  | segment :: rest =>
      if Js.startsWith "*" segment then
        mkTrieNode (staticChildren current) (dynamicChild current)
                   (Some (Js.slice1 segment, e)) (entry current)
      else if Js.startsWith ":" segment then
        let '(paramName, node) :=
          match dynamicChild current with
          | Some d => d
          | None => (Js.slice1 segment, createTrieNode)
          end in
        mkTrieNode (staticChildren current)
                   (Some (paramName, insertSegments rest e node))
                   (catchAllChild current) (entry current)
      else
        let child :=
          match staticChildren current !! segment with
          | Some child => child
          | None => createTrieNode
          end in
        mkTrieNode (<[segment := insertSegments rest e child]> (staticChildren current))
                   (dynamicChild current) (catchAllChild current) (entry current)
  end.

Definition insertRoute (root : TrieNode) (e : ManifestRouteEntry) : TrieNode :=
  insertSegments (splitSegments (e_pattern e)) e root.

(** The trie that [buildMatcher(routes)] builds and its [match] closes
    over; [routes] is [Object.values(routes)], the entries in insertion
    order. *)
Definition buildMatcher (routes : list ManifestRouteEntry) : TrieNode :=
  foldl insertRoute createTrieNode routes.

(** [matchSegments(node, segments, index, params)]; the second component
    is the parameter object as the call leaves it. *)
Fixpoint matchSegments (node : TrieNode) (segments : list string)
    (params : gmap string string)
    : option ManifestRouteEntry * gmap string string :=
  match segments with
  | [] => (entry node, params)
  | segment :: rest =>
      (* 1. static *)
      let '(result1, params1) :=
        match staticChildren node !! segment with
        | Some staticChild => matchSegments staticChild rest params
        | None => (None, params)
        end in
      match result1 with
      | Some r => (Some r, params1)
      | None =>
          (* 2. dynamic *)
          let '(result2, params2) :=
            match dynamicChild node with
            | Some (paramName, dynamicNode) =>
                match matchSegments dynamicNode rest (Js.assign paramName segment params1) with
                | (Some r, p) => (Some r, p)
                | (None, p) => (None, delete paramName p)
                end
            | None => (None, params1)
            end in
          match result2 with
          | Some r => (Some r, params2)
          | None =>
              (* 3. catch-all *)
              match catchAllChild node with
              | Some (paramName, e) =>
                  (Some e, Js.assign paramName (Js.join "/" segments) params2)
              | None => (None, params2)
              end
          end
      end
  end.

(** The [match(pathname)] method, on the trie it closes over. *)
Definition match_ (root : TrieNode) (pathname : string) : option MatchResult :=
  match matchSegments root (splitSegments pathname) ∅ with
  | (Some e, params) => Some (mkMatchResult e params)
  | (None, _) => None
  end.

(** [buildMatcher(routes).match(pathname)] *)
Definition buildMatcher_match (routes : list ManifestRouteEntry)
    (pathname : string) : option MatchResult :=
  match_ (buildMatcher routes) pathname.

End Matcher.

(** ** A declarative reading of patterns, used to state what the matcher
       computes *)

Module Shape.
Import Matcher.

(** What the insertion loop makes of one pattern segment. *)
Inductive SegKind := KStatic (s : string) | KDynamic | KCatchAll.

#[global] Instance SegKind_eq_dec : EqDecision SegKind.
Proof. solve_decision. Defined.

Definition kindOf (segment : string) : SegKind :=
  if Js.startsWith "*" segment then KCatchAll
  else if Js.startsWith ":" segment then KDynamic
  else KStatic segment.

(** The branch sequence a pattern is inserted along; the loop stops at
    the first catch-all segment. *)
Fixpoint shape (segments : list string) : list SegKind :=
  match segments with
  | [] => []
  | segment :: rest =>
      match kindOf segment with
      | KCatchAll => [KCatchAll]
      | k => k :: shape rest
      end
  end.

(** The parameter name stored with a catch-all entry. *)
Fixpoint starName (segments : list string) : option string :=
  match segments with
  | [] => None
  | segment :: rest =>
      if Js.startsWith "*" segment then Some (Js.slice1 segment)
      else starName rest
  end.

Definition patternShape (e : ManifestRouteEntry) : list SegKind :=
  shape (splitSegments (e_pattern e)).

(** The entry registered in the trie under a branch sequence, with the
    catch-all parameter name when the sequence ends in the catch-all. *)
Fixpoint lookupShape (node : TrieNode) (sh : list SegKind)
    : option (ManifestRouteEntry * option string) :=
  match sh with
  | [] => (λ e, (e, None)) <$> entry node
  | KStatic s :: rest =>
      match staticChildren node !! s with
      | Some child => lookupShape child rest
      | None => None
      end
  | KDynamic :: rest =>
      match dynamicChild node with
      | Some (_, child) => lookupShape child rest
      | None => None
      end
  | KCatchAll :: rest =>
      match rest with
      | [] => (λ d : string * ManifestRouteEntry, (d.2, Some d.1)) <$> catchAllChild node
      | _ :: _ => None
      end
  end.

(** A branch sequence covers a path: literal segments agree, a parameter
    takes one segment, the catch-all takes one segment or more. *)
Fixpoint shapeMatches (sh : list SegKind) (segments : list string) : bool :=
  match sh, segments with
  | [], [] => true
  | KStatic s :: sh', x :: segments' => bool_decide (s = x) && shapeMatches sh' segments'
  | KDynamic :: sh', _ :: segments' => shapeMatches sh' segments'
  | KCatchAll :: [], _ :: _ => true
  | _, _ => false
  end.

Definition rank (k : SegKind) : nat :=
  match k with KStatic _ => 0 | KDynamic => 1 | KCatchAll => 2 end.

(** Priority: compare segment by segment from the root; at the first
    position where the kinds differ, literal beats parameter beats
    catch-all. *)
Fixpoint outranks (a b : list SegKind) : bool :=
  match a, b with
  | [], _ => true
  | _ :: _, [] => false
  | x :: a', y :: b' =>
      (rank x <? rank y)%nat || ((rank x =? rank y)%nat && outranks a' b')
  end.

(** The non-empty pieces between slashes, without any normalization. *)
Definition segmentsOf (value : string) : list string :=
  filter (λ s, Is_true (Js.truthy s)) (Js.split value).

(** A pattern segment accepts a path segment: a parameter accepts any,
    a literal accepts itself. *)
Definition segmentAccepts (patternSegment segment : string) : Prop :=
  Js.startsWith ":" patternSegment = true ∨ patternSegment = segment.

(** No segment of the pattern is a catch-all. *)
Definition starFree (patternSegments : list string) : Prop :=
  ∀ s, s ∈ patternSegments → Js.startsWith "*" s = false.

(** Every segment of the pattern is a literal. *)
Definition allLiteral (patternSegments : list string) : Prop :=
  ∀ s, s ∈ patternSegments →
       Js.startsWith "*" s = false ∧ Js.startsWith ":" s = false.

(** The first of the three attempts of [matchSegments] at a node. *)
Definition staticAttempt (node : TrieNode) (segment : string) (rest : list string)
    (params : gmap string string) : option ManifestRouteEntry * gmap string string :=
  match staticChildren node !! segment with
  | Some staticChild => matchSegments staticChild rest params
  | None => (None, params)
  end.

End Shape.

(** ** Responses *)

Inductive Body :=
  | TextBody (text : string)
    (** [JSON.stringify({ error, allowed })], kept unserialized *)
  | MethodNotAllowedBody (error : string) (allowed : list string).

Record Response := mkResponse {
  status : nat;
  headers : list (string * string);
  body : Body }.

(** A promise settles with a value or rejects; user code may throw. *)
Inductive Result (A : Type) :=
  | Ok (a : A)
  | Threw (what : string).
Arguments Ok {A} a.
Arguments Threw {A} what.

#[global] Instance Result_ret : MRet Result := λ A a, Ok a.
#[global] Instance Result_bind : MBind Result := λ A B k r,
  match r with
  | Ok a => k a
  | Threw w => Threw w
  end.

Record RequestContext := mkRequestContext {
  ctx_pathname : string;
  ctx_params : list (string * string);
  ctx_routeId : string }.

(** ** Cache-Control (prod-server, [buildCacheControlHeader]) *)

Definition pushDirective (name : string) (field : option Z) (parts : list string)
    : list string :=
  match field with
  | Some n => parts ++ [name +:+ "=" +:+ Js.ofZ n]
  | None => parts
  end.

Definition buildCacheControlHeader (cache : option CacheConfig) : string :=
  match cache with
  | None => "no-cache"
  | Some cache =>
      let parts := ["public"] in
      let parts := pushDirective "max-age" (maxAge cache) parts in
      let parts := pushDirective "s-maxage" (sMaxAge cache) parts in
      let parts := pushDirective "stale-while-revalidate" (staleWhileRevalidate cache) parts in
      if (length parts =? 1)%nat then "no-cache" else Js.join ", " parts
  end.

(** The directives of the fields present, in the order of the header. *)
Definition directives (cache : CacheConfig) : list string :=
  pushDirective "stale-while-revalidate" (staleWhileRevalidate cache)
    (pushDirective "s-maxage" (sMaxAge cache)
       (pushDirective "max-age" (maxAge cache) [])).

(** The header as the specification words it: [public] followed by the
    directives of the fields present, and [no-cache] only when there is no
    cache config at all. *)
Definition specCacheControlHeader (cache : option CacheConfig) : string :=
  match cache with
  | None => "no-cache"
  | Some cache => Js.join ", " ("public" :: directives cache)
  end.

(** ** API routes at request time (prod-server, [handleApiRouteInner]) *)

Module ApiRoute.

(** The value of an export of a compiled API module, as far as
    [typeof mod[method] === "function"] can tell. *)
Inductive ExportValue :=
  | ExFunction (handler : RequestContext → Result Response)
  | ExNotFunction.

(** A compiled server module: its exports, in the order the bundler
    lists them. *)
Definition ServerModule := list (string * ExportValue).

Definition exportNames (m : ServerModule) : list string := m.*1.

(** [mod[name]] on a module namespace object *)
Fixpoint getExport (m : ServerModule) (name : string) : option ExportValue :=
  match m with
  | [] => None
  | (n, v) :: rest => if bool_decide (n = name) then Some v else getExport rest name
  end.

Definition upperChar (c : ascii) : ascii :=
  let n := nat_of_ascii c in
  if ((97 <=? n) && (n <=? 122))%nat then ascii_of_nat (n - 32) else c.

(** [s.toUpperCase()] on ASCII text; request methods are HTTP tokens. *)
Fixpoint toUpperCase (s : string) : string :=
  match s with
  | EmptyString => EmptyString
  | String c rest => String (upperChar c) (toUpperCase rest)
  end.

(** [(req.method || "GET").toUpperCase()] *)
Definition requestMethod (reqMethod : option string) : string :=
  toUpperCase (match reqMethod with
               | Some m => if Js.truthy m then m else "GET"
               | None => "GET"
               end).

Definition methodNotAllowed (method : string) (allowedMethods : list string) : Response :=
  mkResponse 405
    [("Content-Type", "application/json"); ("Allow", Js.join ", " allowedMethods)]
    (MethodNotAllowedBody ("Method " +:+ method +:+ " not allowed") allowedMethods).

(** [importModule] is the server's cached dynamic import, keyed here by
    the entry's path relative to the server directory. *)
Definition handleApiRouteInner
    (importModule : string → Result ServerModule)
    (reqMethod : option string) (ctx : RequestContext)
    (entry : ManifestRouteEntry) : Result Response :=
  let method := requestMethod reqMethod in
  let allowedMethods := default [] (e_methods entry) in
  if negb (Js.includes method allowedMethods) then
    Ok (methodNotAllowed method allowedMethods)
  else
    match e_serverEntry entry with
    | Some serverEntry =>
        if Js.truthy serverEntry then
          m ← importModule serverEntry;
          match getExport m method with
          | Some (ExFunction handler) => handler ctx
          | _ =>
              Ok (mkResponse 500 [("Content-Type", "text/plain")]
                    (TextBody ("API route " +:+ Js.quote +:+ e_id entry +:+ Js.quote +:+ " does not export a "
                               +:+ method +:+ " handler.")))
          end
        else
          Ok (mkResponse 500 [("Content-Type", "text/plain")]
                (TextBody ("API route " +:+ Js.quote +:+ e_id entry +:+ Js.quote
                   +:+ " has no server entry in the manifest.")))
    | None =>
        Ok (mkResponse 500 [("Content-Type", "text/plain")]
              (TextBody ("API route " +:+ Js.quote +:+ e_id entry +:+ Js.quote
                   +:+ " has no server entry in the manifest.")))
    end.

End ApiRoute.

(** ** The build orchestrator, after the two bundling passes *)

Module Build.
Import ApiRoute.

(** Modelled from the spec: [HTTP_METHODS], a constant of pyrajs-shared
    whose declaration is not among the sources; the specification lists
    the recognized methods as GET, POST, PUT, DELETE, PATCH, HEAD,
    OPTIONS. *)
Definition HTTP_METHODS : list string :=
  ["GET"; "POST"; "PUT"; "DELETE"; "PATCH"; "HEAD"; "OPTIONS"].

Record RouteNode := mkRouteNode {
  r_id : string;
  r_pattern : string;
  r_type : RouteType;
  r_filePath : string;
  r_layoutId : option string;
  r_middlewarePaths : list string }.

(** Components and loaded data are opaque to the orchestrator. *)
Record Component := mkComponent { component_tag : string }.
Record Data := mkData { data_tag : string }.

(** A parameter object, as [Object.entries] enumerates it. *)
Definition ParamSet := list (string * string).

Inductive LoadResult :=
  | LoadData (d : Data)
  | LoadResponse (r : Response).

(** The value of a page module's [prerender] export. *)
Inductive PrerenderExport :=
  | PrFalsy
  | PrTrue
  | PrWithPaths (paths : Result (list ParamSet))
  | PrOtherTruthy.

(** What is kept in [prerenderMap]: [true], or a config whose [paths()]
    settles with the parameter sets or rejects. *)
Inductive PrerenderConfig :=
  | PrerenderTrue
  | PrerenderPaths (paths : Result (list ParamSet)).

(** A compiled page module, seen through the tests the build applies:
    [pm_default] is [None] when [mod.default] is falsy, [pm_load] is
    [Some] when [typeof mod.load === 'function'], [pm_cache] is [Some]
    when [mod.cache] is a truthy object. *)
Record PageModule := mkPageModule {
  pm_default : option Component;
  pm_load : option (RequestContext → Result LoadResult);
  pm_prerender : PrerenderExport;
  pm_cache : option CacheConfig }.

Record RenderContext := mkRenderContext {
  rc_url : string;
  rc_params : ParamSet }.

(** The collaborators: the dynamic import of a compiled page module by
    its output path, and the adapter's [renderToHTML]. *)
Record Env := mkEnv {
  importPage : string → Result PageModule;
  renderToHTML : Component → option Data → RenderContext → Result string }.

(** One output of the server metafile. Paths are taken as already
    resolved ([path.resolve] and [path.relative] are not modelled). *)
Record ServerOutput := mkServerOutput {
  so_outputPath : string;
  so_entryPoint : option string;
  so_exports : list string }.

Record ClientOutput := mkClientOutput {
  co_entry : string;
  co_chunks : list string;
  co_css : list string }.

(** The maps of step 7. [prerenderMap] is iterated later, so it keeps
    the insertion order of a JavaScript [Map]. *)
Record Detected := mkDetected {
  hasLoadMap : gmap string bool;
  apiMethodsMap : gmap string (list string);
  prerenderMap : list (string * PrerenderConfig);
  cacheMap : gmap string CacheConfig;
  serverOutputPathMap : gmap string string }.

Definition noneDetected : Detected := mkDetected ∅ ∅ [] ∅ ∅.

(** [Map.prototype.set] on an insertion-ordered map *)
Fixpoint mapSet {V} (k : string) (v : V) (m : list (string * V)) : list (string * V) :=
  match m with
  | [] => [(k, v)]
  | (k', v') :: rest =>
      if bool_decide (k' = k) then (k, v) :: rest
      else (k', v') :: mapSet k v rest
  end.

(** [exports.filter(e => HTTP_METHODS.includes(e))] *)
Definition recognizedMethods (exports : list string) : list string :=
  List.filter (λ e, Js.includes e HTTP_METHODS) exports.

(** The body of the loop over the server metafile outputs (step 7). *)
Definition detectOutput (env : Env)
    (serverEntryRouteMap : gmap string (string * RouteType))
    (d : Detected) (o : ServerOutput) : Result Detected :=
  match so_entryPoint o with
  | None => Ok d
  | Some entryPoint =>
      if negb (Js.truthy entryPoint) then Ok d else
      match serverEntryRouteMap !! entryPoint with
      | None => Ok d
      | Some (routeId, Page) =>
          let exports := so_exports o in
          let d1 :=
            mkDetected (<[routeId := Js.includes "load" exports]> (hasLoadMap d))
                       (apiMethodsMap d) (prerenderMap d) (cacheMap d)
                       (<[routeId := so_outputPath o]> (serverOutputPathMap d)) in
          if Js.includes "prerender" exports || Js.includes "cache" exports then
            m ← importPage env (so_outputPath o);
            let prerenderMap' :=
              match pm_prerender m with
              | PrTrue => mapSet routeId PrerenderTrue (prerenderMap d1)
              | PrWithPaths paths => mapSet routeId (PrerenderPaths paths) (prerenderMap d1)
              | PrFalsy | PrOtherTruthy => prerenderMap d1
              end in
            let cacheMap' :=
              match pm_cache m with
              | Some c => <[routeId := c]> (cacheMap d1)
              | None => cacheMap d1
              end in
            Ok (mkDetected (hasLoadMap d1) (apiMethodsMap d1) prerenderMap' cacheMap'
                           (serverOutputPathMap d1))
          else Ok d1
      | Some (routeId, Api) =>
          let methods := recognizedMethods (so_exports o) in
          if (0 <? length methods)%nat then
            Ok (mkDetected (hasLoadMap d) (<[routeId := methods]> (apiMethodsMap d))
                           (prerenderMap d) (cacheMap d) (serverOutputPathMap d))
          else Ok d
      end
  end.

Fixpoint detectExports (env : Env)
    (serverEntryRouteMap : gmap string (string * RouteType))
    (outputs : list ServerOutput) (d : Detected) : Result Detected :=
  match outputs with
  | [] => Ok d
  | o :: rest =>
      d' ← detectOutput env serverEntryRouteMap d o;
      detectExports env serverEntryRouteMap rest d'
  end.

(** [buildServerOutputMap]: route id to server entry path. *)
Definition buildServerOutputMap
    (entryRouteMap : gmap string (string * RouteType))
    (outputs : list ServerOutput) : gmap string string :=
  foldl (λ result o,
           match so_entryPoint o with
           | None => result
           | Some entryPoint =>
               if negb (Js.truthy entryPoint) then result else
               match entryRouteMap !! entryPoint with
               | None => result
               | Some (routeId, _) => <[routeId := so_outputPath o]> result
               end
           end) ∅ outputs.

(** [xs?.length ? xs : undefined] *)
Definition nonEmpty {A} (xs : list A) : option (list A) :=
  match xs with [] => None | _ => Some xs end.

Definition pageManifestEntry
    (clientOutputMap : gmap string ClientOutput)
    (serverOutputMap : gmap string string) (d : Detected)
    (route : RouteNode) : ManifestRouteEntry :=
  let clientOutput := clientOutputMap !! r_id route in
  {| e_id := r_id route;
     e_pattern := r_pattern route;
     e_type := Page;
     e_clientEntry := co_entry <$> clientOutput;
     e_clientChunks := clientOutput ≫= (λ c, nonEmpty (co_chunks c));
     e_css := clientOutput ≫= (λ c, nonEmpty (co_css c));
     e_ssrEntry := serverOutputMap !! r_id route;
     e_serverEntry := None;
     e_hasLoad := Some (default false (hasLoadMap d !! r_id route));
     e_methods := None;
     e_cache := cacheMap d !! r_id route;
     e_layouts :=
       match r_layoutId route with
       | Some l => if Js.truthy l then Some [l] else None
       | None => None
       end;
     e_middleware := nonEmpty (r_middlewarePaths route);
     e_prerendered := None;
     e_prerenderedFile := None;
     e_prerenderedCount := None |}.

Definition apiManifestEntry
    (serverOutputMap : gmap string string) (d : Detected)
    (route : RouteNode) : ManifestRouteEntry :=
  {| e_id := r_id route;
     e_pattern := r_pattern route;
     e_type := Api;
     e_clientEntry := None;
     e_clientChunks := None;
     e_css := None;
     e_ssrEntry := None;
     e_serverEntry := serverOutputMap !! r_id route;
     e_hasLoad := None;
     e_methods := apiMethodsMap d !! r_id route;
     e_cache := None;
     e_layouts := None;
     e_middleware := nonEmpty (r_middlewarePaths route);
     e_prerendered := None;
     e_prerenderedFile := None;
     e_prerenderedCount := None |}.

(** The [routes] object of [assembleManifest]: page routes first, then
    API routes, each stored under its id. *)
Definition assembleRoutes
    (pageRoutes apiRoutes : list RouteNode)
    (clientOutputMap : gmap string ClientOutput)
    (serverOutputMap : gmap string string) (d : Detected)
    : gmap string ManifestRouteEntry :=
  let routes :=
    foldl (λ routes route,
             <[r_id route := pageManifestEntry clientOutputMap serverOutputMap d route]> routes)
          ∅ pageRoutes in
  foldl (λ routes route,
           <[r_id route := apiManifestEntry serverOutputMap d route]> routes)
        routes apiRoutes.

(** [RouteManifest] without the timestamp and the asset inventory. *)
Record RouteManifest := mkRouteManifest {
  version : nat;
  adapter : string;
  base : string;
  routes : gmap string ManifestRouteEntry }.

Definition assembleManifest (adapterName base : string)
    (pageRoutes apiRoutes : list RouteNode)
    (clientOutputMap : gmap string ClientOutput)
    (serverOutputMap : gmap string string) (d : Detected) : RouteManifest :=
  mkRouteManifest 1 adapterName base
    (assembleRoutes pageRoutes apiRoutes clientOutputMap serverOutputMap d).

Definition buildEmptyManifest (adapterName base : string) : RouteManifest :=
  mkRouteManifest 1 adapterName base ∅.

(** *** The prerender pass (step 9) *)

Inductive LogLine :=
  | InfoPrerendering (routeCount : nat)
  | WarnNoDefaultExport (routeId : string)
  | InfoPrerendered (routeId : string) (renderedCount : nat).

(** The part of the build state the pass reads and writes: the manifest
    routes, the HTML files written under the client directory (oldest
    first, each with the body the adapter rendered; the document shell
    around it is plain templating and is not modelled), and the log. *)
Record BuildState := mkBuildState {
  bs_routes : gmap string ManifestRouteEntry;
  bs_files : list (string * string);
  bs_log : list LogLine }.

(** The entry with its three prerender properties as given. *)
Definition withPrerender (e : ManifestRouteEntry) (prerendered : option bool)
    (file : option string) (count : option nat) : ManifestRouteEntry :=
  mkEntry (e_id e) (e_pattern e) (e_type e) (e_clientEntry e) (e_clientChunks e) (e_css e)
          (e_ssrEntry e) (e_serverEntry e) (e_hasLoad e) (e_methods e) (e_cache e)
          (e_layouts e) (e_middleware e) prerendered file count.

(** The concrete pathname of one parameter set: every [:key] of the
    pattern replaced, first occurrence, in the order of the entries. *)
Definition concretePathname (pattern : string) (params : ParamSet) : string :=
  foldl (λ pathname kv, Js.replace pathname (":" +:+ kv.1) kv.2) pattern params.

Definition htmlRelPathOf (pathname : string) : string :=
  if bool_decide (pathname = "/") then "index.html"
  else Js.slice1 pathname +:+ "/index.html".

(** The data-loading step of one page: [None] when [load()] settled with
    a [Response] (the page is skipped), [Some data] otherwise, [data]
    being [null] when there is nothing to call. *)
Definition loadPageData (m : PageModule) (entry : ManifestRouteEntry)
    (routeId pathname : string) (params : ParamSet) : Result (option (option Data)) :=
  match e_hasLoad entry, pm_load m with
  | Some true, Some load =>
      loadResult ← load (mkRequestContext pathname params routeId);
      match loadResult with
      | LoadResponse _ => Ok None
      | LoadData d => Ok (Some (Some d))
      end
  | _, _ => Ok (Some None)
  end.

(** The path of the HTML file of one parameter set. *)
Definition pagePath (entry : ManifestRouteEntry) (params : ParamSet) : string :=
  htmlRelPathOf (concretePathname (e_pattern entry) params).

(** What the loop over the parameter sets of one route changes: the
    counter, the [prerenderedFile] property of the entry (the loop reads
    only [pattern] and [hasLoad] of the entry, which it never writes),
    and the files written. *)
Record PageLoop := mkPageLoop {
  renderedCount : nat;
  pl_prerenderedFile : option string;
  pl_files : list (string * string) }.

(** The loop over [paramSets]; [total] is [paramSets.length] of the
    whole array. *)
Fixpoint prerenderPages (env : Env) (routeId : string) (m : PageModule)
    (component : Component) (entry : ManifestRouteEntry) (total : nat)
    (paramSets : list ParamSet) (acc : PageLoop) : Result PageLoop :=
  match paramSets with
  | [] => Ok acc
  | params :: rest =>
      let pathname := concretePathname (e_pattern entry) params in
      loaded ← loadPageData m entry routeId pathname params;
      match loaded with
      | None => prerenderPages env routeId m component entry total rest acc
      | Some data =>
          bodyHtml ← renderToHTML env component data (mkRenderContext pathname params);
          let htmlRelPath := htmlRelPathOf pathname in
          prerenderPages env routeId m component entry total rest
            (mkPageLoop (S (renderedCount acc))
                        (if (total =? 1)%nat then Some htmlRelPath
                         else pl_prerenderedFile acc)
                        (pl_files acc ++ [(htmlRelPath, bodyHtml)]))
      end
  end.

(** The page of a parameter set is skipped: its [load()] settled with a
    [Response]. *)
Definition pageSkipped (m : PageModule) (entry : ManifestRouteEntry)
    (routeId : string) (params : ParamSet) : bool :=
  match loadPageData m entry routeId (concretePathname (e_pattern entry) params) params with
  | Ok None => true
  | _ => false
  end.

(** The parameter sets whose page is rendered, in order. *)
Definition renderedPages (m : PageModule) (entry : ManifestRouteEntry)
    (routeId : string) (paramSets : list ParamSet) : list ParamSet :=
  List.filter (λ params, negb (pageSkipped m entry routeId params)) paramSets.

Definition resolveParamSets (cfg : PrerenderConfig) : Result (list ParamSet) :=
  match cfg with
  | PrerenderTrue => Ok [[]]
  | PrerenderPaths paths => paths
  end.

(** The body of the loop over [prerenderMap]. *)
Definition prerenderRoute (env : Env) (d : Detected) (st : BuildState)
    (routeId : string) (cfg : PrerenderConfig) : Result BuildState :=
  match bs_routes st !! routeId with
  | None => Ok st
  | Some entry =>
      match e_type entry with
      | Api => Ok st
      | Page =>
          match serverOutputPathMap d !! routeId with
          | None => Ok st
          | Some serverModPath =>
              if negb (Js.truthy serverModPath) then Ok st else
              m ← importPage env serverModPath;
              match pm_default m with
              | None =>
                  Ok (mkBuildState (bs_routes st) (bs_files st)
                                   (bs_log st ++ [WarnNoDefaultExport routeId]))
              | Some component =>
                  paramSets ← resolveParamSets cfg;
                  loop ← prerenderPages env routeId m component entry (length paramSets)
                                        paramSets
                                        (mkPageLoop 0 (e_prerenderedFile entry) []);
                  let entry2 :=
                    withPrerender entry (Some true) (pl_prerenderedFile loop)
                      (if (1 <? length paramSets)%nat then Some (renderedCount loop)
                       else e_prerenderedCount entry) in
                  Ok (mkBuildState (<[routeId := entry2]> (bs_routes st))
                                   (bs_files st ++ pl_files loop)
                                   (bs_log st ++ [InfoPrerendered routeId (renderedCount loop)]))
              end
          end
      end
  end.

Fixpoint prerenderLoop (env : Env) (d : Detected)
    (todo : list (string * PrerenderConfig)) (st : BuildState) : Result BuildState :=
  match todo with
  | [] => Ok st
  | (routeId, cfg) :: rest =>
      st' ← prerenderRoute env d st routeId cfg;
      prerenderLoop env d rest st'
  end.

Definition prerenderPass (env : Env) (d : Detected) (st : BuildState) : Result BuildState :=
  if (0 <? length (prerenderMap d))%nat then
    prerenderLoop env d (prerenderMap d)
      (mkBuildState (bs_routes st) (bs_files st)
                    (bs_log st ++ [InfoPrerendering (length (prerenderMap d))]))
  else Ok st.


(** What a finished build leaves: [manifest.json], the prerendered
    files, the log. *)
Record BuildOutput := mkBuildOutput {
  manifestFile : RouteManifest;
  htmlFiles : list (string * string);
  buildLog : list LogLine }.

(** Steps 9 and the manifest write that follows it. *)
Definition prerenderAndWrite (env : Env) (d : Detected) (manifest : RouteManifest)
    : Result BuildOutput :=
  st ← prerenderPass env d (mkBuildState (routes manifest) [] []);
  Ok (mkBuildOutput
        (mkRouteManifest (version manifest) (adapter manifest) (base manifest) (bs_routes st))
        (bs_files st) (bs_log st)).

(** [build], from the results of the scan and of the two bundling
    passes on: export detection, manifest assembly, prerendering, the
    manifest write. A [Threw] is a rejected build. *)
Definition build (env : Env) (adapterName base : string)
    (pageRoutes apiRoutes : list RouteNode)
    (clientOutputMap : gmap string ClientOutput)
    (serverEntryRouteMap : gmap string (string * RouteType))
    (serverOutputs : list ServerOutput) : Result BuildOutput :=
  match pageRoutes, apiRoutes with
  | [], [] => Ok (mkBuildOutput (buildEmptyManifest adapterName base) [] [])
  | _, _ =>
      d ← detectExports env serverEntryRouteMap serverOutputs noneDetected;
      let serverOutputMap := buildServerOutputMap serverEntryRouteMap serverOutputs in
      let manifest :=
        assembleManifest adapterName base pageRoutes apiRoutes
                         clientOutputMap serverOutputMap d in
      prerenderAndWrite env d manifest
  end.

(** *** The build report *)

(** [(bytes / 1024).toFixed(1)] for an integral byte count: the division
    by a power of two is exact in binary floating point, and [toFixed]
    picks the integer [n] with [n / 10] nearest to the exact value, the
    larger one on a tie; then it prints [n] with a point before the last
    digit. *)
Definition kbToFixed1 (bytes : N) : string :=
  let n := ((10 * bytes + 512) / 1024)%N in
  Js.ofN (n / 10) +:+ "." +:+ Js.ofN (n mod 10).

(** [formatSize(bytes)]; [kb < 1] holds exactly when [bytes < 1024]. *)
Definition formatSize (bytes : N) : string :=
  if (bytes =? 0)%N then "-"
  else if (bytes <? 1024)%N then Js.ofN bytes +:+ " B"
  else kbToFixed1 bytes +:+ " KB".

End Build.

(** ** Sample data *)

Module Demo.
Import Matcher.

Definition page (pattern : string) : ManifestRouteEntry :=
  mkEntry pattern pattern Page None None None None None (Some false) None None
          None None None None None.

Definition docsRoutes : list ManifestRouteEntry :=
  [page "/docs"; page "/docs/:id"; page "/docs/*path"; page "/:section/edit"].


(** An API route under [/api/items], with two compiled modules to choose
    from: one exporting a GET handler and a helper, one exporting the
    helper only. *)
Definition okResponse : Response := mkResponse 200 [] (TextBody "ok").

Definition itemsModule : ApiRoute.ServerModule :=
  [("GET", ApiRoute.ExFunction (λ _, Ok okResponse)); ("helper", ApiRoute.ExNotFunction)].

Definition helperOnlyModule : ApiRoute.ServerModule :=
  [("helper", ApiRoute.ExNotFunction)].

(** A module that exports a GET handler and, under the name DELETE, a
    constant. *)
Definition constantModule : ApiRoute.ServerModule :=
  [("GET", ApiRoute.ExFunction (λ _, Ok okResponse)); ("DELETE", ApiRoute.ExNotFunction)].

Definition itemsRoute : Build.RouteNode :=
  Build.mkRouteNode "/api/items" "/api/items" Api "/app/src/routes/api/items/route.ts" None [].

Definition itemsOutput (m : ApiRoute.ServerModule) : Build.ServerOutput :=
  Build.mkServerOutput "api__api__items.js" (Some "/app/src/routes/api/items/route.ts")
                       (ApiRoute.exportNames m).

(** Two prerendered pages: [/about] with [prerender = true], and
    [/posts/:slug] whose [paths()] lists three slugs and whose [load()]
    answers the second one with a redirect. *)
Definition aboutRoute : Build.RouteNode :=
  Build.mkRouteNode "/about" "/about" Page "/app/src/routes/about/page.tsx" None [].

Definition postsRoute : Build.RouteNode :=
  Build.mkRouteNode "/posts/[slug]" "/posts/:slug" Page
                    "/app/src/routes/posts/[slug]/page.tsx" None [].

Definition aboutModule : Build.PageModule :=
  Build.mkPageModule (Some (Build.mkComponent "About")) None Build.PrTrue None.

Definition aboutWithoutDefault : Build.PageModule :=
  Build.mkPageModule None None Build.PrTrue None.

Definition slugs : list Build.ParamSet :=
  [[("slug", "a")]; [("slug", "b")]; [("slug", "c")]].

Definition postsLoad (ctx : RequestContext) : Result Build.LoadResult :=
  if bool_decide (ctx_pathname ctx = "/posts/b")
  then Ok (Build.LoadResponse (mkResponse 302 [("Location", "/")] (TextBody "")))
  else Ok (Build.LoadData (Build.mkData (ctx_pathname ctx))).

Definition postsModule : Build.PageModule :=
  Build.mkPageModule (Some (Build.mkComponent "Post")) (Some postsLoad)
                     (Build.PrWithPaths (Ok slugs)) None.

Definition serverEntryRouteMap : gmap string (string * RouteType) :=
  {[ "/app/src/routes/api/items/route.ts" := ("/api/items", Api);
     "/app/src/routes/about/page.tsx" := ("/about", Page);
     "/app/src/routes/posts/[slug]/page.tsx" := ("/posts/[slug]", Page) ]}.

Definition aboutOutput : Build.ServerOutput :=
  Build.mkServerOutput "page__about.js" (Some "/app/src/routes/about/page.tsx")
                       ["default"; "prerender"].

Definition postsOutput : Build.ServerOutput :=
  Build.mkServerOutput "page__posts__slug_.js" (Some "/app/src/routes/posts/[slug]/page.tsx")
                       ["default"; "load"; "prerender"].

Definition env (about : Build.PageModule) : Build.Env :=
  Build.mkEnv
    (λ path, if bool_decide (path = "page__about.js") then Ok about
             else if bool_decide (path = "page__posts__slug_.js") then Ok postsModule
             else Threw "module not found")
    (λ component _ _, Ok ("<main>" +:+ Build.component_tag component +:+ "</main>")).

Definition siteOutputs (items : ApiRoute.ServerModule) : list Build.ServerOutput :=
  [aboutOutput; postsOutput; itemsOutput items].

(** The build of the two pages and the API route. *)
Definition buildSite (about : Build.PageModule) (items : ApiRoute.ServerModule)
    : Result Build.BuildOutput :=
  Build.build (env about) "react" "/" [aboutRoute; postsRoute] [itemsRoute] ∅
              serverEntryRouteMap (siteOutputs items).

(** What the export detection finds on the site with the GET handler,
    and the manifest assembled from it. *)
Definition siteDetected : Build.Detected :=
  Build.mkDetected
    {[ "/about" := false; "/posts/[slug]" := true ]}
    {[ "/api/items" := ["GET"] ]}
    [("/about", Build.PrerenderTrue); ("/posts/[slug]", Build.PrerenderPaths (Ok slugs))]
    ∅
    {[ "/about" := "page__about.js"; "/posts/[slug]" := "page__posts__slug_.js" ]}.

Definition siteServerOutputMap : gmap string string :=
  Build.buildServerOutputMap serverEntryRouteMap (siteOutputs itemsModule).

Definition siteManifest : Build.RouteManifest :=
  Build.assembleManifest "react" "/" [aboutRoute; postsRoute] [itemsRoute] ∅
                         siteServerOutputMap siteDetected.

Definition importItems (items : ApiRoute.ServerModule) (path : string)
    : Result ApiRoute.ServerModule :=
  if bool_decide (path = "api__api__items.js") then Ok items else Threw "module not found".

Definition itemsRequest : RequestContext := mkRequestContext "/api/items" [] "/api/items".

End Demo.

(** ** Further parts of the code *)

(** *** An API route, from its server output to the request *)

Module Recorded.
Import ApiRoute Build.

(** Whether an output of the server bundle is the output of a route:
    its entry point is the source file of that route. *)
Definition outputOf (serverEntryRouteMap : gmap string (string * RouteType))
    (routeId : string) (o : ServerOutput) : bool :=
  match so_entryPoint o with
  | None => false
  | Some entryPoint =>
      Js.truthy entryPoint
      && match serverEntryRouteMap !! entryPoint with
         | Some (id, _) => bool_decide (id = routeId)
         | None => false
         end
  end.

(** The response to a request for a recorded method. *)
Definition dispatched (importModule : string → Result ServerModule)
    (method : string) (ctx : RequestContext) (routeId serverEntry : string)
    : Result Response :=
  if Js.truthy serverEntry then
    m ← importModule serverEntry;
    match getExport m method with
    | Some (ExFunction handler) => handler ctx
    | _ =>
        Ok (mkResponse 500 [("Content-Type", "text/plain")]
              (TextBody ("API route " +:+ Js.quote +:+ routeId +:+ Js.quote
                         +:+ " does not export a " +:+ method +:+ " handler.")))
    end
  else
    Ok (mkResponse 500 [("Content-Type", "text/plain")]
          (TextBody ("API route " +:+ Js.quote +:+ routeId +:+ Js.quote
                     +:+ " has no server entry in the manifest."))).

End Recorded.

(** *** The parameter object a single pattern yields *)

Module Bindings.

(** The bindings [matchSegments] makes while it walks one pattern along
    a path that the pattern covers: a parameter segment binds its name
    to the path segment, a catch-all binds its name to the remaining
    segments joined by slashes and ends the walk. *)
Fixpoint bindParams (patternSegments segments : list string)
    (params : gmap string string) : gmap string string :=
  match patternSegments, segments with
  | p :: patternSegments', s :: segments' =>
      if Js.startsWith "*" p then Js.assign (Js.slice1 p) (Js.join "/" segments) params
      else if Js.startsWith ":" p
           then bindParams patternSegments' segments' (Js.assign (Js.slice1 p) s params)
           else bindParams patternSegments' segments' params
  | _, _ => params
  end.

(** A value taken from a path: one of its segments, or a tail of it
    joined by slashes. *)
Definition pathValue (segments : list string) (v : string) : Prop :=
  v ∈ segments ∨ ∃ n, v = Js.join "/" (drop n segments).

End Bindings.

(** *** The patterns below a node of the trie *)

Module Residual.
Import Matcher Shape Bindings.

(** The parameter names a pattern puts into the trie, in order: one per
    dynamic segment, then that of the catch-all, where insertion stops. *)
Fixpoint ownNames (patternSegments : list string) : list string :=
  match patternSegments with
  | [] => []
  | p :: rest =>
      if Js.startsWith "*" p then [Js.slice1 p]
      else if Js.startsWith ":" p then Js.slice1 p :: ownNames rest
      else ownNames rest
  end.

(** Patterns still to insert below a node, each with its entry. *)
Definition Pending := list (list string * ManifestRouteEntry).

(** The insertion loop of [buildMatcher] from a given node on. *)
Definition trieOf (pending : Pending) (root : TrieNode) : TrieNode :=
  foldl (λ t pe, insertSegments pe.1 pe.2 t) root pending.

(** What is left of the patterns that start with the literal [s]. *)
Definition staticResidual (s : string) (pending : Pending) : Pending :=
  omap (λ pe, match pe.1 with
              | p :: rest =>
                  if Js.startsWith "*" p then None
                  else if Js.startsWith ":" p then None
                  else if bool_decide (p = s) then Some (rest, pe.2) else None
              | [] => None
              end) pending.

(** What is left of the patterns that start with a parameter. *)
Definition dynamicResidual (pending : Pending) : Pending :=
  omap (λ pe, match pe.1 with
              | p :: rest =>
                  if Js.startsWith "*" p then None
                  else if Js.startsWith ":" p then Some (rest, pe.2) else None
              | [] => None
              end) pending.

(** The names of the parameters the patterns start with. *)
Definition dynamicHeads (pending : Pending) : list string :=
  omap (λ pe, match pe.1 with
              | p :: rest =>
                  if Js.startsWith "*" p then None
                  else if Js.startsWith ":" p then Some (Js.slice1 p) else None
              | [] => None
              end) pending.

(** The patterns that start with a catch-all. *)
Definition catchAlls (pending : Pending) : list (string * ManifestRouteEntry) :=
  omap (λ pe, match pe.1 with
              | p :: rest => if Js.startsWith "*" p then Some (Js.slice1 p, pe.2) else None
              | [] => None
              end) pending.

(** The entries of the patterns that end here. *)
Definition endings (pending : Pending) : list ManifestRouteEntry :=
  omap (λ pe, match pe.1 with
              | [] => Some pe.2
              | _ :: _ => None
              end) pending.

(** Routes that reach the same position along the same branches name
    the parameter there alike. *)
Definition namesAgree (pending : Pending) : Prop :=
  ∀ pre1 p1 rest1 e1 pre2 p2 rest2 e2,
    (pre1 ++ p1 :: rest1, e1) ∈ pending → (pre2 ++ p2 :: rest2, e2) ∈ pending →
    starFree pre1 → shape pre1 = shape pre2 →
    Js.startsWith ":" p1 = true → Js.startsWith ":" p2 = true →
    Js.slice1 p1 = Js.slice1 p2.

(** No pattern uses a parameter name twice. *)
Definition namesDistinct (pending : Pending) : Prop :=
  ∀ pe, pe ∈ pending → NoDup (ownNames pe.1).

(** The routes of a manifest as [buildMatcher] takes them. *)
Definition pendingOf (routes : list ManifestRouteEntry) : Pending :=
  (λ e, (splitSegments (e_pattern e), e)) <$> routes.

(** The second and the third attempt of [matchSegments] at a node. *)
Definition dynamicAttempt (node : TrieNode) (segment : string) (rest : list string)
    (params : gmap string string) : option ManifestRouteEntry * gmap string string :=
  match dynamicChild node with
  | Some (paramName, dynamicNode) =>
      match matchSegments dynamicNode rest (Js.assign paramName segment params) with
      | (Some r, p) => (Some r, p)
      | (None, p) => (None, delete paramName p)
      end
  | None => (None, params)
  end.

Definition catchAllAttempt (node : TrieNode) (segments : list string)
    (params : gmap string string) : option ManifestRouteEntry * gmap string string :=
  match catchAllChild node with
  | Some (paramName, e) => (Some e, Js.assign paramName (Js.join "/" segments) params)
  | None => (None, params)
  end.

(** What a walk from the node of the pending patterns leaves: keys no
    pattern names are untouched; on a result, the entry comes with one of
    the pending patterns, which covers the path, whose names (the name
    [__proto__] set aside) are bound as [bindParams] binds them, every
    other key being as before or gone. *)
Definition walked (pending : Pending) (segments : list string)
    (params : gmap string string) (r : option ManifestRouteEntry)
    (p : gmap string string) : Prop :=
  (∀ k, (∀ pe, pe ∈ pending → k ∉ ownNames pe.1) → p !! k = params !! k)
  ∧ match r with
    | None => ∀ k, p !! k = params !! k ∨ p !! k = None
    | Some e =>
        ∃ ps, (ps, e) ∈ pending ∧ shapeMatches (shape ps) segments = true
              ∧ (∀ k, k ∈ ownNames ps → k ≠ "__proto__" →
                      p !! k = bindParams ps segments ∅ !! k)
              ∧ (∀ k, k ∉ ownNames ps → p !! k = params !! k ∨ p !! k = None)
    end.

End Residual.

(** *** Characters and segments of a pattern *)

Module Text.

(** [s.includes(c)] for one character *)
Fixpoint hasChar (c : ascii) (s : string) : bool :=
  match s with
  | EmptyString => false
  | String c' rest => bool_decide (c' = c) || hasChar c rest
  end.

(** A literal segment of a pattern: not empty, free of slashes, colons
    and stars. *)
Definition plainSegment (s : string) : Prop :=
  s ≠ "" ∧ hasChar "/" s = false ∧ hasChar ":" s = false ∧ hasChar "*" s = false.

(** Each segment with a slash before it. *)
Fixpoint slashed (segments : list string) : string :=
  match segments with
  | [] => ""
  | s :: rest => "/" +:+ s +:+ slashed rest
  end.

End Text.

(** *** The middleware chain (core, [runMiddleware]) *)

Module Middleware.

(** What a middleware does with the [next] it is given: it settles (a
    value returned or a promise resolved is [Ok], a throw or a rejection
    is [Threw]), or it calls [next()], awaits the outcome, and goes on
    from it. A middleware that does not await a call of [next] before
    going on is outside this model. *)
Inductive Program :=
  | Return (r : Result Response)
  | CallNext (k : Result Response → Program).

Definition Middleware := RequestContext → Program.

(** What is observed of a run: a middleware of the chain is entered,
    the final handler is called. *)
Inductive Event :=
  | Entered (position : nat)
  | FinalHandler.

(** The variable [index] of the closure, and the events so far. *)
Record State := mkState {
  index : nat;
  trace : list Event }.

(** A middleware's code, run with a given [next]. *)
Fixpoint runProgram (next : State → option (Result Response * State))
    (p : Program) (s : State) : option (Result Response * State) :=
  match p with
  | Return r => Some (r, s)
  | CallNext k =>
      match next s with
      | Some (r, s') => runProgram next (k r) s'
      | None => None
      end
  end.

(** The inner function [next]. The fuel bounds the depth of the calls
    of [next] within one another; [None] is fuel exhausted. The final
    handler settles alike each time it is called; what a middleware
    stores in the context for the handler is not modelled. *)
Fixpoint next (fuel : nat) (chain : list Middleware) (context : RequestContext)
    (finalHandler : Result Response) (s : State) : option (Result Response * State) :=
  if (length chain <=? index s)%nat
  then Some (finalHandler, mkState (index s) (trace s ++ [FinalHandler]))
  else
    match fuel with
    | O => None
    | S fuel =>
        match chain !! index s with
        | Some mw =>
            runProgram (next fuel chain context finalHandler) (mw context)
                       (mkState (S (index s)) (trace s ++ [Entered (index s)]))
        | None => None
        end
    end.

(** [runMiddleware(chain, context, finalHandler)]: a call of [next]
    inside a middleware finds [index] advanced, so the depth never
    exceeds the length of the chain. *)
Definition runMiddleware (chain : list Middleware) (context : RequestContext)
    (finalHandler : Result Response) : option (Result Response * State) :=
  next (length chain) chain context finalHandler (mkState 0 []).

(** The positions entered, in the order of the trace. *)
Definition entered (events : list Event) : list nat :=
  omap (λ e, match e with Entered i => Some i | FinalHandler => None end) events.

(** How often the final handler was called. *)
Definition finalCalls (events : list Event) : nat :=
  length (List.filter (λ e, match e with FinalHandler => true | Entered _ => false end)
                      events).

(** A middleware that calls [next] once, awaits the outcome, a rejection
    included, and settles with what [f] makes of it. *)
Definition wrapping (f : Result Response → Result Response) : Middleware :=
  λ _, CallNext (λ r, Return (f r)).

(** What a list of wrapping middlewares, outermost first, makes of the
    outcome of what they wrap. *)
Definition compose (fs : list (Result Response → Result Response))
    (r : Result Response) : Result Response :=
  foldr (λ f r, f r) r fs.

(** On every path the code of the middleware calls [next] once at
    most. *)
Definition callsNextAtMostOnce (p : Program) : Prop :=
  match p with
  | Return _ => True
  | CallNext k => ∀ r, ∃ r', k r = Return r'
  end.

(** The event of a chain, seen from a chain with [n] more middlewares
    in front. *)
Definition shiftEvent (n : nat) (e : Event) : Event :=
  match e with
  | Entered i => Entered (n + i)
  | FinalHandler => FinalHandler
  end.

(** The positions entered so far are the first [index] ones, in order. *)
Definition enteredInOrder (n : nat) (s : State) : Prop :=
  (index s ≤ n)%nat ∧ entered (trace s) = seq 0 (index s).

(** A state of a chain and the state of the same run seen from a chain
    with [n] more middlewares in front, which left the events [t0]. *)
Definition shifted (n : nat) (t0 : list Event) (s s' : State) : Prop :=
  index s = (n + index s')%nat ∧ trace s = t0 ++ (shiftEvent n <$> trace s').

Definition shiftedOutcome (n : nat) (t0 : list Event)
    (o o' : option (Result Response * State)) : Prop :=
  match o, o' with
  | Some (r, s), Some (r', s') => r = r' ∧ shifted n t0 s s'
  | None, None => True
  | _, _ => False
  end.

End Middleware.

(** *** What the prerender pass keeps of the manifest *)

Module Kept.
Import Build.

(** The entry [e'] is [e] but for its three prerender properties. *)
Definition sameButPrerender (e e' : ManifestRouteEntry) : Prop :=
  withPrerender e' (e_prerendered e) (e_prerenderedFile e) (e_prerenderedCount e) = e.

(** Two [routes] objects have the same ids, and under each id entries
    that differ in their prerender properties at most. *)
Definition sameRoutesButPrerender (rs rs' : gmap string ManifestRouteEntry) : Prop :=
  ∀ id, match rs !! id, rs' !! id with
        | Some e, Some e' => sameButPrerender e e'
        | None, None => True
        | _, _ => False
        end.

(** The pages the log reports as prerendered, all routes together. *)
Definition loggedPages (log : list LogLine) : nat :=
  list_sum (omap (λ l, match l with
                       | InfoPrerendered _ renderedCount => Some renderedCount
                       | _ => None
                       end) log).

End Kept.

(** *** Prerendered pages at request time (prod-server,
    [servePrerenderedPageInner]) *)

Module Serve.
Import Matcher Build.

(** What is found at a path of the disk. *)
Inductive DiskEntry :=
  | File (content : string)
  | Directory.

(** [fs.writeFileSync] of the files of a build, oldest first, each at
    [path.join(clientDir, htmlRelPath)], which is [clientPath]. The
    content kept for a file is the body rendered for it and stands for
    the document assembled around that body. *)
Definition writeFiles (clientPath : string → string)
    (files : list (string * string)) (disk : gmap string DiskEntry) : gmap string DiskEntry :=
  foldl (λ disk file, <[clientPath file.1 := File file.2]> disk) disk files.

Definition get404HTML (pathname : string) : string :=
  "<!DOCTYPE html>
<html><head><title>404 Not Found</title>
<style>
  body { font-family: system-ui, sans-serif; background: #1a1a2e; color: #e0e0e0;
         display: flex; align-items: center; justify-content: center; min-height: 100vh; margin: 0; }
  .container { text-align: center; }
  h1 { font-size: 4rem; color: #ff6b35; margin: 0; }
  p { color: #999; margin-top: 1rem; }
  code { color: #4fc3f7; }
</style></head>
<body>
  <div class=" +:+ Js.quote +:+ "container" +:+ Js.quote +:+ ">
    <h1>404</h1>
    <p>Page <code>" +:+ pathname +:+ "</code> not found</p>
  </div>
</body></html>".

(** The relative path of the file to serve. *)
Definition servedRelPath (entry : ManifestRouteEntry) (pathname : string) : string :=
  let byPathname :=
    if bool_decide (pathname = "/") then "index.html"
    else Js.slice1 pathname +:+ "/index.html" in
  match e_prerenderedFile entry with
  | Some prerenderedFile =>
      if Js.truthy prerenderedFile
         && negb (match e_prerenderedCount entry with
                  | Some (S _) => true
                  | _ => false
                  end)
      then prerenderedFile
      else byPathname
  | None => byPathname
  end.

(** [servePrerenderedPageInner(pathname, match)]; [existsSync] holds of
    a directory too, which [readFileSync] then refuses. The warning
    logged for a missing file is left out. *)
Definition servePrerenderedPageInner (clientPath : string → string) (disk : gmap string DiskEntry)
    (pathname : string) (m : MatchResult) : Result Response :=
  let entry := mr_entry m in
  let htmlAbsPath := clientPath (servedRelPath entry pathname) in
  match disk !! htmlAbsPath with
  | None =>
      Ok (mkResponse 404 [("Content-Type", "text/html")] (TextBody (get404HTML pathname)))
  | Some Directory => Threw "EISDIR: illegal operation on a directory, read"
  | Some (File content) =>
      let cacheControl := buildCacheControlHeader (e_cache entry) in
      Ok (mkResponse 200 [("Content-Type", "text/html"); ("Cache-Control", cacheControl)]
                     (TextBody content))
  end.

(** The response for a page found on the disk. *)
Definition pageResponse (cache : option CacheConfig) (html : string) : Response :=
  mkResponse 200 [("Content-Type", "text/html");
                  ("Cache-Control", buildCacheControlHeader cache)] (TextBody html).

(** The sample site built, and its client directory. *)
Definition demoClientPath (rel : string) : string :=
  "/site/dist/client/" +:+ (if Js.startsWith "/" rel then Js.slice1 rel else rel).

Definition siteBuilt : Result BuildOutput :=
  prerenderAndWrite (Demo.env Demo.aboutModule) Demo.siteDetected Demo.siteManifest.

End Serve.

(** *** A request, from the URL to the response (prod-server,
    [handleRequest]) *)

Module Server.
Import Matcher Middleware Serve.

(** [url.split("?")[0]] *)
Fixpoint beforeQuery (url : string) : string :=
  match url with
  | EmptyString => EmptyString
  | String c rest =>
      if bool_decide (c = "?"%char) then EmptyString else String c (beforeQuery rest)
  end.

(** [loadMiddlewareChain(entries)]; [importDefault] is the cached import
    of a module of the server directory, giving its default export when
    that is a function. *)
Fixpoint loadMiddlewareChain (importDefault : string → Result (option Middleware))
    (entries : list string) : Result (list Middleware) :=
  match entries with
  | [] => Ok []
  | entry :: rest =>
      exported ← importDefault entry;
      chain ← loadMiddlewareChain importDefault rest;
      Ok (match exported with
          | Some mw => mw :: chain
          | None => chain
          end)
  end.

(** What the server is made of: the client directory on the disk, the
    routes of the manifest read at start, the imports, and the SSR
    pipeline, which is not modelled. *)
Record Runtime := mkRuntime {
  rt_clientPath : string → string;
  rt_disk : gmap string DiskEntry;
  rt_routes : list ManifestRouteEntry;
  rt_importMiddleware : string → Result (option Middleware);
  rt_importModule : string → Result ApiRoute.ServerModule;
  rt_handlePageRouteInner : RequestContext → string → MatchResult → Result Response }.

(** What [handleRequest] does to the connection: a static file served
    by [serveStaticFile], the 404 page, the response of the route sent
    by [sendWebResponse] (with the cookies of the context, which are not
    modelled), or the plain 500 of the [catch]. [Sent] keeps the events
    of the middleware run. *)
Inductive Outcome :=
  | StaticFile (urlPath content : string)
  | NotFound (html : string)
  | Sent (response : Response) (events : list Event)
  | InternalServerError.

(** The route handler that ends the middleware chain. *)
Definition routeHandler (rt : Runtime) (reqMethod : option string)
    (ctx : RequestContext) (cleanUrl : string) (m : MatchResult) : Result Response :=
  match e_type (mr_entry m) with
  | Api => ApiRoute.handleApiRouteInner (rt_importModule rt) reqMethod ctx (mr_entry m)
  | Page =>
      match e_prerendered (mr_entry m) with
      | Some true => servePrerenderedPageInner (rt_clientPath rt) (rt_disk rt) cleanUrl m
      | _ => rt_handlePageRouteInner rt ctx cleanUrl m
      end
  end.

(** [handleRequest(req, res)]; [None] is the fuel of [runMiddleware]
    exhausted. *)
Definition handleRequest (rt : Runtime) (reqUrl reqMethod : option string)
    : option Outcome :=
  let url := match reqUrl with
             | Some u => if Js.truthy u then u else "/"
             | None => "/"
             end in
  let cleanUrl := beforeQuery url in
  match rt_disk rt !! rt_clientPath rt cleanUrl with
  | Some (File content) => Some (StaticFile cleanUrl content)
  | _ =>
      match buildMatcher_match (rt_routes rt) cleanUrl with
      | None => Some (NotFound (get404HTML cleanUrl))
      | Some m =>
          let ctx := mkRequestContext cleanUrl (map_to_list (mr_params m))
                                      (e_id (mr_entry m)) in
          match loadMiddlewareChain (rt_importMiddleware rt)
                                    (default [] (e_middleware (mr_entry m))) with
          | Threw _ => Some InternalServerError
          | Ok chain =>
              match runMiddleware chain ctx (routeHandler rt reqMethod ctx cleanUrl m) with
              | None => None
              | Some (Ok response, s) => Some (Sent response (trace s))
              | Some (Threw _, _) => Some InternalServerError
              end
          end
      end
  end.

(** The server of the sample site, on what its build left. *)
Definition siteRuntime (out : Build.BuildOutput) : Runtime :=
  mkRuntime demoClientPath (writeFiles demoClientPath (Build.htmlFiles out) ∅)
            (map_to_list (Build.routes (Build.manifestFile out))).*2
            (λ _, Threw "module not found")
            (Demo.importItems Demo.itemsModule)
            (λ _ _ _, Threw "not rendered").

End Server.

(** *** File names of the bundles (build orchestrator,
    [routeIdToSafeName]) *)

Module Names.

(** [s.replace(/c/g, repl)] for one character [c] and a replacement
    without dollar signs *)
Fixpoint replaceAllChar (c : ascii) (repl : string) (s : string) : string :=
  match s with
  | EmptyString => EmptyString
  | String c' rest =>
      if bool_decide (c' = c) then repl +:+ replaceAllChar c repl rest
      else String c' (replaceAllChar c repl rest)
  end.

(** [s.replace(/\.\.\./g, '_rest')]: the occurrences of three dots, from
    the left, without overlap *)
Fixpoint replaceEllipsis (s : string) : string :=
  match s with
  | EmptyString => EmptyString
  | String a s1 =>
      match s1 with
      | String b (String c rest) =>
          if bool_decide (a = "."%char) && bool_decide (b = "."%char)
             && bool_decide (c = "."%char)
          then "_rest" +:+ replaceEllipsis rest
          else String a (replaceEllipsis s1)
      | _ => String a (replaceEllipsis s1)
      end
  end.

Definition routeIdToSafeName (routeId : string) : string :=
  if bool_decide (routeId = "/") then "_index"
  else
    replaceAllChar "/" "__"
      (replaceEllipsis
         (replaceAllChar "]" "_"
            (replaceAllChar "[" "" (Js.slice1 routeId)))).

End Names.

(** *** The search for a free port ([findAvailablePort]) *)

Module Ports.
Local Open Scope Z_scope.

(** What [server.listen(port)] leads to for a port it accepts: the
    [listening] event, or the [error] event with [EADDRINUSE] or with
    another error. *)
Inductive ListenOutcome :=
  | Listening
  | AddrInUse
  | OtherError (err : string).

(** What becomes of the promise: resolved with a port, rejected, or left
    pending for ever. *)
Inductive PortError :=
  | NoAvailablePort (message : string)
  | BadPort (port : Z)
  | ListenError (err : string).

Inductive Settlement :=
  | Resolved (port : Z)
  | Rejected (err : PortError)
  | Unsettled.

(** [server.listen(port)] throws a [RangeError] at once for a port
    outside 0..65535. *)
Definition validPort (port : Z) : bool := bool_decide (0 ≤ port ≤ 65535).

(** [tryPort(port)], with [remaining] the attempts left:
    [maxAttempts - attempt]. The first call runs in the executor of the
    promise, where an exception thrown rejects the promise; every later
    call runs in the [error] handler of the server tried before, where an
    exception thrown escapes and neither [resolve] nor [reject] is ever
    called. What listening on a port leads to is taken not to change
    during the search. *)
Fixpoint tryPort (listen : Z → ListenOutcome) (noPort : string)
    (inExecutor : bool) (remaining : nat) (port : Z) : Settlement :=
  match remaining with
  | O => Rejected (NoAvailablePort noPort)
  | S remaining =>
      if validPort port then
        match listen port with
        | Listening => Resolved port
        | AddrInUse => tryPort listen noPort false remaining (port + 1)
        | OtherError err => Rejected (ListenError err)
        end
      else if inExecutor then Rejected (BadPort port)
      else Unsettled
  end.

Definition noPortMessage (startPort maxAttempts : Z) : string :=
  "No available port found (tried " +:+ Js.ofZ startPort +:+ "-"
  +:+ Js.ofZ (startPort + maxAttempts - 1) +:+ ")".

(** [findAvailablePort(startPort, maxAttempts = 20)], for integers. *)
Definition findAvailablePort (listen : Z → ListenOutcome)
    (startPort : Z) (maxAttempts : option Z) : Settlement :=
  let maxAttempts := default 20 maxAttempts in
  tryPort listen (noPortMessage startPort maxAttempts) true
          (Z.to_nat maxAttempts) startPort.

End Ports.

(** * Properties *)

(** ** Strings and path normalization *)

Module JsFacts.

Lemma split_nonempty s : Js.split s ≠ [].
Proof.
  destruct s as [|c s]; simpl; [done|].
  case_bool_decide; [done|]. by destruct (Js.split s).
Qed.

Lemma split_app_slash s : Js.split (s +:+ "/") = Js.split s ++ [""].
Proof.
  induction s as [|c s IH]; simpl; [done|].
  case_bool_decide; [by rewrite IH|].
  rewrite IH. pose proof (split_nonempty s) as Hne.
  by destruct (Js.split s).
Qed.

Lemma dropLast_app_slash s : Js.dropLast (s +:+ "/") = s.
Proof.
  induction s as [|c s IH]; simpl; [done|].
  rewrite IH. by destruct s.
Qed.

Lemma endsWithSlash_app_slash s : Js.endsWithSlash (s +:+ "/") = true.
Proof.
  induction s as [|c s IH]; simpl; [done|].
  rewrite IH. by destruct s.
Qed.

Lemma endsWithSlash_inv v :
  Js.endsWithSlash v = true → v = Js.dropLast v +:+ "/".
Proof.
  induction v as [|c v IH]; [done|].
  destruct v as [|c' v'].
  - simpl. case_bool_decide; [by subst|done].
  - intros H. specialize (IH H).
    change (String c (String c' v') =
            String c (Js.dropLast (String c' v') +:+ "/")).
    by f_equal.
Qed.


(** Assignment to a property of the parameter object. *)
Lemma assign_ne key value (obj : gmap string string) :
  key ≠ "__proto__" → Js.assign key value obj = <[key := value]> obj.
Proof. intros H. unfold Js.assign. by rewrite bool_decide_eq_false_2. Qed.

Lemma assign_proto value (obj : gmap string string) :
  obj !! "__proto__" = None → Js.assign "__proto__" value obj = obj.
Proof. intros H. unfold Js.assign. by rewrite !bool_decide_eq_true_2. Qed.

Lemma assign_cases key value (obj : gmap string string) :
  (Js.assign key value obj = obj ∧ key = "__proto__" ∧ obj !! key = None)
  ∨ Js.assign key value obj = <[key := value]> obj.
Proof.
  unfold Js.assign. do 2 case_bool_decide; simpl; auto.
Qed.

Lemma lookup_assign_proto key value (obj : gmap string string) :
  obj !! "__proto__" = None → Js.assign key value obj !! "__proto__" = None.
Proof.
  intros H. destruct (assign_cases key value obj) as [(-> & _)|Heq]; [done|].
  destruct (decide (key = "__proto__")) as [->|Hne].
  - by rewrite assign_proto.
  - by rewrite assign_ne, lookup_insert_ne.
Qed.

Lemma lookup_assign_eq key value (obj : gmap string string) :
  key ≠ "__proto__" → Js.assign key value obj !! key = Some value.
Proof. intros H. by rewrite assign_ne, lookup_insert_eq. Qed.

Lemma lookup_assign_ne key key' value (obj : gmap string string) :
  key ≠ key' → Js.assign key value obj !! key' = obj !! key'.
Proof.
  intros H. destruct (assign_cases key value obj) as [(-> & _)| ->]; [done|].
  by rewrite lookup_insert_ne.
Qed.

Lemma lookup_assign_Some key value (obj : gmap string string) k v :
  Js.assign key value obj !! k = Some v →
  (key = k ∧ value = v) ∨ obj !! k = Some v.
Proof.
  destruct (assign_cases key value obj) as [(-> & _)| ->]; [by right|].
  intros [[??]|[??]]%lookup_insert_Some; auto.
Qed.

Lemma delete_assign_subseteq key value (obj : gmap string string) :
  delete key (Js.assign key value obj) ⊆ obj.
Proof.
  destruct (assign_cases key value obj) as [(-> & _)| ->].
  - apply delete_subseteq.
  - rewrite delete_insert_eq. apply delete_subseteq.
Qed.

End JsFacts.

Module MatcherFacts.
Import Matcher Shape JsFacts.

Lemma segmentsOf_app_slash s : segmentsOf (s +:+ "/") = segmentsOf s.
Proof.
  unfold segmentsOf. rewrite split_app_slash, filter_app.
  rewrite filter_cons_False by (simpl; tauto).
  by rewrite filter_nil, app_nil_r.
Qed.

(** Stripping the trailing slash changes nothing once the empty pieces
    are filtered out. *)
Lemma splitSegments_segmentsOf value : splitSegments value = segmentsOf value.
Proof.
  unfold splitSegments. case_bool_decide as Hroot; [by subst|].
  simpl. rewrite andb_true_r.
  destruct (Js.endsWithSlash value) eqn:Hends; [|done].
  rewrite (endsWithSlash_inv _ Hends) at 2.
  by rewrite segmentsOf_app_slash.
Qed.

Lemma splitSegments_app_slash P : splitSegments (P +:+ "/") = splitSegments P.
Proof. by rewrite !splitSegments_segmentsOf, segmentsOf_app_slash. Qed.

Lemma splitSegments_truthy value s : s ∈ splitSegments value → s ≠ "".
Proof.
  rewrite splitSegments_segmentsOf. unfold segmentsOf.
  rewrite list_elem_of_filter. intros [Ht _] ->. done.
Qed.

(** *** The trie as a table from branch sequences to entries *)

Lemma lookupShape_createTrieNode sh : lookupShape createTrieNode sh = None.
Proof. destruct sh as [|[s| |] [|k sh]]; done. Qed.

Lemma shape_cons segment rest :
  shape (segment :: rest) =
    if Js.startsWith "*" segment then [KCatchAll]
    else if Js.startsWith ":" segment then KDynamic :: shape rest
    else KStatic segment :: shape rest.
Proof.
  simpl. unfold kindOf.
  by destruct (Js.startsWith "*" segment), (Js.startsWith ":" segment).
Qed.

Local Ltac other_shape := first [done | by case_decide].

(** Inserting a pattern registers the entry under the pattern's branch
    sequence and leaves every other sequence alone. *)
Lemma lookupShape_insertSegments segments e node sh :
  lookupShape (insertSegments segments e node) sh =
    if decide (shape segments = sh) then Some (e, starName segments)
    else lookupShape node sh.
Proof.
  revert node sh. induction segments as [|segment rest IH]; intros node sh.
  - simpl. destruct sh as [|[s| |] sh]; other_shape.
  - rewrite shape_cons. simpl.
    destruct (Js.startsWith "*" segment) eqn:Hstar.
    { destruct sh as [|[s| |] [|k sh]]; other_shape. }
    destruct (Js.startsWith ":" segment) eqn:Hcolon.
    + destruct (dynamicChild node) as [[paramName child]|] eqn:Hdyn.
      * destruct sh as [|[s| |] sh]; simpl; rewrite ?Hdyn; try other_shape.
        rewrite IH. repeat case_decide; congruence.
      * destruct sh as [|[s| |] sh]; simpl; rewrite ?Hdyn; try other_shape.
        rewrite IH, lookupShape_createTrieNode. repeat case_decide; congruence.
    + destruct sh as [|[s| |] sh]; simpl; try other_shape.
      destruct (decide (segment = s)) as [->|Hne].
      * rewrite lookup_insert_eq, IH.
        destruct (staticChildren node !! s) as [child|];
          rewrite ?lookupShape_createTrieNode; repeat case_decide; congruence.
      * rewrite lookup_insert_ne by done. case_decide; congruence.
Qed.

(** The entries of a trie built by [buildMatcher] are the routes, each
    under the branch sequence of its own pattern, with the catch-all
    name of its own pattern. *)
Lemma lookupShape_foldl routes root sh e name :
  lookupShape (foldl insertRoute root routes) sh = Some (e, name) →
  (e ∈ routes ∧ patternShape e = sh ∧ name = starName (splitSegments (e_pattern e)))
  ∨ lookupShape root sh = Some (e, name).
Proof.
  revert root. induction routes as [|r routes IH]; intros root; simpl; [by right|].
  intros H. destruct (IH _ H) as [(Hin & Hsh & Hname)|Hroot].
  - left. split; [apply elem_of_cons; by right|done].
  - unfold insertRoute in Hroot. rewrite lookupShape_insertSegments in Hroot.
    case_decide as Hd; [|by right].
    left. simplify_eq. split; [apply elem_of_cons; by left|done].
Qed.

Lemma lookupShape_buildMatcher routes sh e name :
  lookupShape (buildMatcher routes) sh = Some (e, name) →
  e ∈ routes ∧ patternShape e = sh ∧ name = starName (splitSegments (e_pattern e)).
Proof.
  intros H. apply lookupShape_foldl in H as [H|H]; [done|].
  by rewrite lookupShape_createTrieNode in H.
Qed.

(** Every route's branch sequence is registered (by the route itself or
    by a later route with the same sequence). *)
Lemma lookupShape_foldl_registered routes root sh :
  (∃ e, e ∈ routes ∧ patternShape e = sh) ∨ is_Some (lookupShape root sh) →
  is_Some (lookupShape (foldl insertRoute root routes) sh).
Proof.
  revert root. induction routes as [|r routes IH]; intros root; simpl.
  - intros [(e & Hin & _)|H]; [by apply elem_of_nil in Hin|done].
  - intros H. apply IH.
    unfold insertRoute at 1. rewrite lookupShape_insertSegments.
    case_decide as Hd; [by right|].
    destruct H as [(e & Hin & Hsh)|H]; [|by right].
    apply elem_of_cons in Hin as [->|Hin]; [done|].
    left. by exists e.
Qed.

Lemma lookupShape_buildMatcher_registered routes e :
  e ∈ routes → is_Some (lookupShape (buildMatcher routes) (patternShape e)).
Proof. intros H. apply lookupShape_foldl_registered. left. by exists e. Qed.

(** *** What [matchSegments] returns *)

Lemma matchSegments_cons node segment rest params :
  matchSegments node (segment :: rest) params =
    let '(result1, params1) :=
      match staticChildren node !! segment with
      | Some staticChild => matchSegments staticChild rest params
      | None => (None, params)
      end in
    match result1 with
    | Some r => (Some r, params1)
    | None =>
        let '(result2, params2) :=
          match dynamicChild node with
          | Some (paramName, dynamicNode) =>
              match matchSegments dynamicNode rest (Js.assign paramName segment params1) with
              | (Some r, p) => (Some r, p)
              | (None, p) => (None, delete paramName p)
              end
          | None => (None, params1)
          end in
        match result2 with
        | Some r => (Some r, params2)
        | None =>
            match catchAllChild node with
            | Some (paramName, e) =>
                (Some e, Js.assign paramName (Js.join "/" (segment :: rest)) params2)
            | None => (None, params2)
            end
        end
    end.
Proof. done. Qed.

(** Case analysis along the three branches of [matchSegments]. *)
Local Ltac catch_branch node :=
  let cn := fresh "catchName" in let ce := fresh "catchEntry" in
  let Hc := fresh "Hcatch" in
  destruct (catchAllChild node) as [[cn ce]|] eqn:Hc; simpl.

Local Ltac dynamic_branch node segment rest ps :=
  let pn := fresh "paramName" in let dn := fresh "dynamicNode" in
  let Hd := fresh "Hdynamic" in
  let r2 := fresh "r2" in let p2 := fresh "p2" in let H2 := fresh "Hrun2" in
  destruct (dynamicChild node) as [[pn dn]|] eqn:Hd;
    [destruct (matchSegments dn rest (Js.assign pn segment ps)) as [[r2|] p2] eqn:H2;
       [simpl|catch_branch node]
    |catch_branch node].

Local Ltac match_branches node segment rest params :=
  rewrite matchSegments_cons;
  let sc := fresh "staticChild" in
  let Hs := fresh "Hstatic" in
  let r1 := fresh "r1" in let p1 := fresh "p1" in let H1 := fresh "Hrun1" in
  destruct (staticChildren node !! segment) as [sc|] eqn:Hs;
    [destruct (matchSegments sc rest params) as [[r1|] p1] eqn:H1;
       [simpl|dynamic_branch node segment rest p1]
    |dynamic_branch node segment rest params].

(** No result: no registered branch sequence covers the path. *)
Lemma matchSegments_None node segments params p :
  matchSegments node segments params = (None, p) →
  ∀ sh, shapeMatches sh segments = true → lookupShape node sh = None.
Proof.
  revert node params p.
  induction segments as [|segment rest IH]; intros node params p.
  - simpl. intros [= Hentry _] sh Hm.
    destruct sh as [|[s| |] [|k sh]]; try done. simpl. by rewrite Hentry.
  - match_branches node segment rest params; intros Hrun sh Hm; simplify_eq;
      destruct sh as [|[s| |] sh]; simpl in Hm |- *; try done;
      repeat match goal with
      | H : _ && _ = true |- _ => apply andb_true_iff in H as [? ?]
      | H : bool_decide _ = true |- _ => apply bool_decide_eq_true in H; subst
      end;
      rewrite ?Hstatic, ?Hdynamic, ?Hcatch; eauto;
      by destruct sh.
Qed.

Local Ltac split_match_hyps :=
  repeat match goal with
  | H : _ && _ = true |- _ => apply andb_true_iff in H as [? ?]
  | H : bool_decide _ = true |- _ => apply bool_decide_eq_true in H; subst
  end.

(** A branch that failed holds no competitor. *)
Local Ltac no_competitor :=
  match goal with
  | Hrun : matchSegments ?n ?rest _ = (None, _),
    Hm : shapeMatches ?sh ?rest = true,
    Hl : lookupShape ?n ?sh = Some _ |- _ =>
      rewrite (matchSegments_None _ _ _ _ Hrun _ Hm) in Hl; discriminate
  end.

(** A result: the entry is registered under a branch sequence that
    covers the path and outranks every other registered sequence that
    covers it; and when that sequence ends in the catch-all, the
    catch-all parameter is bound to the joined remainder. *)
Lemma matchSegments_Some node segments params e p :
  matchSegments node segments params = (Some e, p) →
  ∃ sh name,
    lookupShape node sh = Some (e, name)
    ∧ shapeMatches sh segments = true
    ∧ (∀ sh' x, lookupShape node sh' = Some x → shapeMatches sh' segments = true →
                outranks sh sh' = true)
    ∧ (∀ n, name = Some n → n ≠ "__proto__" →
            p !! n = Some (Js.join "/" (drop (pred (length sh)) segments))).
Proof.
  revert node params e p.
  induction segments as [|segment rest IH]; intros node params e p.
  - simpl. intros [= Hentry <-]. exists [], None. simpl. rewrite Hentry.
    split_and!; done.
  - match_branches node segment rest params; intros Hrun; simplify_eq;
      try match goal with
          | H : matchSegments _ rest _ = (Some _, _) |- _ =>
              destruct (IH _ _ _ _ H) as (sh0 & name & Hl & Hm & Hmin & Hpar)
          end;
      match goal with
      | H : staticChildren node !! segment = Some ?c,
        H' : matchSegments ?c rest _ = (Some _, _) |- _ =>
          exists (KStatic segment :: sh0), name
      | H : dynamicChild node = Some (_, ?c),
        H' : matchSegments ?c rest _ = (Some _, _) |- _ =>
          exists (KDynamic :: sh0), name
      | H : catchAllChild node = Some (?n, _) |- _ =>
          exists [KCatchAll], (Some n)
      end;
      simpl; rewrite ?Hstatic, ?Hdynamic, ?Hcatch, ?bool_decide_eq_true_2 by done;
      split_and!; try done;
      try (intros [|[s| |] sh'] x Hl' Hm'; simpl in Hl', Hm' |- *; try done;
           split_match_hyps;
           rewrite ?Hstatic, ?Hdynamic, ?Hcatch in Hl'; try done;
           try no_competitor; eauto; by destruct sh');
      try (intros n ->; destruct sh0 as [|k0 sh0']; [simpl in Hl; by destruct (entry _)|];
           simpl; by apply Hpar);
      try (intros n [= <-] Hn; simpl; by rewrite lookup_assign_eq).
Qed.

(** A walk that fails leaves no binding behind. *)
Lemma matchSegments_None_params node segments params p :
  matchSegments node segments params = (None, p) → p ⊆ params.
Proof.
  revert node params p.
  induction segments as [|segment rest IH]; intros node params p.
  - simpl. by intros [= _ <-].
  - match_branches node segment rest params; intros Hrun; simplify_eq;
      repeat match goal with
      | H : matchSegments _ rest _ = (None, _) |- _ => apply IH in H
      end;
      try done.
    + etrans; [|done]. etrans; [by apply delete_mono|].
      apply delete_assign_subseteq.
    + etrans; [by apply delete_mono|].
      apply delete_assign_subseteq.
Qed.

(** The name [__proto__] is never bound. *)
Lemma matchSegments_proto node segments params result p :
  matchSegments node segments params = (result, p) →
  params !! "__proto__" = None → p !! "__proto__" = None.
Proof.
  revert node params result p.
  induction segments as [|segment rest IH]; intros node params result p.
  - simpl. by intros [= _ <-].
  - match_branches node segment rest params; intros Hrun Hp; simplify_eq;
      repeat match goal with
      | H : matchSegments _ rest params = _ |- _ => apply IH in H; [|done]
      end;
      repeat match goal with
      | H : matchSegments _ rest (Js.assign _ _ ?q) = _ |- _ =>
          apply IH in H; [|by apply lookup_assign_proto]
      end;
      try done;
      repeat first
        [ apply lookup_assign_proto
        | apply lookup_delete_None; right ];
      done.
Qed.

(** *** From branch sequences back to patterns *)

Lemma starFree_cons s l : starFree (s :: l) ↔ Js.startsWith "*" s = false ∧ starFree l.
Proof.
  unfold starFree. split.
  - intros H. split; [apply H; by left|]. intros x Hx. apply H. by right.
  - intros [H1 H2] x [->|Hx]%elem_of_cons; auto.
Qed.

Lemma shapeMatches_starFree patternSegments segments :
  starFree patternSegments →
  shapeMatches (shape patternSegments) segments = true →
  Forall2 segmentAccepts patternSegments segments.
Proof.
  revert segments.
  induction patternSegments as [|ps rest IH]; intros segments Hfree Hm.
  - destruct segments; [constructor|done].
  - apply starFree_cons in Hfree as [Hstar Hfree].
    rewrite shape_cons, Hstar in Hm.
    destruct (Js.startsWith ":" ps) eqn:Hcolon;
      destruct segments as [|x segments]; simpl in Hm; try done;
      split_match_hyps; constructor; unfold segmentAccepts; auto.
Qed.



(** The outcome of [match] in terms of the routes. *)
Lemma match_Some routes pathname r :
  buildMatcher_match routes pathname = Some r →
  mr_entry r ∈ routes
  ∧ shapeMatches (patternShape (mr_entry r)) (splitSegments pathname) = true
  ∧ (∀ e', e' ∈ routes →
           shapeMatches (patternShape e') (splitSegments pathname) = true →
           outranks (patternShape (mr_entry r)) (patternShape e') = true)
  ∧ (∀ n, starName (splitSegments (e_pattern (mr_entry r))) = Some n →
          n ≠ "__proto__" →
          mr_params r !! n =
            Some (Js.join "/" (drop (pred (length (patternShape (mr_entry r))))
                                    (splitSegments pathname))))
  ∧ mr_params r !! "__proto__" = None.
Proof.
  unfold buildMatcher_match, match_.
  destruct (matchSegments _ _ _) as [[e|] p] eqn:Hrun; [|done].
  intros [= <-]. simpl.
  pose proof (matchSegments_proto _ _ _ _ _ Hrun (lookup_empty _)) as Hproto.
  apply matchSegments_Some in Hrun as (sh & name & Hl & Hm & Hmin & Hpar).
  pose proof (lookupShape_buildMatcher _ _ _ _ Hl) as (Hin & <- & ->).
  split_and!; try done.
  intros e' Hin' Hm'.
  destruct (lookupShape_buildMatcher_registered _ _ Hin') as [x Hx].
  by eapply Hmin.
Qed.

Lemma match_None routes pathname :
  buildMatcher_match routes pathname = None →
  ∀ e', e' ∈ routes → shapeMatches (patternShape e') (splitSegments pathname) = false.
Proof.
  unfold buildMatcher_match, match_.
  destruct (matchSegments _ _ _) as [[e|] p] eqn:Hrun; [done|].
  intros _ e' Hin.
  destruct (shapeMatches _ _) eqn:Hm; [|done].
  destruct (lookupShape_buildMatcher_registered _ _ Hin) as [x Hx].
  by rewrite (matchSegments_None _ _ _ _ Hrun _ Hm) in Hx.
Qed.

(** *** Literal patterns *)

Lemma allLiteral_cons s l :
  allLiteral (s :: l) ↔
  (Js.startsWith "*" s = false ∧ Js.startsWith ":" s = false) ∧ allLiteral l.
Proof.
  unfold allLiteral. split.
  - intros H. split; [apply H; by left|]. intros x Hx. apply H. by right.
  - intros [H1 H2] x [->|Hx]%elem_of_cons; auto.
Qed.

Lemma shape_allLiteral segments :
  allLiteral segments → shape segments = KStatic <$> segments.
Proof.
  induction segments as [|s rest IH]; [done|].
  intros [[Hstar Hcolon] Hrest]%allLiteral_cons.
  by rewrite shape_cons, Hstar, Hcolon, IH.
Qed.

Lemma shape_literal_inv patternSegments segments :
  shape patternSegments = KStatic <$> segments → patternSegments = segments.
Proof.
  revert segments. induction patternSegments as [|p rest IH]; intros [|x segments];
    try done.
  - rewrite shape_cons.
    by destruct (Js.startsWith "*" p), (Js.startsWith ":" p).
  - rewrite shape_cons, fmap_cons.
    destruct (Js.startsWith "*" p); [done|].
    destruct (Js.startsWith ":" p); [done|].
    intros [= -> Hrest]. f_equal. by apply IH.
Qed.

Lemma shapeMatches_literal_self segments :
  shapeMatches (KStatic <$> segments) segments = true.
Proof.
  induction segments as [|x segments IH]; [done|].
  rewrite fmap_cons. cbn [shapeMatches]. by rewrite bool_decide_eq_true_2, IH.
Qed.

(** Nothing but the literal sequence of a path both covers the path and
    outranks that literal sequence. *)
Lemma outranks_literal sh segments :
  shapeMatches sh segments = true →
  outranks sh (KStatic <$> segments) = true →
  sh = KStatic <$> segments.
Proof.
  revert segments. induction sh as [|k sh IH]; intros [|x segments] Hm Hr;
    simpl in *; try done.
  apply andb_true_iff in Hr as [Hk Hr].
  destruct k as [s| |]; simpl in Hk; try done.
  apply andb_true_iff in Hm as [->%bool_decide_eq_true Hm].
  f_equal. by apply IH.
Qed.

(** *** Priority, segment count, trailing slash, catch-all *)

(** C1. At every node the static child is tried first, then the dynamic
    child, then the catch-all; when the walk below the dynamic child
    reaches no entry its binding is deleted before the catch-all is
    consulted, and a walk that fails as a whole leaves no binding
    behind. Consequently the route returned for a path covers that path
    and outranks every other route that covers it (literal before
    parameter before catch-all, compared from the first segment on),
    the matcher returns nothing only when no route covers the path, and
    a path that is itself a registered all-literal pattern is answered
    by a route with that very pattern, never by a parameter or catch-all
    route. *)
Theorem match_priority :
  (∀ node segment rest params e p,
      staticAttempt node segment rest params = (Some e, p) →
      matchSegments node (segment :: rest) params = (Some e, p))
  ∧ (∀ node segment rest params p1 name dynamicNode e p,
      staticAttempt node segment rest params = (None, p1) →
      dynamicChild node = Some (name, dynamicNode) →
      matchSegments dynamicNode rest (Js.assign name segment p1) = (Some e, p) →
      matchSegments node (segment :: rest) params = (Some e, p))
  ∧ (∀ node segment rest params p1 name dynamicNode p2,
      staticAttempt node segment rest params = (None, p1) →
      dynamicChild node = Some (name, dynamicNode) →
      matchSegments dynamicNode rest (Js.assign name segment p1) = (None, p2) →
      matchSegments node (segment :: rest) params =
        match catchAllChild node with
        | Some (catchName, e) =>
            (Some e, Js.assign catchName (Js.join "/" (segment :: rest)) (delete name p2))
        | None => (None, delete name p2)
        end)
  ∧ (∀ node segment rest params p1,
      staticAttempt node segment rest params = (None, p1) →
      dynamicChild node = None →
      matchSegments node (segment :: rest) params =
        match catchAllChild node with
        | Some (catchName, e) =>
            (Some e, Js.assign catchName (Js.join "/" (segment :: rest)) p1)
        | None => (None, p1)
        end)
  ∧ (∀ node segments params p,
      matchSegments node segments params = (None, p) → p ⊆ params)
  ∧ (∀ routes pathname r,
      buildMatcher_match routes pathname = Some r →
      mr_entry r ∈ routes
      ∧ shapeMatches (patternShape (mr_entry r)) (splitSegments pathname) = true
      ∧ ∀ e', e' ∈ routes →
              shapeMatches (patternShape e') (splitSegments pathname) = true →
              outranks (patternShape (mr_entry r)) (patternShape e') = true)
  ∧ (∀ routes pathname,
      buildMatcher_match routes pathname = None →
      ∀ e', e' ∈ routes →
            shapeMatches (patternShape e') (splitSegments pathname) = false)
  ∧ (∀ routes pathname e,
      e ∈ routes → allLiteral (splitSegments (e_pattern e)) →
      splitSegments pathname = splitSegments (e_pattern e) →
      ∃ r, buildMatcher_match routes pathname = Some r
           ∧ splitSegments (e_pattern (mr_entry r)) = splitSegments (e_pattern e)).
Proof.
  split_and!.
  - intros node segment rest params e p Hs.
    rewrite matchSegments_cons. unfold staticAttempt in Hs. by rewrite Hs.
  - intros node segment rest params p1 name dynamicNode e p Hs Hd Hrun.
    rewrite matchSegments_cons. unfold staticAttempt in Hs.
    by rewrite Hs, Hd, Hrun.
  - intros node segment rest params p1 name dynamicNode p2 Hs Hd Hrun.
    rewrite matchSegments_cons. unfold staticAttempt in Hs.
    rewrite Hs, Hd, Hrun. by destruct (catchAllChild node) as [[??]|].
  - intros node segment rest params p1 Hs Hd.
    rewrite matchSegments_cons. unfold staticAttempt in Hs.
    rewrite Hs, Hd. by destruct (catchAllChild node) as [[??]|].
  - apply matchSegments_None_params.
  - intros routes pathname r Hr.
    destruct (match_Some _ _ _ Hr) as (? & ? & ? & _). done.
  - apply match_None.
  - intros routes pathname e Hin Hlit Hpath.
    assert (shapeMatches (patternShape e) (splitSegments pathname) = true) as Hcovers.
    { unfold patternShape. rewrite shape_allLiteral, Hpath by done.
      apply shapeMatches_literal_self. }
    destruct (buildMatcher_match routes pathname) as [r|] eqn:Hr.
    + exists r. split; [done|].
      destruct (match_Some _ _ _ Hr) as (_ & Hm & Hmin & _).
      specialize (Hmin e Hin Hcovers).
      unfold patternShape in Hmin at 2. rewrite shape_allLiteral in Hmin by done.
      rewrite <- Hpath in Hmin. apply outranks_literal in Hmin; [|done].
      rewrite <- Hpath. by apply shape_literal_inv.
    + by rewrite (match_None _ _ Hr e Hin) in Hcovers.
Qed.

Lemma match_priority_witness :
  buildMatcher_match Demo.docsRoutes "/docs/intro"
    = Some (mkMatchResult (Demo.page "/docs/:id") {[ "id" := "intro" ]})
  ∧ outranks (patternShape (Demo.page "/docs/:id"))
             (patternShape (Demo.page "/docs/*path")) = true.
Proof.
  assert (buildMatcher_match Demo.docsRoutes "/docs/intro"
          = Some (mkMatchResult (Demo.page "/docs/:id") {[ "id" := "intro" ]})) as Hrun
    by (vm_compute; reflexivity).
  split; [exact Hrun|].
  destruct match_priority as (_ & _ & _ & _ & _ & Hroute & _).
  destruct (Hroute _ _ _ Hrun) as (_ & _ & Hmin).
  apply (Hmin (Demo.page "/docs/*path")).
  - vm_compute. do 2 right. left.
  - vm_compute; reflexivity.
Defined.

(** C2. A node's own entry is what the walk returns when no segment is
    left, and it plays no part while a segment is left. Hence a route
    without a catch-all segment is returned only for a path with exactly
    as many segments as its pattern, each accepted by the pattern
    segment at its position; a path of any other length can only be
    taken by a route whose pattern has a catch-all segment. *)
Theorem match_exact_segment_count :
  (∀ node params, matchSegments node [] params = (entry node, params))
  ∧ (∀ statics dynamic catchAll entry1 entry2 segment rest params,
      matchSegments (mkTrieNode statics dynamic catchAll entry1) (segment :: rest) params
      = matchSegments (mkTrieNode statics dynamic catchAll entry2) (segment :: rest) params)
  ∧ (∀ routes pathname r,
      buildMatcher_match routes pathname = Some r →
      starFree (splitSegments (e_pattern (mr_entry r))) →
      Forall2 segmentAccepts (splitSegments (e_pattern (mr_entry r)))
                             (splitSegments pathname)
      ∧ length (splitSegments pathname)
        = length (splitSegments (e_pattern (mr_entry r))))
  ∧ (∀ routes pathname r,
      buildMatcher_match routes pathname = Some r →
      length (splitSegments pathname)
        ≠ length (splitSegments (e_pattern (mr_entry r))) →
      ¬ starFree (splitSegments (e_pattern (mr_entry r)))).
Proof.
  assert (∀ routes pathname r,
      buildMatcher_match routes pathname = Some r →
      starFree (splitSegments (e_pattern (mr_entry r))) →
      Forall2 segmentAccepts (splitSegments (e_pattern (mr_entry r)))
                             (splitSegments pathname)) as Hexact.
  { intros routes pathname r Hr Hfree.
    destruct (match_Some _ _ _ Hr) as (_ & Hm & _).
    by apply shapeMatches_starFree. }
  split_and!.
  - done.
  - done.
  - intros routes pathname r Hr Hfree.
    pose proof (Hexact _ _ _ Hr Hfree) as Hall.
    split; [done|]. symmetry. by eapply Forall2_length.
  - intros routes pathname r Hr Hlen Hfree.
    apply Hlen. symmetry. eapply Forall2_length. by eapply Hexact.
Qed.

Lemma match_exact_segment_count_witness :
  length (splitSegments "/docs/intro") = length (splitSegments "/docs/:id").
Proof.
  destruct match_exact_segment_count as (_ & _ & Hexact & _).
  refine (proj2 (Hexact Demo.docsRoutes "/docs/intro"
                   (mkMatchResult (Demo.page "/docs/:id") {[ "id" := "intro" ]}) _ _)).
  - vm_compute; reflexivity.
  - intros s Hs. vm_compute in Hs.
    repeat (apply elem_of_cons in Hs as [->|Hs]; [reflexivity|]).
    by apply elem_of_nil in Hs.
Defined.

(** C3. The segments of a path are the non-empty pieces between its
    slashes, the bare root has none, and one trailing slash makes no
    difference: for every path P, and so for every registered static
    pattern, matching P with a slash appended gives the result of
    matching P, the same route id included. *)
Theorem match_trailing_slash :
  splitSegments "/" = []
  ∧ (∀ value, splitSegments value = segmentsOf value)
  ∧ (∀ value s, s ∈ splitSegments value → s ≠ "")
  ∧ (∀ P, splitSegments (P +:+ "/") = splitSegments P)
  ∧ (∀ routes P,
      buildMatcher_match routes (P +:+ "/") = buildMatcher_match routes P)
  ∧ (∀ routes P,
      (e_id ∘ mr_entry) <$> buildMatcher_match routes (P +:+ "/")
      = (e_id ∘ mr_entry) <$> buildMatcher_match routes P).
Proof.
  assert (∀ routes P,
    buildMatcher_match routes (P +:+ "/") = buildMatcher_match routes P) as Hsame.
  { intros routes P. unfold buildMatcher_match, match_.
    by rewrite splitSegments_app_slash. }
  split_and!.
  - done.
  - apply splitSegments_segmentsOf.
  - apply splitSegments_truthy.
  - apply splitSegments_app_slash.
  - done.
  - intros routes P. by rewrite Hsame.
Qed.

Lemma match_trailing_slash_witness :
  "docs" ≠ ""
  ∧ (e_id ∘ mr_entry) <$> buildMatcher_match Demo.docsRoutes "/docs/"
    = (e_id ∘ mr_entry) <$> buildMatcher_match Demo.docsRoutes "/docs".
Proof.
  destruct match_trailing_slash as (_ & _ & Htruthy & _ & _ & Hid).
  split.
  - apply (Htruthy "/docs/intro"). vm_compute. left.
  - apply (Hid Demo.docsRoutes "/docs").
Defined.





End MatcherFacts.

(** ** Cache-Control *)

Module CacheFacts.

(** C4, as the specification words it, fails on a cache config that is
    present but has none of the three fields: the code answers
    [no-cache] where the wording gives [public]. *)
Lemma cacheControl_empty_config_counterexample :
  buildCacheControlHeader (Some (mkCacheConfig None None None)) = "no-cache"
  ∧ specCacheControlHeader (Some (mkCacheConfig None None None)) = "public"
  ∧ buildCacheControlHeader (Some (mkCacheConfig None None None))
    ≠ specCacheControlHeader (Some (mkCacheConfig None None None)).
Proof. split_and!; [reflexivity|reflexivity|]. vm_compute. discriminate. Qed.

(** C4, amended. The header is [public] followed by the directives of
    the fields present, in the order max-age, s-maxage,
    stale-while-revalidate, joined by a comma and a space, when at least
    one field is present; it is [no-cache] when there is no cache config
    or when the config has none of the three fields. *)
Theorem cacheControl_header :
  (∀ cache,
      buildCacheControlHeader cache =
        match cache with
        | None => "no-cache"
        | Some c =>
            match directives c with
            | [] => "no-cache"
            | ds => Js.join ", " ("public" :: ds)
            end
        end)
  ∧ (∀ a b c,
      directives (mkCacheConfig a b c) =
        option_list ((λ n, "max-age=" +:+ Js.ofZ n) <$> a)
        ++ option_list ((λ n, "s-maxage=" +:+ Js.ofZ n) <$> b)
        ++ option_list ((λ n, "stale-while-revalidate=" +:+ Js.ofZ n) <$> c))
  ∧ buildCacheControlHeader
      (Some (mkCacheConfig (Some 3600%Z) (Some 7200%Z) (Some 300%Z)))
    = "public, max-age=3600, s-maxage=7200, stale-while-revalidate=300"
  ∧ buildCacheControlHeader None = "no-cache".
Proof.
  split_and!.
  - intros [[[a|] [b|] [c|]]|]; reflexivity.
  - intros [a|] [b|] [c|]; reflexivity.
  - vm_compute; reflexivity.
  - reflexivity.
Qed.

End CacheFacts.

(** ** The build report *)

Module ReportFacts.
Import Build.

(** C9. Zero bytes print as a dash; a count below 1024 prints as the
    count itself followed by B; from 1024 on the size prints as
    kilobytes with one decimal, the printed tenths being the nearest
    to bytes / 1024 (the upper one on a tie), followed by KB. *)
Theorem formatSize_spec :
  formatSize 0 = "-"
  ∧ (∀ bytes, (0 < bytes < 1024)%N → formatSize bytes = Js.ofN bytes +:+ " B")
  ∧ (∀ bytes, (1024 ≤ bytes)%N →
      ∃ tenths,
        formatSize bytes
          = (Js.ofN (tenths / 10) +:+ "." +:+ Js.ofN (tenths mod 10)) +:+ " KB"
        ∧ (10 * bytes < 1024 * tenths + 512)%N
        ∧ (1024 * tenths ≤ 10 * bytes + 512)%N
        ∧ (tenths mod 10 < 10)%N).
Proof.
  split_and!.
  - reflexivity.
  - intros bytes [Hpos Hlt]. unfold formatSize.
    destruct (N.eqb_spec bytes 0) as [->|_]; [lia|].
    destruct (N.ltb_spec bytes 1024) as [_|Hge]; [done|lia].
  - intros bytes Hge. exists ((10 * bytes + 512) / 1024)%N.
    unfold formatSize, kbToFixed1.
    destruct (N.eqb_spec bytes 0) as [->|_]; [lia|].
    destruct (N.ltb_spec bytes 1024) as [Hlt|_]; [lia|].
    split; [done|].
    pose proof (N.Div0.mul_div_le (10 * bytes + 512) 1024) as Hle.
    pose proof (N.mul_succ_div_gt (10 * bytes + 512) 1024 ltac:(lia)) as Hgt.
    split_and!; [lia|lia|]. apply N.mod_lt. lia.
Qed.

Lemma formatSize_spec_witness :
  formatSize 512 = "512 B" ∧ formatSize 1280 = "1.3 KB".
Proof.
  destruct formatSize_spec as (_ & Hsmall & Hlarge).
  split.
  - rewrite (Hsmall 512%N) by lia. vm_compute; reflexivity.
  - destruct (Hlarge 1280%N ltac:(lia)) as (tenths & Heq & Hlo & Hhi & _).
    assert (tenths = 13%N) as -> by lia.
    rewrite Heq. vm_compute; reflexivity.
Defined.

End ReportFacts.

(** ** API routes: the methods the build records and the dispatch on them *)

Module ApiFacts.
Import ApiRoute Build.

Lemma includes_elem_of x l : Js.includes x l = true ↔ x ∈ l.
Proof. unfold Js.includes. apply bool_decide_eq_true. Qed.

Lemma elem_of_recognizedMethods exports x :
  x ∈ recognizedMethods exports ↔ x ∈ exports ∧ x ∈ HTTP_METHODS.
Proof.
  unfold recognizedMethods.
  rewrite (list_elem_of_In (List.filter _ _) x), filter_In, includes_elem_of.
  by rewrite <- list_elem_of_In.
Qed.

(** An API output never makes the detection fail, and what it records for
    a route not seen before is the list of its recognized exports, nothing
    being recorded when that list is empty. *)
Lemma detectOutput_api env serm d o entryPoint routeId :
  so_entryPoint o = Some entryPoint → Js.truthy entryPoint = true →
  serm !! entryPoint = Some (routeId, Api) →
  ∃ d', detectOutput env serm d o = Ok d'
        ∧ (recognizedMethods (so_exports o) = [] → d' = d)
        ∧ (apiMethodsMap d !! routeId = None →
           default [] (apiMethodsMap d' !! routeId) = recognizedMethods (so_exports o)).
Proof.
  intros Hep Htruthy Hroute. unfold detectOutput. rewrite Hep, Htruthy, Hroute. simpl.
  destruct (recognizedMethods (so_exports o)) as [|x methods] eqn:Hm; simpl.
  - exists d. split_and!; [done|done|]. by intros ->.
  - eexists. split_and!; [done|done|]. intros _. simpl. by rewrite lookup_insert_eq.
Qed.

Lemma handleApiRouteInner_405 importModule reqMethod ctx entry :
  requestMethod reqMethod ∉ default [] (e_methods entry) →
  handleApiRouteInner importModule reqMethod ctx entry
  = Ok (methodNotAllowed (requestMethod reqMethod) (default [] (e_methods entry))).
Proof.
  intros Hnot. unfold handleApiRouteInner.
  destruct (Js.includes _ _) eqn:Hinc; [|done].
  by apply includes_elem_of in Hinc.
Qed.

(** Every API route of the router is listed in the assembled manifest,
    under its id, with the methods recorded for that id. *)
Lemma assembleRoutes_api pageRoutes apiRoutes clientOutputMap serverOutputMap d route :
  route ∈ apiRoutes →
  ∃ entry,
    assembleRoutes pageRoutes apiRoutes clientOutputMap serverOutputMap d !! r_id route
      = Some entry
    ∧ e_id entry = r_id route
    ∧ e_type entry = Api
    ∧ e_methods entry = apiMethodsMap d !! r_id route.
Proof.
  unfold assembleRoutes.
  match goal with
  | |- context [foldl _ (foldl ?f ?init pageRoutes) _] =>
      generalize (foldl f init pageRoutes)
  end.
  induction apiRoutes as [|r apiRoutes IH] using rev_ind; intros routes0 Hin.
  - by apply elem_of_nil in Hin.
  - rewrite foldl_app. simpl.
    destruct (decide (r_id r = r_id route)) as [Heq|Hne].
    + rewrite Heq, lookup_insert_eq. eexists. split; [done|]. simpl. by rewrite Heq.
    + rewrite lookup_insert_ne by done. apply IH.
      apply elem_of_app in Hin as [Hin|Hin]; [done|].
      apply elem_of_cons in Hin as [->|Hin]; [done|by apply elem_of_nil in Hin].
Qed.

(** C6, as the specification words it, fails: on the sample site whose
    API module exports no recognized method the build succeeds and lists
    the route, and a GET request to it is answered 405, not 500. *)
Lemma api_route_without_methods_counterexample :
  ∃ out entry response,
    Demo.buildSite Demo.aboutModule Demo.helperOnlyModule = Ok out
    ∧ routes (manifestFile out) !! "/api/items" = Some entry
    ∧ handleApiRouteInner (Demo.importItems Demo.helperOnlyModule) (Some "GET")
        Demo.itemsRequest entry = Ok response
    ∧ status response = 405
    ∧ status response ≠ 500.
Proof.
  destruct (Demo.buildSite Demo.aboutModule Demo.helperOnlyModule) as [out|] eqn:Hbuild;
    [|vm_compute in Hbuild; discriminate].
  destruct (routes (manifestFile out) !! "/api/items") as [entry|] eqn:Hentry;
    [|vm_compute in Hbuild; injection Hbuild as <-; vm_compute in Hentry; discriminate].
  exists out, entry. eexists. split_and!; [done|done| | |].
  - vm_compute in Hbuild. injection Hbuild as <-.
    vm_compute in Hentry. injection Hentry as <-. vm_compute. reflexivity.
  - reflexivity.
  - discriminate.
Qed.

(** C6, amended. An API module without a recognized method export does
    not make the export detection fail and adds nothing to the recorded
    methods; the route is still listed in the assembled manifest, with no
    methods; and every request to it is answered 405 with an empty Allow
    header. *)
Theorem api_route_without_methods :
  (∀ env serm d o entryPoint routeId,
      so_entryPoint o = Some entryPoint → Js.truthy entryPoint = true →
      serm !! entryPoint = Some (routeId, Api) →
      recognizedMethods (so_exports o) = [] →
      detectOutput env serm d o = Ok d)
  ∧ (∀ pageRoutes apiRoutes clientOutputMap serverOutputMap d adapterName base route,
      route ∈ apiRoutes →
      apiMethodsMap d !! r_id route = None →
      ∃ entry,
        routes (assembleManifest adapterName base pageRoutes apiRoutes
                                 clientOutputMap serverOutputMap d) !! r_id route
          = Some entry
        ∧ e_type entry = Api
        ∧ e_methods entry = None
        ∧ ∀ importModule reqMethod ctx,
            ∃ response,
              handleApiRouteInner importModule reqMethod ctx entry = Ok response
              ∧ status response = 405
              ∧ headers response
                = [("Content-Type", "application/json"); ("Allow", "")]).
Proof.
  split.
  - intros env serm d o entryPoint routeId Hep Ht Hroute Hnone.
    destruct (detectOutput_api env serm d o _ _ Hep Ht Hroute) as (d' & Hd & Hsame & _).
    by rewrite Hd, (Hsame Hnone).
  - intros pageRoutes apiRoutes clientOutputMap serverOutputMap d adapterName base route
      Hin Hnone.
    destruct (assembleRoutes_api pageRoutes apiRoutes clientOutputMap serverOutputMap d
                route Hin) as (entry & Hentry & _ & Htype & Hmethods).
    exists entry. rewrite Hnone in Hmethods. split_and!; try done.
    intros importModule reqMethod ctx. eexists.
    split; [apply handleApiRouteInner_405; rewrite Hmethods; apply not_elem_of_nil|].
    by rewrite Hmethods.
Qed.

Lemma api_route_without_methods_witness :
  detectOutput (Demo.env Demo.aboutModule) Demo.serverEntryRouteMap noneDetected
               (Demo.itemsOutput Demo.helperOnlyModule) = Ok noneDetected.
Proof.
  apply (proj1 api_route_without_methods (Demo.env Demo.aboutModule)
           Demo.serverEntryRouteMap noneDetected (Demo.itemsOutput Demo.helperOnlyModule)
           "/app/src/routes/api/items/route.ts" "/api/items");
    vm_compute; reflexivity.
Defined.

End ApiFacts.

(** ** The prerender pass *)

Module PrerenderFacts.
Import Build.

Lemma mapSet_keys {V} k (v : V) m :
  (mapSet k v m).*1 = if decide (k ∈ m.*1) then m.*1 else m.*1 ++ [k].
Proof.
  induction m as [|[k' v'] m IH].
  - done.
  - cbn [mapSet]. destruct (decide (k' = k)) as [->|Hk].
    + rewrite bool_decide_eq_true_2 by done. rewrite !fmap_cons. cbn [fst].
      rewrite decide_True by (by left). done.
    + rewrite bool_decide_eq_false_2 by done. rewrite !fmap_cons. cbn [fst].
      rewrite IH. destruct (decide (k ∈ m.*1)) as [Hin|Hnin].
      * rewrite decide_True by (by right). done.
      * rewrite decide_False; [done|].
        intros [->|Hin]%elem_of_cons; done.
Qed.

Lemma mapSet_NoDup {V} k (v : V) m : NoDup m.*1 → NoDup (mapSet k v m).*1.
Proof.
  intros Hnd. rewrite mapSet_keys. case_decide as Hin; [done|].
  apply NoDup_app. split_and!; [done| |apply NoDup_singleton].
  intros x Hx [->|Hnil]%elem_of_cons; [done|by apply elem_of_nil in Hnil].
Qed.

Lemma detectOutput_NoDup env serm d o d' :
  detectOutput env serm d o = Ok d' →
  NoDup (prerenderMap d).*1 → NoDup (prerenderMap d').*1.
Proof.
  unfold detectOutput. intros Hrun Hnd.
  destruct (so_entryPoint o) as [entryPoint|]; [|by simplify_eq].
  destruct (Js.truthy entryPoint); simpl in Hrun; [|by simplify_eq].
  destruct (serm !! entryPoint) as [[routeId [|]]|]; [| |by simplify_eq].
  - destruct (_ || _).
    + destruct (importPage env (so_outputPath o)) as [m|]; simpl in Hrun; [|done].
      injection Hrun as <-. simpl.
      destruct (pm_prerender m); simpl; try done; by apply mapSet_NoDup.
    + by injection Hrun as <-.
  - destruct (0 <? _)%nat; by injection Hrun as <-.
Qed.

(** The ids of [prerenderMap] are distinct, as the keys of a [Map] are. *)
Lemma detectExports_NoDup env serm outputs d d' :
  detectExports env serm outputs d = Ok d' →
  NoDup (prerenderMap d).*1 → NoDup (prerenderMap d').*1.
Proof.
  revert d. induction outputs as [|o outputs IH]; intros d; simpl.
  - by intros [= <-].
  - destruct (detectOutput env serm d o) as [d1|] eqn:Hd1; simpl; [|done].
    intros Hrun Hnd. eapply IH; [done|]. by eapply detectOutput_NoDup.
Qed.

Lemma prerenderPages_skip env routeId m component entry total params rest acc :
  pageSkipped m entry routeId params = true →
  prerenderPages env routeId m component entry total (params :: rest) acc
  = prerenderPages env routeId m component entry total rest acc.
Proof.
  unfold pageSkipped. simpl.
  destruct (loadPageData _ _ _ _ _) as [[loaded|]|]; done.
Qed.

Lemma renderedPages_cons m entry routeId params rest :
  renderedPages m entry routeId (params :: rest) =
    if pageSkipped m entry routeId params then renderedPages m entry routeId rest
    else params :: renderedPages m entry routeId rest.
Proof. unfold renderedPages. simpl. by destruct (pageSkipped _ _ _ _). Qed.

(** The loop over the parameter sets, when it completes: one more count
    and one more file per rendered page, and the file of the last
    rendered page recorded when there is one parameter set in all. *)
Lemma prerenderPages_Ok env routeId m component entry total paramSets acc loop :
  prerenderPages env routeId m component entry total paramSets acc = Ok loop →
  renderedCount loop = renderedCount acc + length (renderedPages m entry routeId paramSets)
  ∧ (pl_files loop).*1
    = (pl_files acc).*1 ++ map (pagePath entry) (renderedPages m entry routeId paramSets)
  ∧ pl_prerenderedFile loop =
      if (total =? 1)%nat then
        match last (renderedPages m entry routeId paramSets) with
        | Some params => Some (pagePath entry params)
        | None => pl_prerenderedFile acc
        end
      else pl_prerenderedFile acc.
Proof.
  revert acc. induction paramSets as [|params rest IH]; intros acc.
  - simpl. intros [= <-]. rewrite Nat.add_0_r, app_nil_r. by destruct (total =? 1)%nat.
  - rewrite renderedPages_cons.
    destruct (pageSkipped m entry routeId params) eqn:Hskip.
    { rewrite prerenderPages_skip by done. apply IH. }
    unfold pageSkipped in Hskip. simpl.
    destruct (loadPageData _ _ _ _ _) as [[data|]|]; simpl; [|done|done].
    destruct (renderToHTML env component data _) as [bodyHtml|]; simpl; [|done].
    intros Hrun. destruct (IH _ Hrun) as (Hcount & Hfiles & Hfile). simpl in *.
    split_and!.
    + lia.
    + rewrite Hfiles, fmap_app, <- app_assoc. done.
    + rewrite Hfile, last_cons. destruct (total =? 1)%nat; [|done].
      by destruct (last _).
Qed.

(** One route of the pass whose module has a default export. *)
Lemma prerenderRoute_Ok env d st routeId cfg entry path m component st' :
  bs_routes st !! routeId = Some entry → e_type entry = Page →
  serverOutputPathMap d !! routeId = Some path → Js.truthy path = true →
  importPage env path = Ok m → pm_default m = Some component →
  prerenderRoute env d st routeId cfg = Ok st' →
  ∃ paramSets,
    resolveParamSets cfg = Ok paramSets
    ∧ bs_routes st' =
        <[routeId :=
            withPrerender entry (Some true)
              (if (length paramSets =? 1)%nat then
                 match last (renderedPages m entry routeId paramSets) with
                 | Some params => Some (pagePath entry params)
                 | None => e_prerenderedFile entry
                 end
               else e_prerenderedFile entry)
              (if (1 <? length paramSets)%nat
               then Some (length (renderedPages m entry routeId paramSets))
               else e_prerenderedCount entry)]> (bs_routes st)
    ∧ (bs_files st').*1
      = (bs_files st).*1 ++ map (pagePath entry) (renderedPages m entry routeId paramSets).
Proof.
  intros Hentry Htype Hpath Htruthy Himport Hdefault.
  unfold prerenderRoute. rewrite Hentry, Htype, Hpath, Htruthy. simpl.
  rewrite Himport. simpl. rewrite Hdefault.
  destruct (resolveParamSets cfg) as [paramSets|]; simpl; [|done].
  destruct (prerenderPages _ _ _ _ _ _ _ _) as [loop|] eqn:Hloop; simpl; [|done].
  intros [= <-]. exists paramSets.
  apply prerenderPages_Ok in Hloop as (Hcount & Hfiles & Hfile). simpl in *.
  split_and!; [done| |].
  - by rewrite Hcount, Hfile.
  - by rewrite fmap_app, Hfiles.
Qed.

(** A route of the pass touches no entry but its own, and only adds
    files. *)
Lemma prerenderRoute_frame env d st routeId cfg st' :
  prerenderRoute env d st routeId cfg = Ok st' →
  (∀ other, other ≠ routeId → bs_routes st' !! other = bs_routes st !! other)
  ∧ ∃ more, bs_files st' = bs_files st ++ more.
Proof.
  unfold prerenderRoute.
  destruct (bs_routes st !! routeId) as [entry|];
    [|intros [= <-]; split; [done|exists []; by rewrite app_nil_r]].
  destruct (e_type entry);
    [|intros [= <-]; split; [done|exists []; by rewrite app_nil_r]].
  destruct (serverOutputPathMap d !! routeId) as [path|];
    [|intros [= <-]; split; [done|exists []; by rewrite app_nil_r]].
  destruct (Js.truthy path); simpl;
    [|intros [= <-]; split; [done|exists []; by rewrite app_nil_r]].
  destruct (importPage env path) as [m|]; simpl; [|done].
  destruct (pm_default m) as [component|];
    [|intros [= <-]; split; [done|exists []; by rewrite app_nil_r]].
  destruct (resolveParamSets cfg) as [paramSets|]; simpl; [|done].
  destruct (prerenderPages _ _ _ _ _ _ _ _) as [loop|]; simpl; [|done].
  intros [= <-]. simpl. split; [|by eexists].
  intros other Hne. by rewrite lookup_insert_ne.
Qed.

Lemma prerenderLoop_frame env d todo st st' :
  prerenderLoop env d todo st = Ok st' →
  (∀ other, other ∉ todo.*1 → bs_routes st' !! other = bs_routes st !! other)
  ∧ ∃ more, bs_files st' = bs_files st ++ more.
Proof.
  revert st. induction todo as [|[routeId cfg] todo IH]; intros st; simpl.
  - intros [= <-]. split; [done|]. exists []. by rewrite app_nil_r.
  - destruct (prerenderRoute env d st routeId cfg) as [st1|] eqn:Hroute; simpl; [|done].
    intros Hrest. destruct (IH _ Hrest) as (Hother & more2 & Hfiles).
    destruct (prerenderRoute_frame _ _ _ _ _ _ Hroute) as (Hother1 & more1 & Hfiles1).
    split.
    + intros other Hnot.
      rewrite Hother, Hother1; [done| |];
        intros ?; apply Hnot; apply elem_of_cons; auto.
    + exists (more1 ++ more2). by rewrite Hfiles, Hfiles1, app_assoc.
Qed.

(** In a completed pass every listed route was processed once, on a
    state holding its original entry, and what it stored and wrote is in
    the final state. *)
Lemma prerenderLoop_route env d todo st st' routeId cfg :
  NoDup todo.*1 → (routeId, cfg) ∈ todo →
  prerenderLoop env d todo st = Ok st' →
  ∃ st1 st2 more,
    prerenderRoute env d st1 routeId cfg = Ok st2
    ∧ bs_routes st1 !! routeId = bs_routes st !! routeId
    ∧ bs_routes st' !! routeId = bs_routes st2 !! routeId
    ∧ bs_files st' = bs_files st2 ++ more.
Proof.
  revert st. induction todo as [|[routeId' cfg'] todo IH]; intros st Hnd Hin; simpl.
  - by apply elem_of_nil in Hin.
  - rewrite fmap_cons in Hnd. apply NoDup_cons in Hnd as [Hfresh Hnd].
    destruct (prerenderRoute env d st routeId' cfg') as [st1|] eqn:Hroute; simpl; [|done].
    intros Hrest. apply elem_of_cons in Hin as [[= <- <-]|Hin].
    + destruct (prerenderLoop_frame _ _ _ _ _ Hrest) as (Hother & more & Hfiles).
      exists st, st1, more. split_and!; try done. by apply Hother.
    + destruct (IH _ Hnd Hin Hrest) as (sa & sb & more & Hrun & Hbefore & Hafter & Hfiles).
      exists sa, sb, more. split_and!; try done.
      rewrite Hbefore.
      apply (prerenderRoute_frame _ _ _ _ _ _ Hroute).
      intros ->. apply Hfresh. apply list_elem_of_fmap. by exists (routeId', cfg).
Qed.

(** The export detection on the sample site, with either [/about]
    module. *)
Lemma site_detected :
  detectExports (Demo.env Demo.aboutModule) Demo.serverEntryRouteMap
                (Demo.siteOutputs Demo.itemsModule) noneDetected
  = Ok Demo.siteDetected
  ∧ detectExports (Demo.env Demo.aboutWithoutDefault) Demo.serverEntryRouteMap
                  (Demo.siteOutputs Demo.itemsModule) noneDetected
    = Ok Demo.siteDetected.
Proof. split; vm_compute; reflexivity. Qed.

(** C7, as the specification words it, fails: on the sample site whose
    [/about] module exports [prerender = true] but no default component,
    the route is recorded for prerendering, the build completes, and the
    manifest entry of [/about] is not marked prerendered. *)
Lemma prerender_manifest_entries_counterexample :
  ∃ d out entry,
    detectExports (Demo.env Demo.aboutWithoutDefault) Demo.serverEntryRouteMap
                  (Demo.siteOutputs Demo.itemsModule) noneDetected = Ok d
    ∧ ("/about", PrerenderTrue) ∈ prerenderMap d
    ∧ Demo.buildSite Demo.aboutWithoutDefault Demo.itemsModule = Ok out
    ∧ routes (manifestFile out) !! "/about" = Some entry
    ∧ e_prerendered entry = None
    ∧ e_prerendered entry ≠ Some true.
Proof.
  exists Demo.siteDetected. eexists. eexists. split_and!.
  - apply site_detected.
  - left.
  - vm_compute. reflexivity.
  - vm_compute. reflexivity.
  - reflexivity.
  - discriminate.
Qed.

(** C7, amended. The root URL is written to [index.html] and any other
    URL to the URL without its leading slash followed by [/index.html]. A
    page whose [load()] settles with a [Response] is skipped and the loop
    goes on with the next parameter set. When the build completes, every
    route recorded for prerendering whose compiled module has a default
    export has [prerendered: true] in the manifest written; with one
    parameter set whose page is rendered it has [prerenderedFile] set to
    the path of the file written; with more than one parameter set it has
    [prerenderedCount] equal to the number of pages rendered for that
    route; and every rendered page is among the files written. *)
Theorem prerender_manifest_entries :
  htmlRelPathOf "/" = "index.html"
  ∧ (∀ c rest, String c rest ≠ "/" →
               htmlRelPathOf (String c rest) = rest +:+ "/index.html")
  ∧ (∀ env routeId m component entry total params rest acc,
      pageSkipped m entry routeId params = true →
      prerenderPages env routeId m component entry total (params :: rest) acc
      = prerenderPages env routeId m component entry total rest acc)
  ∧ (∀ env serm outputs d manifest out routeId cfg entry path m component,
      detectExports env serm outputs noneDetected = Ok d →
      prerenderAndWrite env d manifest = Ok out →
      (routeId, cfg) ∈ prerenderMap d →
      routes manifest !! routeId = Some entry → e_type entry = Page →
      serverOutputPathMap d !! routeId = Some path → Js.truthy path = true →
      importPage env path = Ok m → pm_default m = Some component →
      ∃ paramSets entry',
        resolveParamSets cfg = Ok paramSets
        ∧ routes (manifestFile out) !! routeId = Some entry'
        ∧ e_prerendered entry' = Some true
        ∧ (∀ params, paramSets = [params] →
                     pageSkipped m entry routeId params = false →
                     e_prerenderedFile entry' = Some (pagePath entry params))
        ∧ (1 < length paramSets →
           e_prerenderedCount entry'
           = Some (length (renderedPages m entry routeId paramSets)))
        ∧ (∀ params, params ∈ renderedPages m entry routeId paramSets →
                     pagePath entry params ∈ (htmlFiles out).*1)).
Proof.
  split_and!.
  - reflexivity.
  - intros c rest Hne. unfold htmlRelPathOf. by rewrite bool_decide_eq_false_2.
  - apply prerenderPages_skip.
  - intros env serm outputs d manifest out routeId cfg entry path m component
      Hdetect Hwrite Hin Hentry Htype Hpath Htruthy Himport Hdefault.
    assert (NoDup (prerenderMap d).*1) as Hnd.
    { eapply detectExports_NoDup; [done|]. simpl. apply NoDup_nil_2. }
    assert ((0 <? length (prerenderMap d))%nat = true) as Hpos.
    { destruct (prerenderMap d); [by apply elem_of_nil in Hin|done]. }
    unfold prerenderAndWrite, prerenderPass in Hwrite. rewrite Hpos in Hwrite.
    destruct (prerenderLoop env d (prerenderMap d) _) as [st|] eqn:Hloop;
      [|discriminate Hwrite].
    injection Hwrite as <-. cbn [manifestFile routes htmlFiles].
    destruct (prerenderLoop_route _ _ _ _ _ _ _ Hnd Hin Hloop)
      as (st1 & st2 & more & Hroute & Hbefore & Hafter & Hfiles).
    simpl in Hbefore. rewrite Hentry in Hbefore.
    destruct (prerenderRoute_Ok _ _ _ _ _ _ _ _ _ _ Hbefore Htype Hpath Htruthy
                Himport Hdefault Hroute) as (paramSets & Hsets & Hroutes & Hwritten).
    exists paramSets. eexists. split; [done|].
    rewrite Hafter, Hroutes, lookup_insert_eq.
    split; [done|]. simpl. split_and!.
    + done.
    + intros params -> Hrendered.
      rewrite renderedPages_cons, Hrendered. done.
    + intros Hlen. apply Nat.ltb_lt in Hlen. by rewrite Hlen.
    + intros params Hrendered. rewrite Hfiles, fmap_app, Hwritten.
      apply elem_of_app. left. apply elem_of_app. right.
      apply list_elem_of_In, in_map, list_elem_of_In. done.
Qed.

Lemma prerender_manifest_entries_witness :
  ∃ out entry,
    prerenderAndWrite (Demo.env Demo.aboutModule) Demo.siteDetected Demo.siteManifest
      = Ok out
    ∧ routes (manifestFile out) !! "/posts/[slug]" = Some entry
    ∧ e_prerendered entry = Some true
    ∧ e_prerenderedCount entry = Some 2.
Proof.
  destruct prerender_manifest_entries as (_ & _ & _ & Hpass).
  destruct (prerenderAndWrite (Demo.env Demo.aboutModule) Demo.siteDetected
                              Demo.siteManifest) as [out|] eqn:Hwrite;
    [|vm_compute in Hwrite; discriminate].
  destruct (Hpass (Demo.env Demo.aboutModule) Demo.serverEntryRouteMap
              (Demo.siteOutputs Demo.itemsModule) Demo.siteDetected Demo.siteManifest out
              "/posts/[slug]" (PrerenderPaths (Ok Demo.slugs))
              (pageManifestEntry ∅ Demo.siteServerOutputMap Demo.siteDetected
                                 Demo.postsRoute)
              "page__posts__slug_.js" Demo.postsModule (mkComponent "Post"))
    as (paramSets & entry & Hsets & Hentry & Hpre & _ & Hcount & _).
  - apply site_detected.
  - exact Hwrite.
  - right. left.
  - vm_compute. reflexivity.
  - reflexivity.
  - vm_compute. reflexivity.
  - reflexivity.
  - reflexivity.
  - reflexivity.
  - exists out, entry. injection Hsets as <-.
    split_and!; [reflexivity|exact Hentry|exact Hpre|].
    rewrite Hcount by (simpl; lia). vm_compute. reflexivity.
Defined.





End PrerenderFacts.

(** ** More about the matcher *)

Module MatcherMore.
Import Matcher Shape Bindings MatcherFacts.

(** Two branch sequences that cover the same path and outrank each other
    are the same. *)
Lemma outranks_antisym a b segments :
  shapeMatches a segments = true → shapeMatches b segments = true →
  outranks a b = true → outranks b a = true → a = b.
Proof.
  revert b segments. induction a as [|k a IH]; intros [|k' b] [|x segments] Ha Hb Hab Hba;
    simpl in *; try done.
  - destruct k as [s| |]; try done. by destruct a.
  - destruct k as [s| |], k' as [s'| |]; simpl in *; try done.
    + apply andb_true_iff in Ha as [->%bool_decide_eq_true Ha].
      apply andb_true_iff in Hb as [->%bool_decide_eq_true Hb].
      f_equal. by eapply IH.
    + f_equal. by eapply IH.
    + destruct a, b; done.
Qed.

Lemma NoDup_fmap_eq {A B} (f : A → B) (l : list A) x y :
  NoDup (f <$> l) → x ∈ l → y ∈ l → f x = f y → x = y.
Proof.
  induction l as [|z l IH]; [by intros _ ?%elem_of_nil|].
  rewrite fmap_cons, NoDup_cons.
  intros [Hz Hnd] [->|Hx]%elem_of_cons [->|Hy]%elem_of_cons Heq; try done.
  - exfalso. apply Hz. rewrite Heq. by apply list_elem_of_fmap_2.
  - exfalso. apply Hz. rewrite <- Heq. by apply list_elem_of_fmap_2.
  - by apply IH.
Qed.

(** X1. When no two routes are inserted along the same branch sequence,
    the route a path resolves to does not depend on the order in which
    the routes are listed. *)
Theorem match_order_independent routes routes' pathname :
  routes ≡ₚ routes' →
  NoDup (patternShape <$> routes) →
  mr_entry <$> buildMatcher_match routes pathname
  = mr_entry <$> buildMatcher_match routes' pathname.
Proof.
  intros Hperm Hnd.
  destruct (buildMatcher_match routes pathname) as [r|] eqn:Hr;
    destruct (buildMatcher_match routes' pathname) as [r'|] eqn:Hr'; simpl.
  - destruct (match_Some _ _ _ Hr) as (Hin & Hm & Hmin & _).
    destruct (match_Some _ _ _ Hr') as (Hin' & Hm' & Hmin' & _).
    f_equal. apply (NoDup_fmap_eq patternShape routes); [done|done| |].
    + by rewrite Hperm.
    + eapply outranks_antisym; [done|done| |].
      * apply Hmin; [by rewrite Hperm|done].
      * apply Hmin'; [by rewrite <- Hperm|done].
  - destruct (match_Some _ _ _ Hr) as (Hin & Hm & _).
    rewrite (match_None _ _ Hr' (mr_entry r)) in Hm; [done|by rewrite <- Hperm].
  - destruct (match_Some _ _ _ Hr') as (Hin' & Hm' & _).
    rewrite (match_None _ _ Hr (mr_entry r')) in Hm'; [done|by rewrite Hperm].
  - done.
Qed.

Lemma match_order_independent_witness :
  mr_entry <$> buildMatcher_match Demo.docsRoutes "/docs/a/b"
  = mr_entry <$> buildMatcher_match (reverse Demo.docsRoutes) "/docs/a/b".
Proof.
  apply match_order_independent.
  - symmetry. apply reverse_Permutation.
  - vm_compute. repeat constructor; intros Hin;
      repeat (apply elem_of_cons in Hin as [Hin|Hin]; [discriminate|]);
      by apply elem_of_nil in Hin.
Defined.

(** A walk along literal children binds nothing. *)
Lemma matchSegments_literal node segments params e name :
  lookupShape node (KStatic <$> segments) = Some (e, name) →
  matchSegments node segments params = (Some e, params).
Proof.
  revert node. induction segments as [|x segments IH]; intros node.
  - simpl. destruct (entry node); [|done]. by intros [= <- _].
  - rewrite fmap_cons. cbn [lookupShape]. rewrite matchSegments_cons.
    destruct (staticChildren node !! x) as [child|]; [|done].
    intros Hl. by rewrite (IH _ Hl).
Qed.

(** X2. When no other route has the segments of an all-literal route,
    the pattern of that route, taken as a path, resolves to that very
    route with an empty parameter object, whatever other routes are
    registered. *)
Theorem match_literal_route routes e :
  e ∈ routes →
  allLiteral (splitSegments (e_pattern e)) →
  (∀ e', e' ∈ routes →
         splitSegments (e_pattern e') = splitSegments (e_pattern e) → e' = e) →
  buildMatcher_match routes (e_pattern e) = Some (mkMatchResult e ∅).
Proof.
  intros Hin Hlit Honly.
  destruct (lookupShape_buildMatcher_registered _ _ Hin) as [[e' name] Hl].
  destruct (lookupShape_buildMatcher _ _ _ _ Hl) as (Hin' & Hshape & _).
  assert (e' = e) as ->.
  { apply Honly; [done|]. apply shape_literal_inv.
    unfold patternShape in Hshape. by rewrite Hshape, shape_allLiteral. }
  unfold patternShape in Hl. rewrite shape_allLiteral in Hl by done.
  unfold buildMatcher_match, match_.
  by rewrite (matchSegments_literal _ _ _ _ _ Hl).
Qed.

Lemma match_literal_route_witness :
  buildMatcher_match Demo.docsRoutes "/docs" = Some (mkMatchResult (Demo.page "/docs") ∅).
Proof.
  apply (match_literal_route Demo.docsRoutes (Demo.page "/docs")).
  - left.
  - intros s Hs. vm_compute in Hs.
    repeat (apply elem_of_cons in Hs as [->|Hs]; [by split|]).
    by apply elem_of_nil in Hs.
  - intros e' Hin' Hsegments.
    repeat (apply elem_of_cons in Hin' as [->|Hin'];
            [first [reflexivity | discriminate Hsegments]|]).
    by apply elem_of_nil in Hin'.
Defined.

(** The trie of a single pattern, walked along a path the pattern
    covers. *)
Lemma matchSegments_single patternSegments e segments params :
  shapeMatches (shape patternSegments) segments = true →
  matchSegments (insertSegments patternSegments e createTrieNode) segments params
  = (Some e, bindParams patternSegments segments params).
Proof.
  revert segments params.
  induction patternSegments as [|p rest IH]; intros segments params.
  - destruct segments; [done|]. done.
  - rewrite shape_cons. cbn [insertSegments bindParams].
    destruct (Js.startsWith "*" p) eqn:Hstar.
    { destruct segments as [|s segments]; [done|]. intros _. done. }
    destruct (Js.startsWith ":" p) eqn:Hcolon.
    + destruct segments as [|s segments]; [done|]. cbn [shapeMatches]. intros Hm.
      rewrite matchSegments_cons.
      cbn [staticChildren dynamicChild catchAllChild entry createTrieNode].
      by rewrite lookup_empty, (IH _ _ Hm).
    + destruct segments as [|s segments]; [done|]. cbn [shapeMatches].
      intros [->%bool_decide_eq_true Hm]%andb_true_iff.
      rewrite matchSegments_cons.
      cbn [staticChildren dynamicChild catchAllChild entry createTrieNode].
      by rewrite lookup_empty, lookup_insert_eq, (IH _ _ Hm).
Qed.

(** X3. A matcher built from one route resolves exactly the paths its
    pattern covers, and then returns the route with the parameter object
    obtained by assigning, from left to right, to each parameter name
    the path segment at its position and to a catch-all name the
    remaining segments joined by slashes; an assignment to the name
    [__proto__] binds nothing. *)
Theorem match_single_route e pathname :
  buildMatcher_match [e] pathname =
    if shapeMatches (patternShape e) (splitSegments pathname)
    then Some (mkMatchResult e (bindParams (splitSegments (e_pattern e))
                                           (splitSegments pathname) ∅))
    else None.
Proof.
  destruct (shapeMatches _ _) eqn:Hm.
  - unfold buildMatcher_match, match_, buildMatcher. simpl. unfold insertRoute.
    by rewrite matchSegments_single.
  - destruct (buildMatcher_match [e] pathname) as [r|] eqn:Hr; [|done].
    destruct (match_Some _ _ _ Hr) as (Hin & Hm' & _).
    apply elem_of_cons in Hin as [Heq|Hin]; [|by apply elem_of_nil in Hin].
    rewrite Heq in Hm'. congruence.
Qed.

(** The route [/:__proto__] is returned for [/x] with nothing bound. *)
Example match_proto_parameter :
  buildMatcher_match [Demo.page "/:__proto__"] "/x"
  = Some (mkMatchResult (Demo.page "/:__proto__") ∅).
Proof. vm_compute. reflexivity. Qed.

Lemma pathValue_cons segment rest v :
  pathValue rest v → pathValue (segment :: rest) v.
Proof.
  intros [Hin|[n ->]]; [left; by right|]. right. by exists (S n).
Qed.

(** X4. Whatever the trie, a value in the parameter object after a walk
    was there before the walk, or is a segment of the path walked, or is
    a tail of that path joined by slashes; so every value [match] returns
    comes from the requested path. *)
Theorem matchSegments_values :
  (∀ node segments params r p k v,
      matchSegments node segments params = (r, p) →
      p !! k = Some v →
      params !! k = Some v ∨ pathValue segments v)
  ∧ (∀ routes pathname r k v,
      buildMatcher_match routes pathname = Some r →
      mr_params r !! k = Some v →
      pathValue (splitSegments pathname) v).
Proof.
  assert (∀ segments node params r p k v,
      matchSegments node segments params = (r, p) →
      p !! k = Some v →
      params !! k = Some v ∨ pathValue segments v) as Hwalk.
  { induction segments as [|segment rest IH]; intros node params r p k v.
    { simpl. intros [= _ <-] Hv. by left. }
    rewrite matchSegments_cons.
    destruct (staticChildren node !! segment) as [sc|];
      [destruct (matchSegments sc rest params) as [[r1|] p1] eqn:H1|];
      [|destruct (dynamicChild node) as [[pn dn]|];
          [destruct (matchSegments dn rest (Js.assign pn segment p1)) as [[r2|] p2] eqn:H2|]
       |destruct (dynamicChild node) as [[pn dn]|];
          [destruct (matchSegments dn rest (Js.assign pn segment params)) as [[r2|] p2] eqn:H2|]];
      try destruct (catchAllChild node) as [[cn ce]|];
      simpl; intros [= <- <-] Hv;
      repeat match goal with
      | H : Js.assign _ _ _ !! _ = Some _ |- _ =>
          apply JsFacts.lookup_assign_Some in H as [[<- <-]|H]
      | H : delete _ _ !! _ = Some _ |- _ =>
          apply lookup_delete_Some in H as [? H]
      | H : matchSegments _ rest _ = (_, ?q), Hq : ?q !! k = Some v |- _ =>
          apply (IH _ _ _ _ _ _ H) in Hq as [Hq|Hq]
      end;
      first [ by left
            | right; by apply pathValue_cons
            | right; left; by left
            | right; right; by exists 0 ]. }
  split; [intros; by eapply Hwalk|].
  intros routes pathname r k v. unfold buildMatcher_match, match_.
  destruct (matchSegments _ _ _) as [[e|] p] eqn:Hrun; [|done].
  intros [= <-] Hv. simpl in Hv.
  destruct (Hwalk _ _ _ _ _ _ _ Hrun Hv) as [Hempty|Hpath]; [|done].
  by rewrite lookup_empty in Hempty.
Qed.

Lemma matchSegments_values_witness :
  pathValue (splitSegments "/docs/a/b") "a/b".
Proof.
  apply (proj2 matchSegments_values Demo.docsRoutes "/docs/a/b"
           (mkMatchResult (Demo.page "/docs/*path") {[ "path" := "a/b" ]}) "path" "a/b").
  - vm_compute. reflexivity.
  - vm_compute. reflexivity.
Defined.

End MatcherMore.

(** ** The middleware chain *)

Module MiddlewareFacts.
Import Middleware.

Lemma entered_app a b : entered (a ++ b) = entered a ++ entered b.
Proof. unfold entered. apply omap_app. Qed.

Lemma finalCalls_app a b : finalCalls (a ++ b) = (finalCalls a + finalCalls b)%nat.
Proof. unfold finalCalls. by rewrite List.filter_app, length_app. Qed.

Lemma next_final fuel chain context finalHandler s :
  (length chain ≤ index s)%nat →
  next fuel chain context finalHandler s
  = Some (finalHandler, mkState (index s) (trace s ++ [FinalHandler])).
Proof. intros Hle. destruct fuel; simpl; by rewrite (proj2 (Nat.leb_le _ _)). Qed.

Lemma next_enter fuel chain context finalHandler s mw :
  chain !! index s = Some mw →
  next (S fuel) chain context finalHandler s
  = runProgram (next fuel chain context finalHandler) (mw context)
               (mkState (S (index s)) (trace s ++ [Entered (index s)])).
Proof.
  intros Hmw. cbn [next]. rewrite Hmw.
  apply lookup_lt_Some in Hmw. by rewrite (proj2 (Nat.leb_gt _ _)).
Qed.

(** *** Every run returns, each middleware entered once at most *)

Lemma runProgram_inv n fuel nxt :
  (∀ s, enteredInOrder n s → (n - index s ≤ fuel)%nat →
        ∃ r s', nxt s = Some (r, s') ∧ enteredInOrder n s' ∧ (index s ≤ index s')%nat) →
  ∀ p s, enteredInOrder n s → (n - index s ≤ fuel)%nat →
         ∃ r s', runProgram nxt p s = Some (r, s')
                 ∧ enteredInOrder n s' ∧ (index s ≤ index s')%nat.
Proof.
  intros Hnxt. induction p as [r|k IH]; intros s Hinv Hfuel; simpl.
  - by exists r, s.
  - destruct (Hnxt s Hinv Hfuel) as (r & s1 & -> & Hinv1 & Hle1).
    destruct (IH r s1 Hinv1 ltac:(lia)) as (r2 & s2 & -> & Hinv2 & Hle2).
    exists r2, s2. split_and!; [done|done|lia].
Qed.

Lemma next_inv chain context finalHandler fuel s :
  enteredInOrder (length chain) s → (length chain - index s ≤ fuel)%nat →
  ∃ r s', next fuel chain context finalHandler s = Some (r, s')
          ∧ enteredInOrder (length chain) s' ∧ (index s ≤ index s')%nat.
Proof.
  revert s. induction fuel as [|fuel IH]; intros s [Hle Hent] Hfuel.
  - rewrite next_final by lia.
    eexists _, _. split_and!; [done| |done].
    split; [done|]. simpl. by rewrite entered_app, Hent, app_nil_r.
  - destruct (decide (length chain ≤ index s)%nat) as [Hend|Hend].
    + rewrite next_final by lia.
      eexists _, _. split_and!; [done| |done].
      split; [done|]. simpl. by rewrite entered_app, Hent, app_nil_r.
    + destruct (lookup_lt_is_Some_2 chain (index s) ltac:(lia)) as [mw Hmw].
      rewrite (next_enter _ _ _ _ _ _ Hmw).
      destruct (runProgram_inv (length chain) fuel (next fuel chain context finalHandler)
                  IH (mw context)
                  (mkState (S (index s)) (trace s ++ [Entered (index s)])))
        as (r & s' & Hrun & Hinv & Hle').
      * split; [simpl; lia|]. cbn [index trace].
        by rewrite entered_app, Hent, seq_S.
      * simpl. lia.
      * exists r, s'. split_and!; [done|done|simpl in Hle'; lia].
Qed.

(** X5. Whatever the middlewares do with [next], awaiting each call,
    [runMiddleware] returns (the fuel of the model suffices), and the
    middlewares entered are the first [index] ones of the chain, each
    once, in the order of the chain. *)
Theorem runMiddleware_enters_in_order chain context finalHandler :
  ∃ r s, runMiddleware chain context finalHandler = Some (r, s)
         ∧ (index s ≤ length chain)%nat
         ∧ entered (trace s) = seq 0 (index s).
Proof.
  destruct (next_inv chain context finalHandler (length chain) (mkState 0 []))
    as (r & s & Hrun & [Hle Hent] & _).
  - by split; [simpl; lia|].
  - simpl. lia.
  - by exists r, s.
Qed.

(** *** Wrapping middlewares *)

Lemma runProgram_shifted n t0 nxt nxt' :
  (∀ s s', shifted n t0 s s' → shiftedOutcome n t0 (nxt s) (nxt' s')) →
  ∀ p s s', shifted n t0 s s' →
            shiftedOutcome n t0 (runProgram nxt p s) (runProgram nxt' p s').
Proof.
  intros Hnxt. induction p as [r|k IH]; intros s s' Hsim; simpl.
  - done.
  - specialize (Hnxt s s' Hsim). unfold shiftedOutcome in Hnxt.
    destruct (nxt s) as [[r s1]|], (nxt' s') as [[r' s1']|]; try done.
    destruct Hnxt as [<- Hsim1]. by apply IH.
Qed.

(** The chain behind a prefix runs as it does alone, positions apart. *)
Lemma next_shifted pre rest context finalHandler t0 fuel s s' :
  shifted (length pre) t0 s s' →
  shiftedOutcome (length pre) t0 (next fuel (pre ++ rest) context finalHandler s)
                 (next fuel rest context finalHandler s').
Proof.
  revert s s'. unfold shifted. induction fuel as [|fuel IH]; intros s s' [Hi Ht].
  - destruct (decide (length rest ≤ index s')%nat) as [Hend|Hend].
    + rewrite !next_final by (rewrite ?length_app; lia).
      split; [done|]. split; [done|]. simpl. by rewrite Ht, fmap_app, app_assoc.
    + simpl. rewrite length_app.
      by rewrite !(proj2 (Nat.leb_gt _ _)) by lia.
  - destruct (decide (length rest ≤ index s')%nat) as [Hend|Hend].
    + rewrite !next_final by (rewrite ?length_app; lia).
      split; [done|]. split; [done|]. simpl. by rewrite Ht, fmap_app, app_assoc.
    + destruct (lookup_lt_is_Some_2 rest (index s') ltac:(lia)) as [mw Hmw].
      rewrite (next_enter _ _ _ _ _ _ Hmw).
      assert ((pre ++ rest) !! index s = Some mw) as Hmw2.
      { rewrite Hi. rewrite lookup_app_r; [|lia]. rewrite <- Hmw. f_equal. lia. }
      rewrite (next_enter _ _ _ _ _ _ Hmw2).
      apply runProgram_shifted; [apply IH|].
      split; simpl; [lia|]. by rewrite Ht, Hi, fmap_app, app_assoc.
Qed.

(** Through the wrapping middlewares from position [j] on. *)
Lemma next_wrapping fs rest context finalHandler fuel d : ∀ j t,
  (j + d = length fs)%nat →
  next (fuel + d) ((wrapping <$> fs) ++ rest) context finalHandler (mkState j t)
  = match next fuel ((wrapping <$> fs) ++ rest) context finalHandler
            (mkState (length fs) (t ++ (Entered <$> seq j d))) with
    | Some (r, s) => Some (compose (drop j fs) r, s)
    | None => None
    end.
Proof.
  induction d as [|d IH]; intros j t Hj.
  - rewrite Nat.add_0_r. simpl. rewrite app_nil_r.
    replace j with (length fs) by lia. rewrite drop_all. simpl.
    by destruct (next _ _ _ _ _) as [[r s]|].
  - destruct (lookup_lt_is_Some_2 fs j ltac:(lia)) as [f Hf].
    replace (fuel + S d)%nat with (S (fuel + d)) by lia.
    rewrite (next_enter _ _ _ _ _ (wrapping f))
      by (simpl; rewrite lookup_app_l by (rewrite length_fmap; lia);
          by rewrite list_lookup_fmap, Hf).
    simpl. rewrite (IH (S j)) by lia.
    rewrite <- app_assoc. simpl.
    rewrite (drop_S _ _ _ Hf).
    by destruct (next _ _ _ _ _) as [[r s]|].
Qed.

(** X6. A middleware that settles without calling [next] short-circuits
    the chain: behind wrapping middlewares, its outcome goes back through
    them, innermost first; no middleware after it is entered and the
    final handler is not called. *)
Theorem runMiddleware_short_circuit fs mw post context finalHandler r :
  mw context = Return r →
  runMiddleware ((wrapping <$> fs) ++ mw :: post) context finalHandler
  = Some (compose fs r,
          mkState (S (length fs)) (Entered <$> seq 0 (S (length fs)))).
Proof.
  intros Hmw. unfold runMiddleware.
  rewrite length_app, length_fmap, (Nat.add_comm (length fs)).
  rewrite (next_wrapping fs (mw :: post) context finalHandler _ (length fs) 0 []) by lia.
  cbn [length].
  rewrite (next_enter _ _ _ _ _ mw)
    by (simpl; rewrite lookup_app_r by (rewrite length_fmap; lia);
        by rewrite length_fmap, Nat.sub_diag).
  rewrite Hmw. cbn [runProgram index trace]. by rewrite drop_0, seq_S, fmap_app.
Qed.

Lemma runMiddleware_short_circuit_witness :
  runMiddleware ((wrapping <$> [λ r, r]) ++ [λ _, Return (Threw "denied"); wrapping (λ r, r)])
                Demo.itemsRequest (Ok Demo.okResponse)
  = Some (Threw "denied", mkState 2 [Entered 0; Entered 1]).
Proof.
  apply (runMiddleware_short_circuit [λ r, r] (λ _, Return (Threw "denied"))
           [wrapping (λ r, r)] Demo.itemsRequest (Ok Demo.okResponse) (Threw "denied")).
  reflexivity.
Defined.

(** X7. Wrapping middlewares in front of a chain compose around it: the
    outcome is the outcome of the chain alone, passed through the
    wrappers innermost first; the wrappers are entered first, in order,
    and the events of the chain follow, its positions moved up by the
    number of wrappers. With nothing behind the wrappers, the chain alone
    is the final handler, called once. *)
Theorem runMiddleware_wrapping fs rest context finalHandler :
  (∃ r s s',
    runMiddleware rest context finalHandler = Some (r, s')
    ∧ runMiddleware ((wrapping <$> fs) ++ rest) context finalHandler
      = Some (compose fs r, s)
    ∧ index s = (length fs + index s')%nat
    ∧ trace s = (Entered <$> seq 0 (length fs)) ++ (shiftEvent (length fs) <$> trace s'))
  ∧ runMiddleware [] context finalHandler
    = Some (finalHandler, mkState 0 [FinalHandler]).
Proof.
  split; [|done].
  destruct (next_inv rest context finalHandler (length rest) (mkState 0 []))
    as (r & s' & Hrest & _); [by split; [simpl; lia|]|simpl; lia|].
  unfold runMiddleware. rewrite Hrest.
  rewrite length_app, length_fmap, (Nat.add_comm (length fs)).
  rewrite (next_wrapping fs rest context finalHandler (length rest) (length fs) 0 [])
    by lia.
  simpl.
  pose proof (next_shifted (wrapping <$> fs) rest context finalHandler
                (Entered <$> seq 0 (length fs)) (length rest)
                (mkState (length fs) (Entered <$> seq 0 (length fs))) (mkState 0 [])) as Hsim.
  rewrite length_fmap in Hsim. rewrite Hrest in Hsim.
  specialize (Hsim ltac:(split; simpl; [lia|by rewrite app_nil_r])).
  unfold shiftedOutcome, shifted in Hsim.
  destruct (next _ (_ ++ _) _ _ _) as [[r1 s1]|]; [|done].
  destruct Hsim as [-> [Hi Ht]].
  exists r, s1, s'. by rewrite drop_0.
Qed.

(** *** The final handler *)

Lemma next_finalCalls chain context finalHandler fuel s r s' :
  (∀ mw, mw ∈ chain → callsNextAtMostOnce (mw context)) →
  next fuel chain context finalHandler s = Some (r, s') →
  (finalCalls (trace s') ≤ finalCalls (trace s) + 1)%nat.
Proof.
  intros Hchain. revert s r s'. induction fuel as [|fuel IH]; intros s r s'.
  - simpl. destruct (_ <=? _)%nat; [|done]. intros [= _ <-].
    cbn [trace]. rewrite finalCalls_app. done.
  - destruct (decide (length chain ≤ index s)%nat) as [Hend|Hend].
    + rewrite next_final by done. intros [= _ <-].
      cbn [trace]. rewrite finalCalls_app. done.
    + destruct (lookup_lt_is_Some_2 chain (index s) ltac:(lia)) as [mw Hmw].
      rewrite (next_enter _ _ _ _ _ _ Hmw).
      specialize (Hchain mw (list_elem_of_lookup_2 _ _ _ Hmw)).
      destruct (mw context) as [r0|k]; cbn [runProgram].
      * intros [= _ <-]. cbn [trace]. rewrite finalCalls_app.
        change (finalCalls [Entered (index s)]) with 0%nat. lia.
      * destruct (next fuel chain context finalHandler _) as [[r1 s1]|] eqn:Hnext; [|done].
        destruct (Hchain r1) as [r' ->]. cbn [runProgram]. intros [= _ <-].
        apply IH in Hnext. cbn [trace] in Hnext. rewrite finalCalls_app in Hnext.
        change (finalCalls [Entered (index s)]) with 0%nat in Hnext. lia.
Qed.

(** X8. When the code of every middleware of the chain calls [next]
    once at most, the final handler is called once at most. *)
Theorem runMiddleware_final_once chain context finalHandler r s :
  (∀ mw, mw ∈ chain → callsNextAtMostOnce (mw context)) →
  runMiddleware chain context finalHandler = Some (r, s) →
  (finalCalls (trace s) ≤ 1)%nat.
Proof.
  intros Hchain Hrun. by apply (next_finalCalls _ _ _ _ _ _ _ Hchain) in Hrun.
Qed.

Lemma runMiddleware_final_once_witness :
  (finalCalls (trace (mkState 1 [Entered 0; FinalHandler])) ≤ 1)%nat.
Proof.
  apply (runMiddleware_final_once [wrapping (λ r, r)] Demo.itemsRequest
           (Ok Demo.okResponse) (Ok Demo.okResponse)).
  - intros mw [->|Hnil%elem_of_nil]%elem_of_cons; [|done].
    intros r. by exists r.
  - reflexivity.
Defined.

End MiddlewareFacts.

(** ** The manifest and the files of a build *)

Module BuildMore.
Import Build Kept PrerenderFacts.

Lemma sameButPrerender_refl e : sameButPrerender e e.
Proof. by destruct e. Qed.

Lemma sameButPrerender_trans e1 e2 e3 :
  sameButPrerender e1 e2 → sameButPrerender e2 e3 → sameButPrerender e1 e3.
Proof.
  unfold sameButPrerender, withPrerender. destruct e1, e2, e3; simpl.
  intros [= -> -> -> -> -> -> -> -> -> -> -> -> ->] [= -> -> -> -> -> -> -> -> -> -> -> -> ->].
  done.
Qed.

Lemma sameRoutes_refl rs : sameRoutesButPrerender rs rs.
Proof. intros id. destruct (rs !! id); [apply sameButPrerender_refl|done]. Qed.

Lemma sameRoutes_trans r1 r2 r3 :
  sameRoutesButPrerender r1 r2 → sameRoutesButPrerender r2 r3 →
  sameRoutesButPrerender r1 r3.
Proof.
  intros H12 H23 id. specialize (H12 id). specialize (H23 id).
  destruct (r1 !! id), (r2 !! id), (r3 !! id); try done.
  by eapply sameButPrerender_trans.
Qed.

Lemma loggedPages_app a b : loggedPages (a ++ b) = (loggedPages a + loggedPages b)%nat.
Proof. unfold loggedPages. by rewrite omap_app, list_sum_app. Qed.

Lemma prerenderPages_files env routeId m component entry total paramSets acc loop :
  prerenderPages env routeId m component entry total paramSets acc = Ok loop →
  length (pl_files loop) + renderedCount acc = length (pl_files acc) + renderedCount loop.
Proof.
  intros Hrun. apply prerenderPages_Ok in Hrun as (Hcount & Hfiles & _).
  apply (f_equal length) in Hfiles.
  rewrite length_app, ?length_fmap, ?length_map in Hfiles. lia.
Qed.

Lemma prerenderRoute_keeps env d st routeId cfg st' :
  prerenderRoute env d st routeId cfg = Ok st' →
  sameRoutesButPrerender (bs_routes st) (bs_routes st')
  ∧ length (bs_files st') + loggedPages (bs_log st)
    = length (bs_files st) + loggedPages (bs_log st').
Proof.
  unfold prerenderRoute.
  destruct (bs_routes st !! routeId) as [entry|] eqn:Hentry;
    [|intros [= <-]; split; [apply sameRoutes_refl|done]].
  destruct (e_type entry);
    [|intros [= <-]; split; [apply sameRoutes_refl|done]].
  destruct (serverOutputPathMap d !! routeId) as [path|];
    [|intros [= <-]; split; [apply sameRoutes_refl|done]].
  destruct (Js.truthy path); simpl;
    [|intros [= <-]; split; [apply sameRoutes_refl|done]].
  destruct (importPage env path) as [m|]; simpl; [|done].
  destruct (pm_default m) as [component|].
  2:{ intros [= <-]. simpl. split; [apply sameRoutes_refl|].
      rewrite loggedPages_app. unfold loggedPages at 3. simpl. lia. }
  destruct (resolveParamSets cfg) as [paramSets|]; simpl; [|done].
  destruct (prerenderPages _ _ _ _ _ _ _ _) as [loop|] eqn:Hloop; simpl; [|done].
  intros [= <-]. simpl. split.
  - intros id. destruct (decide (id = routeId)) as [->|Hne].
    + rewrite Hentry, lookup_insert_eq. by destruct entry.
    + rewrite lookup_insert_ne by done.
      destruct (bs_routes st !! id); [apply sameButPrerender_refl|done].
  - apply prerenderPages_files in Hloop. simpl in Hloop.
    rewrite length_app, loggedPages_app. unfold loggedPages at 3. simpl. lia.
Qed.

Lemma prerenderLoop_keeps env d todo st st' :
  prerenderLoop env d todo st = Ok st' →
  sameRoutesButPrerender (bs_routes st) (bs_routes st')
  ∧ length (bs_files st') + loggedPages (bs_log st)
    = length (bs_files st) + loggedPages (bs_log st').
Proof.
  revert st. induction todo as [|[routeId cfg] todo IH]; intros st; simpl.
  - intros [= <-]. split; [apply sameRoutes_refl|done].
  - destruct (prerenderRoute env d st routeId cfg) as [st1|] eqn:Hroute; simpl; [|done].
    intros Hrest. destruct (IH _ Hrest) as [Hsame Hcount].
    destruct (prerenderRoute_keeps _ _ _ _ _ _ Hroute) as [Hsame1 Hcount1].
    split; [by eapply sameRoutes_trans|lia].
Qed.

Lemma prerenderPass_keeps env d st st' :
  prerenderPass env d st = Ok st' →
  sameRoutesButPrerender (bs_routes st) (bs_routes st')
  ∧ length (bs_files st') + loggedPages (bs_log st)
    = length (bs_files st) + loggedPages (bs_log st').
Proof.
  unfold prerenderPass. destruct (0 <? _)%nat.
  - intros Hloop. apply prerenderLoop_keeps in Hloop as [Hsame Hcount].
    split; [done|]. simpl in Hcount. rewrite loggedPages_app in Hcount.
    unfold loggedPages at 2 in Hcount. simpl in Hcount. lia.
  - intros [= <-]. split; [apply sameRoutes_refl|done].
Qed.

Lemma foldl_insert_lookup {A} (key : A → string) (f : A → ManifestRouteEntry)
    (l : list A) (init : gmap string ManifestRouteEntry) id e :
  foldl (λ routes route, <[key route := f route]> routes) init l !! id = Some e →
  init !! id = Some e ∨ ∃ route, route ∈ l ∧ key route = id ∧ e = f route.
Proof.
  revert init. induction l as [|a l IH]; intros init; simpl; [by left|].
  intros [Hinit|(route & Hin & Hkey & He)]%IH.
  - destruct (decide (key a = id)) as [<-|Hne].
    + rewrite lookup_insert_eq in Hinit. injection Hinit as <-.
      right. exists a. split_and!; [by left|done|done].
    + rewrite lookup_insert_ne in Hinit by done. by left.
  - right. exists route. split_and!; [by right|done|done].
Qed.

Lemma foldl_insert_is_Some {A} (key : A → string) (f : A → ManifestRouteEntry)
    (l : list A) (init : gmap string ManifestRouteEntry) id :
  is_Some (init !! id) ∨ (∃ route, route ∈ l ∧ key route = id) →
  is_Some (foldl (λ routes route, <[key route := f route]> routes) init l !! id).
Proof.
  revert init. induction l as [|a l IH]; intros init; simpl.
  - intros [H|(route & Hin & _)]; [done|by apply elem_of_nil in Hin].
  - intros [H|(route & Hin & Hkey)]; apply IH.
    + left. destruct (decide (key a = id)) as [<-|Hne].
      * by rewrite lookup_insert_eq.
      * by rewrite lookup_insert_ne.
    + apply elem_of_cons in Hin as [->|Hin].
      * left. rewrite <- Hkey. by rewrite lookup_insert_eq.
      * right. by exists route.
Qed.

(** The routes of [assembleManifest]: each entry under its own id,
    made from a scanned route, not prerendered yet; every scanned route
    has an entry. *)
Lemma assembleRoutes_entries pageRoutes apiRoutes com som d :
  (∀ id e, assembleRoutes pageRoutes apiRoutes com som d !! id = Some e →
     e_id e = id
     ∧ e_prerenderedFile e = None ∧ e_prerenderedCount e = None ∧ e_prerendered e = None
     ∧ ((∃ route, route ∈ pageRoutes ∧ r_id route = id
                  ∧ e_pattern e = r_pattern route ∧ e_type e = Page)
        ∨ (∃ route, route ∈ apiRoutes ∧ r_id route = id
                    ∧ e_pattern e = r_pattern route ∧ e_type e = Api)))
  ∧ (∀ route, route ∈ pageRoutes ++ apiRoutes →
       is_Some (assembleRoutes pageRoutes apiRoutes com som d !! r_id route)).
Proof.
  unfold assembleRoutes. split.
  - intros id e [Hpage|(route & Hin & Hkey & ->)]%foldl_insert_lookup.
    + apply foldl_insert_lookup in Hpage as [Hempty|(route & Hin & Hkey & ->)];
        [by rewrite lookup_empty in Hempty|].
      split_and!; try done. left. by exists route.
    + split_and!; try done. right. by exists route.
  - intros route [Hin|Hin]%elem_of_app; apply foldl_insert_is_Some.
    + left. apply foldl_insert_is_Some. right. by exists route.
    + right. by exists route.
Qed.

(** X9. The prerender pass neither adds nor removes a route of the
    manifest, and changes nothing of an entry but its three prerender
    properties; the version, the adapter name and the base are written as
    assembled. *)
Theorem prerender_keeps_manifest env d manifest out :
  prerenderAndWrite env d manifest = Ok out →
  sameRoutesButPrerender (routes manifest) (routes (manifestFile out))
  ∧ version (manifestFile out) = version manifest
  ∧ adapter (manifestFile out) = adapter manifest
  ∧ base (manifestFile out) = base manifest.
Proof.
  unfold prerenderAndWrite.
  destruct (prerenderPass env d _) as [st'|] eqn:Hpass; simpl; [|done].
  intros [= <-]. simpl. split_and!; try done.
  by apply prerenderPass_keeps in Hpass as [Hsame _].
Qed.

Lemma prerender_keeps_manifest_witness :
  ∃ out, Serve.siteBuilt = Ok out
         ∧ sameRoutesButPrerender (routes Demo.siteManifest) (routes (manifestFile out)).
Proof.
  destruct Serve.siteBuilt as [out|] eqn:Hbuilt; [|vm_compute in Hbuilt; discriminate].
  exists out. split; [reflexivity|].
  apply (prerender_keeps_manifest (Demo.env Demo.aboutModule) Demo.siteDetected
           Demo.siteManifest out Hbuilt).
Defined.

Lemma writeFiles_size clientPath files (disk : gmap string Serve.DiskEntry) :
  (size (Serve.writeFiles clientPath files disk) ≤ size disk + length files)%nat
  ∧ (∀ k, is_Some (Serve.writeFiles clientPath files disk !! k)
          ↔ is_Some (disk !! k) ∨ k ∈ clientPath <$> files.*1)
  ∧ (NoDup (clientPath <$> files.*1) →
     (∀ k, k ∈ clientPath <$> files.*1 → disk !! k = None) →
     size (Serve.writeFiles clientPath files disk) = (size disk + length files)%nat).
Proof.
  revert disk. induction files as [|[rel html] files IH]; intros disk.
  { split_and!; [simpl; lia| |simpl; intros; lia].
    intros k. simpl. split; [by left|]. intros [H|H]; [done|by apply elem_of_nil in H]. }
  change (Serve.writeFiles clientPath ((rel, html) :: files) disk)
    with (Serve.writeFiles clientPath files (<[clientPath rel := Serve.File html]> disk)).
  destruct (IH (<[clientPath rel := Serve.File html]> disk)) as (Hle & Hdom & Heq).
  rewrite !fmap_cons. cbn [fst length].
  split_and!.
  - etrans; [exact Hle|].
    destruct (disk !! clientPath rel) as [x|] eqn:Hx.
    + rewrite map_size_insert_Some by done. lia.
    + rewrite map_size_insert_None by done. lia.
  - intros k. rewrite Hdom, elem_of_cons.
    destruct (decide (k = clientPath rel)) as [->|Hne].
    + rewrite lookup_insert_eq. split; [intros _; right; by left|intros _; by left].
    + rewrite lookup_insert_ne by done. tauto.
  - intros [Hfresh Hnd]%NoDup_cons Hnone.
    rewrite Heq; [|done|].
    + rewrite map_size_insert_None; [lia|]. apply Hnone. by left.
    + intros k Hk. rewrite lookup_insert_ne; [apply Hnone; by right|].
      intros <-. done.
Qed.

(** X10. A completed build performs as many writes of HTML files as the
    pages its log reports as prerendered, all routes together. The files
    then found in a client directory that was empty are at most that
    many (two parameter sets that give one pathname are written to one
    file), and exactly that many when the paths written are pairwise
    distinct. *)
Theorem build_files_logged env adapterName base pageRoutes apiRoutes com serm outputs out
    clientPath :
  build env adapterName base pageRoutes apiRoutes com serm outputs = Ok out →
  length (htmlFiles out) = loggedPages (buildLog out)
  ∧ (size (Serve.writeFiles clientPath (htmlFiles out) ∅) ≤ loggedPages (buildLog out))%nat
  ∧ (∀ path, is_Some (Serve.writeFiles clientPath (htmlFiles out) ∅ !! path)
             ↔ path ∈ clientPath <$> (htmlFiles out).*1)
  ∧ (NoDup (clientPath <$> (htmlFiles out).*1) →
     size (Serve.writeFiles clientPath (htmlFiles out) ∅) = loggedPages (buildLog out)).
Proof.
  intros Hbuild.
  assert (length (htmlFiles out) = loggedPages (buildLog out)) as Hwrites.
  { revert Hbuild. unfold build.
    assert (∀ d manifest, prerenderAndWrite env d manifest = Ok out →
                          length (htmlFiles out) = loggedPages (buildLog out)) as Hpass.
    { intros d manifest. unfold prerenderAndWrite.
      destruct (prerenderPass env d _) as [st'|] eqn:Hpass; simpl; [|done].
      intros [= <-]. simpl. apply prerenderPass_keeps in Hpass as [_ Hcount].
      simpl in Hcount. unfold loggedPages at 1 in Hcount. simpl in Hcount. lia. }
    destruct (detectExports env serm outputs noneDetected) as [d|]; simpl.
    - destruct pageRoutes, apiRoutes; try apply Hpass. by intros [= <-].
    - destruct pageRoutes, apiRoutes; try done. by intros [= <-]. }
  destruct (writeFiles_size clientPath (htmlFiles out) ∅) as (Hle & Hdom & Heq).
  rewrite map_size_empty in Hle, Heq.
  split_and!; [done|lia| |].
  - intros path. rewrite Hdom, lookup_empty. split; [intros [[? [=]]|?]; done|by right].
  - intros Hnd. rewrite Heq; [lia|done|]. intros k _. apply lookup_empty.
Qed.


Lemma build_files_logged_witness :
  ∃ out, Demo.buildSite Demo.aboutModule Demo.itemsModule = Ok out
         ∧ length (htmlFiles out) = loggedPages (buildLog out)
         ∧ size (Serve.writeFiles Serve.demoClientPath (htmlFiles out) ∅)
           = loggedPages (buildLog out).
Proof.
  destruct (Demo.buildSite Demo.aboutModule Demo.itemsModule) as [out|] eqn:Hbuild;
    [|vm_compute in Hbuild; discriminate].
  exists out. split; [reflexivity|].
  destruct (build_files_logged _ _ _ _ _ _ _ _ _ Serve.demoClientPath Hbuild)
    as (Hwrites & _ & _ & Hfiles).
  split; [exact Hwrites|]. apply Hfiles.
  vm_compute in Hbuild. injection Hbuild as <-.
  vm_compute. repeat constructor; intros Hin;
    repeat (apply elem_of_cons in Hin as [Hin|Hin]; [discriminate|]);
    by apply elem_of_nil in Hin.
Defined.

(** X11. The manifest a completed build writes has version 1; each of
    its entries is stored under its own id and carries the id and the
    pattern of a scanned route, as a page when it comes from the page
    routes and as an API route when it comes from the API routes; and
    every scanned route has an entry. *)
Theorem build_manifest_entries env adapterName base pageRoutes apiRoutes com serm outputs out :
  build env adapterName base pageRoutes apiRoutes com serm outputs = Ok out →
  version (manifestFile out) = 1%nat
  ∧ (∀ id e, routes (manifestFile out) !! id = Some e →
       e_id e = id
       ∧ ((∃ route, route ∈ pageRoutes ∧ r_id route = id
                    ∧ e_pattern e = r_pattern route ∧ e_type e = Page)
          ∨ (∃ route, route ∈ apiRoutes ∧ r_id route = id
                      ∧ e_pattern e = r_pattern route ∧ e_type e = Api)))
  ∧ (∀ route, route ∈ pageRoutes ++ apiRoutes →
       is_Some (routes (manifestFile out) !! r_id route)).
Proof.
  unfold build. intros Hbuild.
  assert ((∃ d, prerenderAndWrite env d
                  (assembleManifest adapterName base pageRoutes apiRoutes com
                     (buildServerOutputMap serm outputs) d) = Ok out)
          ∨ pageRoutes = [] ∧ apiRoutes = []
            ∧ out = mkBuildOutput (buildEmptyManifest adapterName base) [] [])
    as [[d Hwrite]|(-> & -> & ->)].
  { destruct (detectExports env serm outputs noneDetected) as [d|]; simpl in Hbuild.
    - destruct pageRoutes, apiRoutes; try (left; by exists d).
      right. by injection Hbuild as <-.
    - destruct pageRoutes, apiRoutes; try done.
      right. by injection Hbuild as <-. }
  2:{ split_and!; [done| |].
      - intros id e. simpl. by rewrite lookup_empty.
      - intros route Hin. by apply elem_of_nil in Hin. }
  apply prerender_keeps_manifest in Hwrite as (Hsame & Hversion & _).
  destruct (assembleRoutes_entries pageRoutes apiRoutes com
              (buildServerOutputMap serm outputs) d) as [Hentries Hall].
  split_and!; [done| |].
  - intros id e' He'. specialize (Hsame id). rewrite He' in Hsame. simpl in Hsame.
    destruct (assembleRoutes _ _ _ _ _ !! id) as [e|] eqn:He; [|done].
    destruct (Hentries id e He) as (Hid & _ & _ & _ & Hfrom).
    unfold sameButPrerender in Hsame. rewrite <- Hsame in Hid, Hfrom.
    by destruct e'.
  - intros route Hin. specialize (Hsame (r_id route)). simpl in Hsame.
    destruct (Hall route Hin) as [e He]. rewrite He in Hsame.
    by destruct (routes (manifestFile out) !! r_id route).
Qed.

Lemma build_manifest_entries_witness :
  ∃ out, Demo.buildSite Demo.aboutModule Demo.itemsModule = Ok out
         ∧ version (manifestFile out) = 1%nat
         ∧ is_Some (routes (manifestFile out) !! "/api/items").
Proof.
  destruct (Demo.buildSite Demo.aboutModule Demo.itemsModule) as [out|] eqn:Hbuild;
    [|vm_compute in Hbuild; discriminate].
  destruct (build_manifest_entries _ _ _ _ _ _ _ _ _ Hbuild) as (Hversion & _ & Hall).
  exists out. split_and!; [reflexivity|exact Hversion|].
  apply (Hall Demo.itemsRoute). right. right. left.
Defined.

End BuildMore.

(** ** API routes, from the build to the request *)

Module ApiBuildFacts.
Import ApiRoute Build Kept Recorded ApiFacts BuildMore.

Lemma outputOf_api serm routeId o entryPoint type :
  so_entryPoint o = Some entryPoint → Js.truthy entryPoint = true →
  serm !! entryPoint = Some (routeId, type) →
  outputOf serm routeId o = true.
Proof.
  intros Hep Htruthy Hroute. unfold outputOf.
  by rewrite Hep, Htruthy, Hroute, bool_decide_eq_true_2.
Qed.

Lemma detectOutput_other env serm d o d' routeId :
  outputOf serm routeId o = false →
  detectOutput env serm d o = Ok d' →
  apiMethodsMap d' !! routeId = apiMethodsMap d !! routeId.
Proof.
  unfold outputOf, detectOutput.
  destruct (so_entryPoint o) as [entryPoint|] eqn:Hep; [|by intros _ [= <-]].
  destruct (Js.truthy entryPoint) eqn:Htruthy; simpl; [|by intros _ [= <-]].
  destruct (serm !! entryPoint) as [[rid type]|] eqn:Hroute; [|by intros _ [= <-]].
  intros Hne%bool_decide_eq_false.
  destruct type.
  - destruct (_ || _).
    + destruct (importPage env (so_outputPath o)); simpl; [|done]. by intros [= <-].
    + by intros [= <-].
  - destruct (0 <? _)%nat; intros [= <-]; [|done]. simpl. by rewrite lookup_insert_ne.
Qed.

Lemma detectOutput_recorded env serm d o d' entryPoint routeId :
  so_entryPoint o = Some entryPoint → Js.truthy entryPoint = true →
  serm !! entryPoint = Some (routeId, Api) →
  detectOutput env serm d o = Ok d' →
  apiMethodsMap d !! routeId = None
  ∨ default [] (apiMethodsMap d !! routeId) = recognizedMethods (so_exports o) →
  default [] (apiMethodsMap d' !! routeId) = recognizedMethods (so_exports o).
Proof.
  intros Hep Htruthy Hroute. unfold detectOutput. rewrite Hep, Htruthy, Hroute. simpl.
  destruct (recognizedMethods (so_exports o)) as [|x methods] eqn:Hm; simpl.
  - intros [= <-] [->|Hd]; done.
  - intros [= <-] _. simpl. by rewrite lookup_insert_eq.
Qed.

Section OneOutput.
Variables (env : Env) (serm : gmap string (string * RouteType)).
Variables (o : ServerOutput) (entryPoint routeId : string).
Hypothesis Hep : so_entryPoint o = Some entryPoint.
Hypothesis Htruthy : Js.truthy entryPoint = true.
Hypothesis Hroute : serm !! entryPoint = Some (routeId, Api).

(** Once recorded, the methods stay. *)
Lemma detectExports_stays outputs : ∀ d d',
  (∀ o', o' ∈ outputs → outputOf serm routeId o' = true → o' = o) →
  detectExports env serm outputs d = Ok d' →
  default [] (apiMethodsMap d !! routeId) = recognizedMethods (so_exports o) →
  default [] (apiMethodsMap d' !! routeId) = recognizedMethods (so_exports o).
Proof.
  induction outputs as [|o1 outputs IH]; intros d d' Honly; [by intros [= <-]|].
  simpl. destruct (detectOutput env serm d o1) as [d1|] eqn:Hone; simpl; [|done].
  intros Hrest Hd. apply (IH d1 d'); [intros o' Hin; apply Honly; by right|done|].
  destruct (outputOf serm routeId o1) eqn:Hof.
  - rewrite (Honly o1) in Hone by (by left || done).
    eapply detectOutput_recorded; [done..|by right].
  - by rewrite (detectOutput_other _ _ _ _ _ _ Hof Hone).
Qed.

(** The methods recorded for a route with one server output are the
    recognized export names of that output. *)
Lemma detectExports_recorded outputs : ∀ d d',
  (∀ o', o' ∈ outputs → outputOf serm routeId o' = true → o' = o) →
  o ∈ outputs →
  detectExports env serm outputs d = Ok d' →
  apiMethodsMap d !! routeId = None →
  default [] (apiMethodsMap d' !! routeId) = recognizedMethods (so_exports o).
Proof.
  induction outputs as [|o1 outputs IH]; intros d d' Honly Hin;
    [by apply elem_of_nil in Hin|].
  simpl. destruct (detectOutput env serm d o1) as [d1|] eqn:Hone; simpl; [|done].
  intros Hrest Hd.
  assert (∀ o', o' ∈ outputs → outputOf serm routeId o' = true → o' = o) as Honly'.
  { intros o' Hin'. apply Honly. by right. }
  destruct (outputOf serm routeId o1) eqn:Hof.
  - rewrite (Honly o1) in Hone by (by left || done).
    eapply detectExports_stays; [done|done|].
    eapply detectOutput_recorded; [done..|by left].
  - apply (IH d1 d'); [done| |done|].
    + apply elem_of_cons in Hin as [->|Hin]; [|done].
      by rewrite (outputOf_api _ _ _ _ _ Hep Htruthy Hroute) in Hof.
    + by rewrite (detectOutput_other _ _ _ _ _ _ Hof Hone).
Qed.

(** The server entry kept for the route is the path of that output. *)
Lemma buildServerOutputMap_one outputs :
  (∀ o', o' ∈ outputs → outputOf serm routeId o' = true → o' = o) →
  o ∈ outputs →
  buildServerOutputMap serm outputs !! routeId = Some (so_outputPath o).
Proof.
  intros Honly Hin. unfold buildServerOutputMap.
  induction outputs as [|o1 outputs IH] using rev_ind; [by apply elem_of_nil in Hin|].
  rewrite foldl_app. cbn [foldl].
  assert (∀ o', o' ∈ outputs → outputOf serm routeId o' = true → o' = o) as Honly'.
  { intros o' Hin'. apply Honly. apply elem_of_app. by left. }
  destruct (outputOf serm routeId o1) eqn:Hof.
  - rewrite (Honly o1) by (done || (apply elem_of_app; right; by left)).
    rewrite Hep, Htruthy, Hroute. cbn [negb]. by rewrite lookup_insert_eq.
  - assert (o ∈ outputs) as Hin'.
    { apply elem_of_app in Hin as [Hin|Hin]; [done|].
      apply elem_of_cons in Hin as [->|Hin]; [|by apply elem_of_nil in Hin].
      by rewrite (outputOf_api _ _ _ _ _ Hep Htruthy Hroute) in Hof. }
    unfold outputOf in Hof.
    destruct (so_entryPoint o1) as [ep1|]; [|by apply IH].
    destruct (Js.truthy ep1); simpl in *; [|by apply IH].
    destruct (serm !! ep1) as [[rid ty]|]; [|by apply IH].
    apply bool_decide_eq_false in Hof. rewrite lookup_insert_ne by done. by apply IH.
Qed.

End OneOutput.

(** Every API route of the router is listed in the assembled manifest,
    under its id, as the entry made of an API route with that id. *)
Lemma assembleRoutes_api_entry pageRoutes apiRoutes clientOutputMap serverOutputMap d route :
  route ∈ apiRoutes →
  ∃ route',
    r_id route' = r_id route
    ∧ assembleRoutes pageRoutes apiRoutes clientOutputMap serverOutputMap d !! r_id route
      = Some (apiManifestEntry serverOutputMap d route').
Proof.
  unfold assembleRoutes.
  match goal with
  | |- context [foldl _ (foldl ?f ?init pageRoutes) _] =>
      generalize (foldl f init pageRoutes)
  end.
  induction apiRoutes as [|r apiRoutes IH] using rev_ind; intros routes0 Hin.
  - by apply elem_of_nil in Hin.
  - rewrite foldl_app. simpl.
    destruct (decide (r_id r = r_id route)) as [Heq|Hne].
    + rewrite Heq, lookup_insert_eq. by exists r.
    + rewrite lookup_insert_ne by done. apply IH.
      apply elem_of_app in Hin as [Hin|Hin]; [done|].
      apply elem_of_cons in Hin as [->|Hin]; [done|by apply elem_of_nil in Hin].
Qed.

Lemma sameButPrerender_api e e' importModule reqMethod ctx :
  sameButPrerender e e' →
  e_methods e' = e_methods e
  ∧ handleApiRouteInner importModule reqMethod ctx e'
    = handleApiRouteInner importModule reqMethod ctx e.
Proof.
  unfold sameButPrerender, withPrerender. destruct e, e'; simpl.
  by intros [= -> -> -> -> -> -> -> -> -> -> -> -> ->].
Qed.

(** C5, as the specification words it, fails on an API module that
    exports a recognized name with a value that is no function
    ([export const DELETE = 5]): the build records the name, since it
    reads the export names only, and a DELETE request, though for a
    recorded method, is not dispatched to a handler but answered 500. *)
Lemma api_recorded_not_function_counterexample :
  ∃ out entry response,
    Demo.buildSite Demo.aboutModule Demo.constantModule = Ok out
    ∧ routes (manifestFile out) !! "/api/items" = Some entry
    ∧ e_methods entry = Some ["GET"; "DELETE"]
    ∧ requestMethod (Some "DELETE") ∈ default [] (e_methods entry)
    ∧ getExport Demo.constantModule "DELETE" = Some ExNotFunction
    ∧ handleApiRouteInner (Demo.importItems Demo.constantModule) (Some "DELETE")
        Demo.itemsRequest entry = Ok response
    ∧ status response = 500.
Proof.
  destruct (Demo.buildSite Demo.aboutModule Demo.constantModule) as [out|] eqn:Hbuild;
    [|vm_compute in Hbuild; discriminate].
  destruct (routes (manifestFile out) !! "/api/items") as [entry|] eqn:Hentry;
    [|vm_compute in Hbuild; injection Hbuild as <-; vm_compute in Hentry; discriminate].
  exists out, entry. eexists.
  split; [reflexivity|]. split; [exact Hentry|].
  vm_compute in Hbuild. injection Hbuild as <-.
  vm_compute in Hentry. injection Hentry as <-.
  split; [reflexivity|]. split; [vm_compute; right; left|].
  split; [reflexivity|]. split; [vm_compute; reflexivity|reflexivity].
Qed.

(** C5, amended. For a completed build and an API route whose module the
    bundler compiled to one output, the methods the manifest records for
    the route are exactly the export names of that output that are
    recognized HTTP methods, in the order of the exports. At request
    time, a request whose upper-cased method is not among them is
    answered 405 with an Allow header listing them; a request for a
    recorded method imports the module of that output and is handed to
    the export of that name when it is a function, and is answered 500
    when it is not (or when the output path is empty). *)
Theorem api_method_dispatch env adapterName base pageRoutes apiRoutes com serm outputs out
    route o entryPoint :
  build env adapterName base pageRoutes apiRoutes com serm outputs = Ok out →
  route ∈ apiRoutes →
  o ∈ outputs →
  so_entryPoint o = Some entryPoint → Js.truthy entryPoint = true →
  serm !! entryPoint = Some (r_id route, Api) →
  (∀ o', o' ∈ outputs → outputOf serm (r_id route) o' = true → o' = o) →
  ∃ entry,
    routes (manifestFile out) !! r_id route = Some entry
    ∧ default [] (e_methods entry) = recognizedMethods (so_exports o)
    ∧ (∀ x, x ∈ default [] (e_methods entry) ↔ x ∈ so_exports o ∧ x ∈ HTTP_METHODS)
    ∧ (∀ importModule reqMethod ctx,
         requestMethod reqMethod ∉ recognizedMethods (so_exports o) →
         ∃ response,
           handleApiRouteInner importModule reqMethod ctx entry = Ok response
           ∧ status response = 405
           ∧ headers response
             = [("Content-Type", "application/json");
                ("Allow", Js.join ", " (recognizedMethods (so_exports o)))])
    ∧ (∀ importModule reqMethod ctx,
         requestMethod reqMethod ∈ recognizedMethods (so_exports o) →
         handleApiRouteInner importModule reqMethod ctx entry
         = dispatched importModule (requestMethod reqMethod) ctx (r_id route)
                      (so_outputPath o))
    ∧ (∀ importModule reqMethod ctx m handler,
         requestMethod reqMethod ∈ recognizedMethods (so_exports o) →
         Js.truthy (so_outputPath o) = true →
         importModule (so_outputPath o) = Ok m →
         getExport m (requestMethod reqMethod) = Some (ExFunction handler) →
         handleApiRouteInner importModule reqMethod ctx entry = handler ctx)
    ∧ (∀ importModule reqMethod ctx m,
         requestMethod reqMethod ∈ recognizedMethods (so_exports o) →
         Js.truthy (so_outputPath o) = true →
         importModule (so_outputPath o) = Ok m →
         (∀ handler, getExport m (requestMethod reqMethod) ≠ Some (ExFunction handler)) →
         ∃ response,
           handleApiRouteInner importModule reqMethod ctx entry = Ok response
           ∧ status response = 500).
Proof.
  intros Hbuild Hroute Hin Hep Htruthy Hserm Honly.
  unfold build in Hbuild.
  assert (∃ d, detectExports env serm outputs noneDetected = Ok d
               ∧ prerenderAndWrite env d
                   (assembleManifest adapterName base pageRoutes apiRoutes com
                      (buildServerOutputMap serm outputs) d) = Ok out)
    as (d & Hdetect & Hwrite).
  { destruct apiRoutes as [|r apiRoutes]; [by apply elem_of_nil in Hroute|].
    destruct (detectExports env serm outputs noneDetected) as [d|]; simpl in Hbuild.
    - exists d. split; [done|]. by destruct pageRoutes.
    - by destruct pageRoutes. }
  pose proof (detectExports_recorded env serm o entryPoint (r_id route) Hep Htruthy Hserm
                outputs noneDetected d Honly Hin Hdetect (lookup_empty _)) as Hmethods.
  pose proof (buildServerOutputMap_one serm o entryPoint (r_id route) Hep Htruthy Hserm
                outputs Honly Hin) as Hentry.
  destruct (assembleRoutes_api_entry pageRoutes apiRoutes com
              (buildServerOutputMap serm outputs) d route Hroute) as (route' & Hid & Hassembled).
  unfold prerenderAndWrite in Hwrite.
  destruct (prerenderPass env d _) as [st'|] eqn:Hpass; simpl in Hwrite; [|done].
  injection Hwrite as <-. simpl.
  apply prerenderPass_keeps in Hpass as [Hsame _].
  specialize (Hsame (r_id route)). simpl in Hsame. rewrite Hassembled in Hsame.
  destruct (bs_routes st' !! r_id route) as [entry|]; [|done].
  exists entry.
  assert (default [] (e_methods entry) = recognizedMethods (so_exports o)) as Hrecorded.
  { destruct (sameButPrerender_api _ _ (λ _, Threw "") None Demo.itemsRequest Hsame)
      as [-> _]. simpl. by rewrite Hid. }
  assert (∀ importModule reqMethod ctx,
    requestMethod reqMethod ∈ recognizedMethods (so_exports o) →
    handleApiRouteInner importModule reqMethod ctx entry
    = dispatched importModule (requestMethod reqMethod) ctx (r_id route)
                 (so_outputPath o)) as Hdispatched.
  { intros importModule reqMethod ctx Hyes.
    destruct (sameButPrerender_api _ _ importModule reqMethod ctx Hsame) as [_ ->].
    unfold handleApiRouteInner, dispatched. cbn [apiManifestEntry e_methods e_serverEntry e_id].
    rewrite Hid, Hmethods, Hentry.
    apply includes_elem_of in Hyes. rewrite Hyes. done. }
  split_and!; [done|done| | |done| |].
  - intros x. rewrite Hrecorded. apply elem_of_recognizedMethods.
  - intros importModule reqMethod ctx Hnot. eexists. split.
    + apply handleApiRouteInner_405. by rewrite Hrecorded.
    + rewrite Hrecorded. done.
  - intros importModule reqMethod ctx m handler Hyes Hpath Himport Hexport.
    rewrite Hdispatched by done. unfold dispatched.
    rewrite Hpath, Himport. simpl. by rewrite Hexport.
  - intros importModule reqMethod ctx m Hyes Hpath Himport Hexport.
    rewrite Hdispatched by done. unfold dispatched.
    rewrite Hpath, Himport. simpl.
    destruct (getExport m (requestMethod reqMethod)) as [[handler|]|] eqn:Hget.
    + by destruct (Hexport handler).
    + by eexists.
    + by eexists.
Qed.

Lemma api_method_dispatch_witness :
  ∃ out entry,
    Demo.buildSite Demo.aboutModule Demo.itemsModule = Ok out
    ∧ routes (manifestFile out) !! "/api/items" = Some entry
    ∧ default [] (e_methods entry) = ["GET"]
    ∧ (∃ response,
         handleApiRouteInner (Demo.importItems Demo.itemsModule) (Some "put")
           Demo.itemsRequest entry = Ok response
         ∧ status response = 405
         ∧ headers response = [("Content-Type", "application/json"); ("Allow", "GET")])
    ∧ handleApiRouteInner (Demo.importItems Demo.itemsModule) (Some "get")
        Demo.itemsRequest entry = Ok Demo.okResponse.
Proof.
  destruct (Demo.buildSite Demo.aboutModule Demo.itemsModule) as [out|] eqn:Hbuild;
    [|vm_compute in Hbuild; discriminate].
  destruct (api_method_dispatch _ _ _ _ _ _ _ _ _ Demo.itemsRoute
              (Demo.itemsOutput Demo.itemsModule) "/app/src/routes/api/items/route.ts"
              Hbuild)
    as (entry & Hentry & Hmethods & _ & H405 & Hdispatch & _).
  - left.
  - do 2 right. left.
  - reflexivity.
  - reflexivity.
  - vm_compute; reflexivity.
  - clear Hbuild. intros o' Hin Hof. unfold Demo.siteOutputs in Hin.
    repeat (apply elem_of_cons in Hin as [->|Hin];
            [first [reflexivity | vm_compute in Hof; discriminate Hof]|]).
    apply elem_of_nil in Hin. destruct Hin.
  - exists out, entry. split; [reflexivity|]. split; [exact Hentry|].
    split; [rewrite Hmethods; vm_compute; reflexivity|]. split.
    + destruct (H405 (Demo.importItems Demo.itemsModule) (Some "put") Demo.itemsRequest)
        as (response & Hrun & Hstatus & Hheaders).
      * vm_compute. intros Hin.
        repeat (apply elem_of_cons in Hin as [Hin|Hin]; [discriminate|]).
        by apply elem_of_nil in Hin.
      * exists response. split; [exact Hrun|]. split; [exact Hstatus|].
        rewrite Hheaders. vm_compute. reflexivity.
    + rewrite Hdispatch; [vm_compute; reflexivity|]. vm_compute. left.
Defined.

End ApiBuildFacts.

(** ** Prerendered pages, from the build to the request *)

Module ServeFacts.
Import Matcher Build PrerenderFacts Serve.

Lemma htmlRelPathOf_truthy pathname : Js.truthy (htmlRelPathOf pathname) = true.
Proof.
  unfold htmlRelPathOf. case_bool_decide; [done|].
  destruct (Js.slice1 pathname); done.
Qed.

Lemma writeFiles_app clientPath a b disk :
  writeFiles clientPath (a ++ b) disk = writeFiles clientPath b (writeFiles clientPath a disk).
Proof. unfold writeFiles. by rewrite foldl_app. Qed.

Lemma writeFiles_cons clientPath file files disk :
  writeFiles clientPath (file :: files) disk
  = writeFiles clientPath files (<[clientPath file.1 := File file.2]> disk).
Proof. done. Qed.

Lemma writeFiles_other clientPath files disk abs :
  abs ∉ clientPath <$> files.*1 →
  writeFiles clientPath files disk !! abs = disk !! abs.
Proof.
  revert disk. induction files as [|[rel html] files IH]; intros disk Hnot; [done|].
  rewrite !fmap_cons in Hnot. apply not_elem_of_cons in Hnot as [Hne Hnot].
  rewrite writeFiles_cons, IH by done. by rewrite lookup_insert_ne.
Qed.

(** The file found at a path written once. *)
Lemma writeFiles_lookup clientPath files disk rel html :
  NoDup (clientPath <$> files.*1) → (rel, html) ∈ files →
  writeFiles clientPath files disk !! clientPath rel = Some (File html).
Proof.
  revert disk. induction files as [|[rel' html'] files IH]; intros disk Hnd Hin.
  - by apply elem_of_nil in Hin.
  - rewrite !fmap_cons in Hnd. apply NoDup_cons in Hnd as [Hfresh Hnd].
    rewrite writeFiles_cons.
    apply elem_of_cons in Hin as [[= <- <-]|Hin].
    + rewrite writeFiles_other by done. by rewrite lookup_insert_eq.
    + by apply IH.
Qed.

(** Every rendered page of a completed loop is among its files, with
    the body the adapter rendered for it. *)
Lemma prerenderPages_contents env routeId m component entry total paramSets acc loop params :
  prerenderPages env routeId m component entry total paramSets acc = Ok loop →
  params ∈ paramSets → pageSkipped m entry routeId params = false →
  ∃ data html,
    loadPageData m entry routeId (concretePathname (e_pattern entry) params) params
      = Ok (Some data)
    ∧ renderToHTML env component data
        (mkRenderContext (concretePathname (e_pattern entry) params) params) = Ok html
    ∧ (pagePath entry params, html) ∈ pl_files loop.
Proof.
  assert (∀ paramSets acc loop,
            prerenderPages env routeId m component entry total paramSets acc = Ok loop →
            ∃ more, pl_files loop = pl_files acc ++ more) as Hgrow.
  { clear. induction paramSets as [|params rest IH]; intros acc loop; simpl.
    - intros [= <-]. exists []. by rewrite app_nil_r.
    - destruct (loadPageData _ _ _ _ _) as [[data|]|]; simpl; [|apply IH|done].
      destruct (renderToHTML env component data _) as [bodyHtml|]; simpl; [|done].
      intros Hrun. destruct (IH _ _ Hrun) as [more ->]. simpl.
      eexists. by rewrite <- app_assoc. }
  revert acc. induction paramSets as [|params' rest IH]; intros acc Hrun Hin Hskip.
  - by apply elem_of_nil in Hin.
  - apply elem_of_cons in Hin as [<-|Hin].
    + unfold pageSkipped in Hskip. simpl in Hrun.
      destruct (loadPageData _ _ _ _ _) as [[data|]|]; simpl in Hrun; [|done|done].
      destruct (renderToHTML env component data _) as [bodyHtml|] eqn:Hrender;
        simpl in Hrun; [|done].
      exists data, bodyHtml. split_and!; [done|done|].
      destruct (Hgrow _ _ _ Hrun) as [more ->]. simpl.
      apply elem_of_app. left. apply elem_of_app. right. by left.
    + simpl in Hrun.
      destruct (loadPageData m entry routeId _ params') as [[data|]|];
        simpl in Hrun; [|by eapply IH|done].
      destruct (renderToHTML env component data _) as [bodyHtml|]; simpl in Hrun; [|done].
      by eapply IH.
Qed.

(** One route of the pass whose module has a default export: the loop
    over its parameter sets completed, and what it left. *)
Lemma prerenderRoute_loop env d st routeId cfg entry path m component st' :
  bs_routes st !! routeId = Some entry → e_type entry = Page →
  serverOutputPathMap d !! routeId = Some path → Js.truthy path = true →
  importPage env path = Ok m → pm_default m = Some component →
  prerenderRoute env d st routeId cfg = Ok st' →
  ∃ paramSets loop,
    resolveParamSets cfg = Ok paramSets
    ∧ prerenderPages env routeId m component entry (length paramSets) paramSets
                     (mkPageLoop 0 (e_prerenderedFile entry) []) = Ok loop
    ∧ bs_files st' = bs_files st ++ pl_files loop.
Proof.
  intros Hentry Htype Hpath Htruthy Himport Hdefault.
  unfold prerenderRoute. rewrite Hentry, Htype, Hpath, Htruthy. simpl.
  rewrite Himport. simpl. rewrite Hdefault.
  destruct (resolveParamSets cfg) as [paramSets|]; simpl; [|done].
  destruct (prerenderPages _ _ _ _ _ _ _ _) as [loop|] eqn:Hloop; simpl; [|done].
  intros [= <-]. by exists paramSets, loop.
Qed.

Lemma rendered_single m entry routeId params params0 :
  params ∈ [params0] → pageSkipped m entry routeId params = false →
  last (renderedPages m entry routeId [params0]) = Some params.
Proof.
  intros Hin%list_elem_of_singleton Hskip. subst params0.
  rewrite renderedPages_cons, Hskip. done.
Qed.

Lemma rendered_elem m entry routeId params paramSets :
  params ∈ paramSets → pageSkipped m entry routeId params = false →
  params ∈ renderedPages m entry routeId paramSets.
Proof.
  intros Hin Hskip. unfold renderedPages.
  apply list_elem_of_In, filter_In. split; [by apply list_elem_of_In|].
  by rewrite Hskip.
Qed.

(** The entry a completed pass leaves for a route, and the file of one
    of its rendered pages. *)
Lemma pass_page env serm outputs d manifest out routeId cfg entry path m component
    paramSets params :
  detectExports env serm outputs noneDetected = Ok d →
  prerenderAndWrite env d manifest = Ok out →
  (routeId, cfg) ∈ prerenderMap d →
  routes manifest !! routeId = Some entry → e_type entry = Page →
  e_prerenderedFile entry = None → e_prerenderedCount entry = None →
  serverOutputPathMap d !! routeId = Some path → Js.truthy path = true →
  importPage env path = Ok m → pm_default m = Some component →
  resolveParamSets cfg = Ok paramSets →
  params ∈ paramSets → pageSkipped m entry routeId params = false →
  ∃ entry' data html,
    routes (manifestFile out) !! routeId = Some entry'
    ∧ e_cache entry' = e_cache entry
    ∧ (if (length paramSets =? 1)%nat
       then e_prerenderedFile entry' = Some (pagePath entry params)
            ∧ e_prerenderedCount entry' = None
       else e_prerenderedFile entry' = None
            ∧ ∃ n, e_prerenderedCount entry' = Some (S n))
    ∧ loadPageData m entry routeId (concretePathname (e_pattern entry) params) params
      = Ok (Some data)
    ∧ renderToHTML env component data
        (mkRenderContext (concretePathname (e_pattern entry) params) params) = Ok html
    ∧ (pagePath entry params, html) ∈ htmlFiles out.
Proof.
  intros Hdetect Hwrite Hin Hentry Htype Hfile Hcount Hpath Htruthy Himport Hdefault
         Hsets Hparams Hskip.
  unfold prerenderAndWrite in Hwrite.
  destruct (prerenderPass env d _) as [st'|] eqn:Hpass; simpl in Hwrite; [|done].
  injection Hwrite as <-. simpl.
  unfold prerenderPass in Hpass.
  assert ((0 <? length (prerenderMap d))%nat = true) as Hpos.
  { apply Nat.ltb_lt. destruct (prerenderMap d); [by apply elem_of_nil in Hin|simpl; lia]. }
  rewrite Hpos in Hpass.
  assert (NoDup (prerenderMap d).*1) as Hnd.
  { eapply detectExports_NoDup; [done|]. simpl. apply NoDup_nil_2. }
  destruct (prerenderLoop_route _ _ _ _ _ _ _ Hnd Hin Hpass)
    as (st1 & st2 & more & Hroute & Hbefore & Hafter & Hfiles).
  simpl in Hbefore. rewrite Hentry in Hbefore.
  destruct (prerenderRoute_Ok _ _ _ _ _ _ _ _ _ _ Hbefore Htype Hpath Htruthy Himport
              Hdefault Hroute) as (paramSets' & Hsets' & Hroutes & _).
  destruct (prerenderRoute_loop _ _ _ _ _ _ _ _ _ _ Hbefore Htype Hpath Htruthy Himport
              Hdefault Hroute) as (paramSets'' & loop & Hsets'' & Hloop & Hfiles2).
  rewrite Hsets in Hsets', Hsets''. injection Hsets' as <-. injection Hsets'' as <-.
  destruct (prerenderPages_contents _ _ _ _ _ _ _ _ _ _ Hloop Hparams Hskip)
    as (data & html & Hload & Hrender & Hhtml).
  rewrite Hafter, Hroutes, lookup_insert_eq.
  eexists _, data, html. split_and!; [done|done| |done|done|].
  - cbn [withPrerender e_prerenderedFile e_prerenderedCount]. rewrite Hfile, Hcount.
    destruct paramSets as [|p0 [|p1 rest]].
    + by apply elem_of_nil in Hparams.
    + rewrite (rendered_single _ _ _ _ _ Hparams Hskip). done.
    + pose proof (rendered_elem _ _ _ _ _ Hparams Hskip) as Hr.
      destruct (renderedPages m entry routeId (p0 :: p1 :: rest)) as [|r rs];
        [by apply elem_of_nil in Hr|].
      split; [done|]. by eexists.
  - rewrite Hfiles, Hfiles2. apply elem_of_app. left. apply elem_of_app. by right.
Qed.

(** X12. A page the build rendered is served as built: when the pass
    completes and no two files written fall on the same path of the disk,
    a request for the concrete pathname of a rendered page of a
    prerendered route, matched to the entry of that route in the manifest
    written, is answered with status 200, the file written for that page,
    and the Cache-Control header of the route. *)
Theorem prerendered_page_served clientPath disk env serm outputs d manifest out routeId cfg
    entry path m component paramSets params matched :
  detectExports env serm outputs noneDetected = Ok d →
  prerenderAndWrite env d manifest = Ok out →
  (routeId, cfg) ∈ prerenderMap d →
  routes manifest !! routeId = Some entry → e_type entry = Page →
  e_prerenderedFile entry = None → e_prerenderedCount entry = None →
  serverOutputPathMap d !! routeId = Some path → Js.truthy path = true →
  importPage env path = Ok m → pm_default m = Some component →
  resolveParamSets cfg = Ok paramSets →
  params ∈ paramSets → pageSkipped m entry routeId params = false →
  NoDup (clientPath <$> (htmlFiles out).*1) →
  routes (manifestFile out) !! routeId = Some (mr_entry matched) →
  ∃ data html,
    loadPageData m entry routeId (concretePathname (e_pattern entry) params) params
      = Ok (Some data)
    ∧ renderToHTML env component data
        (mkRenderContext (concretePathname (e_pattern entry) params) params) = Ok html
    ∧ servePrerenderedPageInner clientPath (writeFiles clientPath (htmlFiles out) disk)
        (concretePathname (e_pattern entry) params) matched
      = Ok (pageResponse (e_cache entry) html).
Proof.
  intros Hdetect Hwrite Hin Hentry Htype Hfile Hcount Hpath Htruthy Himport Hdefault
         Hsets Hparams Hskip Hnd Hmatched.
  destruct (pass_page _ _ _ _ _ _ _ _ _ _ _ _ _ _ Hdetect Hwrite Hin Hentry Htype Hfile
              Hcount Hpath Htruthy Himport Hdefault Hsets Hparams Hskip)
    as (entry' & data & html & Hentry' & Hcache & Hflags & Hload & Hrender & Hhtml).
  rewrite Hentry' in Hmatched. injection Hmatched as Hmatched.
  exists data, html. split_and!; [done|done|].
  unfold servePrerenderedPageInner. rewrite <- Hmatched, Hcache.
  assert (servedRelPath entry' (concretePathname (e_pattern entry) params)
          = pagePath entry params) as ->.
  { unfold servedRelPath. destruct (length paramSets =? 1)%nat.
    - destruct Hflags as [-> ->]. unfold pagePath. by rewrite htmlRelPathOf_truthy.
    - by destruct Hflags as [-> _]. }
  by rewrite (writeFiles_lookup _ _ _ _ _ Hnd Hhtml).
Qed.

Lemma prerendered_page_served_witness :
  ∃ out entry' data html,
    siteBuilt = Ok out
    ∧ routes (manifestFile out) !! "/posts/[slug]" = Some entry'
    ∧ loadPageData Demo.postsModule
        (pageManifestEntry ∅ Demo.siteServerOutputMap Demo.siteDetected Demo.postsRoute)
        "/posts/[slug]" "/posts/c" [("slug", "c")] = Ok (Some data)
    ∧ renderToHTML (Demo.env Demo.aboutModule) (mkComponent "Post") data
        (mkRenderContext "/posts/c" [("slug", "c")]) = Ok html
    ∧ servePrerenderedPageInner demoClientPath (writeFiles demoClientPath (htmlFiles out) ∅)
        "/posts/c" (mkMatchResult entry' {[ "slug" := "c" ]})
      = Ok (pageResponse None html).
Proof.
  destruct siteBuilt as [out|] eqn:Hbuilt; [|vm_compute in Hbuilt; discriminate].
  destruct (routes (manifestFile out) !! "/posts/[slug]") as [entry'|] eqn:Hentry'.
  2:{ vm_compute in Hbuilt. injection Hbuilt as <-. vm_compute in Hentry'. discriminate. }
  destruct (prerendered_page_served demoClientPath ∅ (Demo.env Demo.aboutModule)
              Demo.serverEntryRouteMap (Demo.siteOutputs Demo.itemsModule)
              Demo.siteDetected Demo.siteManifest out
              "/posts/[slug]" (PrerenderPaths (Ok Demo.slugs))
              (pageManifestEntry ∅ Demo.siteServerOutputMap Demo.siteDetected Demo.postsRoute)
              "page__posts__slug_.js" Demo.postsModule (mkComponent "Post")
              Demo.slugs [("slug", "c")] (mkMatchResult entry' {[ "slug" := "c" ]}))
    as (data & html & Hload & Hrender & Hserve).
  - apply site_detected.
  - exact Hbuilt.
  - right. left.
  - vm_compute. reflexivity.
  - reflexivity.
  - reflexivity.
  - reflexivity.
  - reflexivity.
  - reflexivity.
  - reflexivity.
  - reflexivity.
  - reflexivity.
  - right. right. left.
  - vm_compute. reflexivity.
  - vm_compute in Hbuilt. injection Hbuilt as <-. vm_compute.
    repeat constructor; intros Hin;
      repeat (apply elem_of_cons in Hin as [Hin|Hin]; [discriminate|]);
      by apply elem_of_nil in Hin.
  - exact Hentry'.
  - exists out, entry', data, html. split_and!; [reflexivity|exact Hentry'|exact Hload|exact Hrender|exact Hserve].
Defined.

(** X13. A route prerendered with one parameter set has that one file
    recorded in the manifest and no count, and the server then answers
    every pathname matched to the route with that file, whatever the
    pathname. *)
Theorem single_page_served_everywhere clientPath disk env serm outputs d manifest out routeId
    cfg entry path m component params matched :
  detectExports env serm outputs noneDetected = Ok d →
  prerenderAndWrite env d manifest = Ok out →
  (routeId, cfg) ∈ prerenderMap d →
  routes manifest !! routeId = Some entry → e_type entry = Page →
  e_prerenderedFile entry = None → e_prerenderedCount entry = None →
  serverOutputPathMap d !! routeId = Some path → Js.truthy path = true →
  importPage env path = Ok m → pm_default m = Some component →
  resolveParamSets cfg = Ok [params] →
  pageSkipped m entry routeId params = false →
  NoDup (clientPath <$> (htmlFiles out).*1) →
  routes (manifestFile out) !! routeId = Some (mr_entry matched) →
  ∃ data html,
    loadPageData m entry routeId (concretePathname (e_pattern entry) params) params
      = Ok (Some data)
    ∧ renderToHTML env component data
        (mkRenderContext (concretePathname (e_pattern entry) params) params) = Ok html
    ∧ ∀ pathname,
        servePrerenderedPageInner clientPath (writeFiles clientPath (htmlFiles out) disk)
          pathname matched
        = Ok (pageResponse (e_cache entry) html).
Proof.
  intros Hdetect Hwrite Hin Hentry Htype Hfile Hcount Hpath Htruthy Himport Hdefault
         Hsets Hskip Hnd Hmatched.
  destruct (pass_page _ _ _ _ _ _ _ _ _ _ _ _ _ params Hdetect Hwrite Hin Hentry Htype
              Hfile Hcount Hpath Htruthy Himport Hdefault Hsets ltac:(by left) Hskip)
    as (entry' & data & html & Hentry' & Hcache & Hflags & Hload & Hrender & Hhtml).
  rewrite Hentry' in Hmatched. injection Hmatched as Hmatched.
  exists data, html. split_and!; [done|done|]. intros pathname.
  unfold servePrerenderedPageInner. rewrite <- Hmatched, Hcache.
  simpl in Hflags. destruct Hflags as [Hf Hc].
  assert (servedRelPath entry' pathname = pagePath entry params) as ->.
  { unfold servedRelPath. rewrite Hf, Hc. unfold pagePath. by rewrite htmlRelPathOf_truthy. }
  by rewrite (writeFiles_lookup _ _ _ _ _ Hnd Hhtml).
Qed.

Lemma single_page_served_everywhere_witness :
  ∃ out entry',
    siteBuilt = Ok out
    ∧ routes (manifestFile out) !! "/about" = Some entry'
    ∧ servePrerenderedPageInner demoClientPath (writeFiles demoClientPath (htmlFiles out) ∅)
        "/about/team" (mkMatchResult entry' ∅)
      = Ok (pageResponse None "<main>About</main>").
Proof.
  destruct siteBuilt as [out|] eqn:Hbuilt; [|vm_compute in Hbuilt; discriminate].
  destruct (routes (manifestFile out) !! "/about") as [entry'|] eqn:Hentry'.
  2:{ vm_compute in Hbuilt. injection Hbuilt as <-. vm_compute in Hentry'. discriminate. }
  destruct (single_page_served_everywhere demoClientPath ∅ (Demo.env Demo.aboutModule)
              Demo.serverEntryRouteMap (Demo.siteOutputs Demo.itemsModule)
              Demo.siteDetected Demo.siteManifest out
              "/about" PrerenderTrue
              (pageManifestEntry ∅ Demo.siteServerOutputMap Demo.siteDetected Demo.aboutRoute)
              "page__about.js" Demo.aboutModule (mkComponent "About")
              [] (mkMatchResult entry' ∅))
    as (data & html & Hload & Hrender & Hserve).
  - apply site_detected.
  - exact Hbuilt.
  - left.
  - vm_compute. reflexivity.
  - reflexivity.
  - reflexivity.
  - reflexivity.
  - reflexivity.
  - reflexivity.
  - reflexivity.
  - reflexivity.
  - reflexivity.
  - reflexivity.
  - vm_compute in Hbuilt. injection Hbuilt as <-. vm_compute.
    repeat constructor; intros Hin;
      repeat (apply elem_of_cons in Hin as [Hin|Hin]; [discriminate|]);
      by apply elem_of_nil in Hin.
  - exact Hentry'.
  - exists out, entry'. split_and!; [reflexivity|exact Hentry'|].
    rewrite (Hserve "/about/team"). injection Hload as <-.
    injection Hrender as <-. reflexivity.
Defined.

End ServeFacts.

(** ** From the pathname the build writes back to the route *)

Module PathnameFacts.
Import Matcher Shape Bindings Build Text JsFacts MatcherFacts MatcherMore.

Lemma append_assoc a b c : (a +:+ b) +:+ c = a +:+ (b +:+ c).
Proof.
  induction a as [|x a IH]; [done|].
  change (String x ((a +:+ b) +:+ c) = String x (a +:+ (b +:+ c))). by rewrite IH.
Qed.

Lemma append_nil_r a : a +:+ "" = a.
Proof.
  induction a as [|x a IH]; [done|].
  change (String x (a +:+ "") = String x a). by rewrite IH.
Qed.

Lemma hasChar_app c a b : hasChar c (a +:+ b) = hasChar c a || hasChar c b.
Proof.
  induction a as [|x a IH]; [done|].
  change (bool_decide (x = c) || hasChar c (a +:+ b)
          = bool_decide (x = c) || hasChar c a || hasChar c b).
  by rewrite IH, orb_assoc.
Qed.

Lemma slashed_cons x l : slashed (x :: l) = "/" +:+ x +:+ slashed l.
Proof. done. Qed.

Lemma slashed_join l : l ≠ [] → "/" +:+ Js.join "/" l = slashed l.
Proof.
  induction l as [|x l IH]; [done|]. intros _.
  destruct l as [|y l].
  - rewrite slashed_cons. change (slashed []) with "". by rewrite append_nil_r.
  - rewrite slashed_cons, <- IH by done.
    change (Js.join "/" (x :: y :: l)) with (x +:+ "/" +:+ Js.join "/" (y :: l)).
    done.
Qed.

Lemma slashed_app a b : slashed (a ++ b) = slashed a +:+ slashed b.
Proof.
  induction a as [|x a IH]; [done|].
  change ((x :: a) ++ b) with (x :: (a ++ b)).
  rewrite !slashed_cons, IH.
  change ("/" +:+ x +:+ slashed a +:+ slashed b = ("/" +:+ (x +:+ slashed a)) +:+ slashed b).
  by rewrite !append_assoc.
Qed.

Lemma hasChar_slashed c l :
  c ≠ "/"%char → Forall (λ s, hasChar c s = false) l → hasChar c (slashed l) = false.
Proof.
  intros Hc. induction 1 as [|x l Hx Hl IH]; [done|].
  rewrite slashed_cons.
  change (hasChar c ("/" +:+ x +:+ slashed l))
    with (bool_decide ("/"%char = c) || hasChar c (x +:+ slashed l)).
  rewrite hasChar_app, Hx, IH.
  by rewrite bool_decide_eq_false_2 by (intros ?; by subst).
Qed.

(** *** [replace] *)

Lemma prefix_app p s : String.prefix p (p +:+ s) = true.
Proof.
  induction p as [|c p IH]; simpl; [by destruct s|].
  destruct (ascii_dec c c); [done|done].
Qed.

Lemma sliceFrom_app p s : Js.sliceFrom (String.length p) (p +:+ s) = s.
Proof. induction p as [|c p IH]; simpl; [done|done]. Qed.

Lemma splitAtFirst_prefix pat s :
  String.prefix pat s = true →
  Js.splitAtFirst pat s = Some ("", Js.sliceFrom (String.length pat) s).
Proof. intros Hp. destruct s; cbn [Js.splitAtFirst]; by rewrite Hp. Qed.

Lemma splitAtFirst_here pat s : Js.splitAtFirst pat (pat +:+ s) = Some ("", s).
Proof. by rewrite splitAtFirst_prefix, sliceFrom_app by apply prefix_app. Qed.

Lemma prefix_cons_ne a b p s : a ≠ b → String.prefix (String a p) (String b s) = false.
Proof. intros Hne. cbn [String.prefix]. by destruct (ascii_dec a b). Qed.

Lemma splitAtFirst_colon key before after :
  hasChar ":" before = false →
  Js.splitAtFirst (":" +:+ key) (before +:+ ":" +:+ key +:+ after) = Some (before, after).
Proof.
  induction before as [|c before IH]; intros Hno.
  - change ("" +:+ ":" +:+ key +:+ after) with ((":" +:+ key) +:+ after).
    apply splitAtFirst_here.
  - simpl in Hno. apply orb_false_iff in Hno as [Hc Hno].
    apply bool_decide_eq_false in Hc.
    change (String c before +:+ ":" +:+ key +:+ after)
      with (String c (before +:+ ":" +:+ key +:+ after)).
    cbn [Js.splitAtFirst]. 
    replace (String.prefix (":" +:+ key) (String c (before +:+ ":" +:+ key +:+ after)))
      with false.
    + by rewrite (IH Hno).
    + symmetry. by apply (prefix_cons_ne ":" c key).
Qed.

Lemma expandReplacement_plain matched before after repl :
  hasChar "$" repl = false → Js.expandReplacement matched before after repl = repl.
Proof.
  induction repl as [|c repl IH]; [done|]. simpl.
  intros [Hc Hno]%orb_false_iff. rewrite Hc. by rewrite IH.
Qed.

Lemma replace_colon key before after value :
  hasChar ":" before = false → hasChar "$" value = false →
  Js.replace (before +:+ ":" +:+ key +:+ after) (":" +:+ key) value
  = before +:+ value +:+ after.
Proof.
  intros Hb Hv. unfold Js.replace. rewrite splitAtFirst_colon by done.
  by rewrite expandReplacement_plain.
Qed.

(** *** [split] *)

Lemma split_app_plain s t :
  hasChar "/" s = false →
  Js.split (s +:+ t) = match Js.split t with
                       | piece :: pieces => (s +:+ piece) :: pieces
                       | [] => [s]
                       end.
Proof.
  induction s as [|c s IH]; intros Hno.
  - simpl. destruct (Js.split t) eqn:Ht; [by apply split_nonempty in Ht|done].
  - simpl in Hno. apply orb_false_iff in Hno as [Hc Hno].
    change (String c s +:+ t) with (String c (s +:+ t)).
    cbn [Js.split]. rewrite Hc, (IH Hno).
    destruct (Js.split t) eqn:Ht; [by apply split_nonempty in Ht|done].
Qed.

Lemma split_slashed l :
  Forall (λ s, hasChar "/" s = false) l → Js.split (slashed l) = "" :: l.
Proof.
  induction 1 as [|x l Hx Hl IH]; [done|].
  rewrite slashed_cons.
  change ("/" +:+ x +:+ slashed l) with (String "/" (x +:+ slashed l)).
  cbn [Js.split]. rewrite bool_decide_eq_true_2 by done.
  by rewrite split_app_plain, IH, append_nil_r.
Qed.

Lemma segmentsOf_slashed l :
  Forall (λ s, s ≠ "" ∧ hasChar "/" s = false) l → segmentsOf (slashed l) = l.
Proof.
  intros Hl. unfold segmentsOf. rewrite split_slashed.
  - rewrite filter_cons_False by (simpl; tauto).
    induction Hl as [|x l [Hx _] Hl IH]; [done|].
    rewrite filter_cons_True by (by destruct x). by rewrite IH.
  - eapply Forall_impl; [done|]. by intros s [_ ?].
Qed.

(** *** Literal segments in front of a pattern *)

Lemma startsWith_hasChar c s : hasChar c s = false → Js.startsWith (String c "") s = false.
Proof.
  destruct s as [|c' s]; [done|]. simpl. intros [Hc _]%orb_false_iff.
  apply bool_decide_eq_false in Hc. unfold Js.startsWith.
  apply prefix_cons_ne. by intros ->.
Qed.

Lemma plainSegment_literal s :
  plainSegment s → Js.startsWith "*" s = false ∧ Js.startsWith ":" s = false.
Proof. intros (_ & _ & Hcolon & Hstar). split; by apply startsWith_hasChar. Qed.

Lemma shape_plain_app lits rest :
  Forall plainSegment lits → shape (lits ++ rest) = (KStatic <$> lits) ++ shape rest.
Proof.
  induction 1 as [|x lits Hx Hl IH]; [done|].
  destruct (plainSegment_literal _ Hx) as [Hstar Hcolon].
  change ((x :: lits) ++ rest) with (x :: (lits ++ rest)).
  by rewrite shape_cons, Hstar, Hcolon, IH.
Qed.

Lemma shapeMatches_static_app lits sh segments :
  shapeMatches ((KStatic <$> lits) ++ sh) (lits ++ segments) = shapeMatches sh segments.
Proof.
  induction lits as [|x lits IH]; [done|].
  rewrite fmap_cons. cbn [app shapeMatches]. by rewrite bool_decide_eq_true_2, IH.
Qed.

Lemma bindParams_plain_app lits patternSegments segments params :
  Forall plainSegment lits →
  bindParams (lits ++ patternSegments) (lits ++ segments) params
  = bindParams patternSegments segments params.
Proof.
  induction 1 as [|x lits Hx Hl IH]; [done|].
  destruct (plainSegment_literal _ Hx) as [Hstar Hcolon].
  cbn [app bindParams]. by rewrite Hstar, Hcolon, IH.
Qed.

Lemma startsWith_star_colon key : Js.startsWith "*" (":" +:+ key) = false.
Proof. by apply (prefix_cons_ne "*" ":" "" key). Qed.

Lemma startsWith_colon_colon key : Js.startsWith ":" (":" +:+ key) = true.
Proof. apply (prefix_app ":" key). Qed.

Lemma plain_slashfree lits :
  Forall plainSegment lits → Forall (λ s, s ≠ "" ∧ hasChar "/" s = false) lits.
Proof. intros H. eapply Forall_impl; [exact H|]. by intros s (? & ? & _). Qed.

(** X14. The pathname the build makes for a parameter set leads back
    to the route: for a pattern of literal segments around one parameter,
    and a value that is not empty and has no slash and no dollar sign,
    [concretePathname] is the pattern with the value in place of the
    parameter, and the matcher of that route resolves this pathname to
    the route with the parameter bound to the value; except that a
    parameter named [__proto__] is left unbound, the parameter object
    being empty. *)
Theorem prerender_pathname_round_trip e lits1 key lits2 value :
  e_pattern e = "/" +:+ Js.join "/" (lits1 ++ [":" +:+ key] ++ lits2) →
  Forall plainSegment lits1 → Forall plainSegment lits2 →
  hasChar "/" key = false →
  value ≠ "" → hasChar "/" value = false → hasChar "$" value = false →
  concretePathname (e_pattern e) [(key, value)]
  = "/" +:+ Js.join "/" (lits1 ++ [value] ++ lits2)
  ∧ buildMatcher_match [e] (concretePathname (e_pattern e) [(key, value)])
    = Some (mkMatchResult e (if bool_decide (key = "__proto__") then ∅
                             else {[ key := value ]})).
Proof.
  intros Hpattern H1 H2 Hkey Hvalue Hslash Hdollar.
  assert (e_pattern e = (slashed lits1 +:+ "/") +:+ ":" +:+ key +:+ slashed lits2) as Hp.
  { rewrite Hpattern, slashed_join by (by destruct lits1).
    rewrite slashed_app. change (slashed ([":" +:+ key] ++ lits2))
      with ("/" +:+ (":" +:+ key) +:+ slashed lits2).
    by rewrite !append_assoc. }
  assert (concretePathname (e_pattern e) [(key, value)]
          = slashed (lits1 ++ [value] ++ lits2)) as Hpath.
  { unfold concretePathname. cbn [foldl fst snd]. rewrite Hp, replace_colon; [|.. ].
    - rewrite slashed_app. change (slashed ([value] ++ lits2))
        with ("/" +:+ value +:+ slashed lits2).
      by rewrite !append_assoc.
    - rewrite hasChar_app. rewrite hasChar_slashed; [done|done|].
      eapply Forall_impl; [exact H1|]. by intros s (_ & _ & ? & _).
    - done. }
  split.
  { rewrite Hpath. by rewrite slashed_join by (by destruct lits1). }
  rewrite Hpath. unfold buildMatcher_match, match_, buildMatcher. cbn [foldl].
  unfold insertRoute.
  rewrite !splitSegments_segmentsOf.
  rewrite Hpattern, slashed_join by (by destruct lits1).
  rewrite !segmentsOf_slashed.
  - rewrite matchSegments_single.
    + rewrite bindParams_plain_app by done. cbn [app bindParams].
      rewrite startsWith_star_colon, startsWith_colon_colon.
      cbn [Js.slice1 append].
      rewrite <- (app_nil_r lits2) at 1 2.
      rewrite bindParams_plain_app by done. cbn [bindParams].
      case_bool_decide as Hproto.
      * subst key. by rewrite JsFacts.assign_proto.
      * by rewrite JsFacts.assign_ne, insert_empty.
    + rewrite shape_plain_app by done. rewrite shapeMatches_static_app.
      cbn [app]. rewrite shape_cons, startsWith_star_colon, startsWith_colon_colon.
      cbn [shapeMatches].
      rewrite <- (app_nil_r lits2) at 1. rewrite shape_plain_app by done.
      rewrite <- (app_nil_r lits2) at 2. by rewrite shapeMatches_static_app.
  - apply Forall_app. split; [by apply plain_slashfree|].
    apply Forall_cons. split; [done|by apply plain_slashfree].
  - apply Forall_app. split; [by apply plain_slashfree|].
    apply Forall_cons. split; [|by apply plain_slashfree].
    split; [done|]. exact Hkey.
Qed.

Lemma prerender_pathname_round_trip_witness :
  concretePathname "/posts/:slug/comments" [("slug", "a")] = "/posts/a/comments"
  ∧ buildMatcher_match [Demo.page "/posts/:slug/comments"]
      (concretePathname "/posts/:slug/comments" [("slug", "a")])
    = Some (mkMatchResult (Demo.page "/posts/:slug/comments") {[ "slug" := "a" ]}).
Proof.
  apply (prerender_pathname_round_trip (Demo.page "/posts/:slug/comments")
           ["posts"] "slug" ["comments"] "a").
  - reflexivity.
  - repeat constructor; done.
  - repeat constructor; done.
  - reflexivity.
  - done.
  - reflexivity.
  - reflexivity.
Defined.

End PathnameFacts.

(** ** File names of the bundles *)

Module NamesFacts.
Import Text Names PathnameFacts.

Lemma hasChar_replaceAllChar_gone c repl s :
  hasChar c repl = false → hasChar c (replaceAllChar c repl s) = false.
Proof.
  intros Hrepl. induction s as [|c' s IH]; [done|].
  cbn [replaceAllChar]. case_bool_decide as Hc.
  - by rewrite hasChar_app, Hrepl, IH.
  - cbn [hasChar]. by rewrite bool_decide_eq_false_2, IH.
Qed.

Lemma hasChar_replaceAllChar_kept d c repl s :
  hasChar d repl = false → hasChar d s = false →
  hasChar d (replaceAllChar c repl s) = false.
Proof.
  intros Hrepl. induction s as [|c' s IH]; [done|].
  cbn [hasChar replaceAllChar]. intros [Hd Hs]%orb_false_iff.
  destruct (bool_decide (c' = c)).
  - by rewrite hasChar_app, Hrepl, IH.
  - cbn [hasChar]. by rewrite Hd, IH.
Qed.

Lemma replaceEllipsis_cons a s :
  replaceEllipsis (String a s)
  = match s with
    | String b (String c rest) =>
        if bool_decide (a = "."%char) && bool_decide (b = "."%char)
           && bool_decide (c = "."%char)
        then "_rest" +:+ replaceEllipsis rest
        else String a (replaceEllipsis s)
    | _ => String a (replaceEllipsis s)
    end.
Proof. done. Qed.

Lemma hasChar_replaceEllipsis d s :
  hasChar d "_rest" = false → hasChar d s = false →
  hasChar d (replaceEllipsis s) = false.
Proof.
  intros Hrepl.
  assert (∀ n s, (String.length s ≤ n)%nat → hasChar d s = false →
                 hasChar d (replaceEllipsis s) = false) as Hall.
  { induction n as [|n IH]; intros [|a t] Hlen Hs; try done; [simpl in Hlen; lia|].
    rewrite replaceEllipsis_cons.
    cbn [hasChar] in Hs. apply orb_false_iff in Hs as [Ha Ht].
    simpl in Hlen.
    assert (hasChar d (String a (replaceEllipsis t)) = false) as Hkeep.
    { cbn [hasChar]. rewrite Ha. apply IH; [lia|done]. }
    destruct t as [|b [|c rest]]; try done.
    destruct (_ && _); [|done].
    rewrite hasChar_app, Hrepl. apply IH.
    - simpl in Hlen. lia.
    - cbn [hasChar] in Ht. by repeat (apply orb_false_iff in Ht as [_ Ht]). }
  intros Hs. by apply (Hall (String.length s)).
Qed.

(** X15. The safe name of a route id holds no slash and no square
    bracket, whatever the id, so it is a single path component. *)
Theorem routeIdToSafeName_no_separator routeId :
  hasChar "/" (routeIdToSafeName routeId) = false
  ∧ hasChar "[" (routeIdToSafeName routeId) = false
  ∧ hasChar "]" (routeIdToSafeName routeId) = false.
Proof.
  unfold routeIdToSafeName. case_bool_decide; [done|].
  split_and!.
  - by apply hasChar_replaceAllChar_gone.
  - apply hasChar_replaceAllChar_kept; [done|].
    apply hasChar_replaceEllipsis; [done|].
    apply hasChar_replaceAllChar_kept; [done|].
    by apply hasChar_replaceAllChar_gone.
  - apply hasChar_replaceAllChar_kept; [done|].
    apply hasChar_replaceEllipsis; [done|].
    by apply hasChar_replaceAllChar_gone.
Qed.

End NamesFacts.

(** ** The search for a free port *)

Module PortsFacts.
Import Ports.
Local Open Scope Z_scope.

Lemma validPort_true port : validPort port = true ↔ 0 ≤ port ≤ 65535.
Proof. unfold validPort. by rewrite bool_decide_eq_true. Qed.

Lemma validPort_false port : validPort port = false ↔ ¬ (0 ≤ port ≤ 65535).
Proof. unfold validPort. by rewrite bool_decide_eq_false. Qed.

Lemma tryPort_cons listen noPort inExecutor remaining port :
  tryPort listen noPort inExecutor (S remaining) port
  = if validPort port then
      match listen port with
      | Listening => Resolved port
      | AddrInUse => tryPort listen noPort false remaining (port + 1)
      | OtherError err => Rejected (ListenError err)
      end
    else if inExecutor then Rejected (BadPort port)
    else Unsettled.
Proof. done. Qed.

Lemma tryPort_Resolved listen noPort inExecutor remaining port p :
  tryPort listen noPort inExecutor remaining port = Resolved p ↔
  port ≤ p < port + Z.of_nat remaining ∧ 0 ≤ port ∧ p ≤ 65535
  ∧ listen p = Listening
  ∧ ∀ q, port ≤ q < p → listen q = AddrInUse.
Proof.
  revert inExecutor port.
  induction remaining as [|remaining IH]; intros inExecutor port.
  - split; [done|]. intros [? _]. lia.
  - rewrite tryPort_cons. destruct (validPort port) eqn:Hvalid.
    + apply validPort_true in Hvalid.
      destruct (listen port) eqn:Hport.
      * split.
        -- intros [= <-]. split_and!; [lia|lia|lia|lia|done|]. intros q ?. lia.
        -- intros (Hrange & _ & _ & Hp & Hbusy). f_equal.
           destruct (decide (p = port)) as [->|Hne]; [done|].
           specialize (Hbusy port ltac:(lia)). congruence.
      * rewrite IH. split.
        -- intros (Hrange & ? & ? & Hp & Hbusy). split_and!; [lia|lia|lia|done|done|].
           intros q Hq. destruct (decide (q = port)) as [->|Hne]; [done|].
           apply Hbusy. lia.
        -- intros (Hrange & ? & ? & Hp & Hbusy).
           assert (p ≠ port) by (intros ->; congruence).
           split_and!; [lia|lia|lia|done|done|]. intros q Hq. apply Hbusy. lia.
      * split; [done|]. intros (Hrange & _ & _ & Hp & Hbusy).
        destruct (decide (p = port)) as [->|Hne]; [congruence|].
        specialize (Hbusy port ltac:(lia)). congruence.
    + apply validPort_false in Hvalid.
      split; [by destruct inExecutor|]. intros (Hrange & ? & ? & _). lia.
Qed.

Lemma tryPort_noPort listen noPort inExecutor remaining port :
  (∀ q, port ≤ q < port + Z.of_nat remaining → 0 ≤ q ≤ 65535 ∧ listen q = AddrInUse) →
  tryPort listen noPort inExecutor remaining port = Rejected (NoAvailablePort noPort).
Proof.
  revert inExecutor port.
  induction remaining as [|remaining IH]; intros inExecutor port Hbusy; [done|].
  rewrite tryPort_cons.
  destruct (Hbusy port ltac:(lia)) as [Hvalid ->].
  apply validPort_true in Hvalid. rewrite Hvalid.
  apply IH. intros q Hq. apply Hbusy. lia.
Qed.

Lemma tryPort_error listen noPort inExecutor remaining port p err :
  port ≤ p < port + Z.of_nat remaining → 0 ≤ port → p ≤ 65535 →
  listen p = OtherError err →
  (∀ q, port ≤ q < p → listen q = AddrInUse) →
  tryPort listen noPort inExecutor remaining port = Rejected (ListenError err).
Proof.
  revert inExecutor port.
  induction remaining as [|remaining IH]; intros inExecutor port Hrange H0 Hmax Hp Hbusy.
  - lia.
  - rewrite tryPort_cons.
    rewrite (proj2 (validPort_true port)) by lia.
    destruct (decide (p = port)) as [->|Hne].
    + by rewrite Hp.
    + rewrite (Hbusy port) by lia. apply IH; [lia|lia|done|done|].
      intros q Hq. apply Hbusy. lia.
Qed.

Lemma tryPort_Unsettled listen noPort remaining port :
  0 ≤ port ≤ 65536 → port + Z.of_nat remaining > 65536 →
  (∀ q, port ≤ q ≤ 65535 → listen q = AddrInUse) →
  tryPort listen noPort false remaining port = Unsettled.
Proof.
  revert port.
  induction remaining as [|remaining IH]; intros port H0 Hpast Hbusy.
  - lia.
  - rewrite tryPort_cons.
    destruct (validPort port) eqn:Hvalid; [|done].
    apply validPort_true in Hvalid.
    rewrite (Hbusy port) by lia.
    apply IH; [lia|lia|]. intros q Hq. apply Hbusy. lia.
Qed.

(** X16. [findAvailablePort], for an integer start port and an integer
    number of attempts (20 by default), resolves with a port exactly when
    that port is the first one from [startPort] on that can be listened
    on, every port before it being in use, and it lies within the
    attempts allowed and within 0..65535. It rejects with the no-port
    message when all the ports tried are in that range and in use (and
    when no attempt is allowed), with the error of the first port that
    fails otherwise, and with the range error of [listen] when the start
    port itself is out of range. When the ports in use reach up to 65535
    and an attempt is left, [listen] throws inside the [error] handler
    and the promise is never settled. *)
Theorem findAvailablePort_first_free listen startPort maxAttempts :
  let attempts := Z.of_nat (Z.to_nat (default 20 maxAttempts)) in
  (∀ p, findAvailablePort listen startPort maxAttempts = Resolved p ↔
        startPort ≤ p < startPort + attempts ∧ 0 ≤ startPort ∧ p ≤ 65535
        ∧ listen p = Listening
        ∧ ∀ q, startPort ≤ q < p → listen q = AddrInUse)
  ∧ ((∀ q, startPort ≤ q < startPort + attempts →
           0 ≤ q ≤ 65535 ∧ listen q = AddrInUse) →
     findAvailablePort listen startPort maxAttempts
     = Rejected (NoAvailablePort (noPortMessage startPort (default 20 maxAttempts))))
  ∧ (∀ p err,
       startPort ≤ p < startPort + attempts → 0 ≤ startPort → p ≤ 65535 →
       listen p = OtherError err →
       (∀ q, startPort ≤ q < p → listen q = AddrInUse) →
       findAvailablePort listen startPort maxAttempts = Rejected (ListenError err))
  ∧ (0 < attempts → ¬ (0 ≤ startPort ≤ 65535) →
     findAvailablePort listen startPort maxAttempts = Rejected (BadPort startPort))
  ∧ (0 ≤ startPort ≤ 65535 → startPort + attempts > 65536 →
     (∀ q, startPort ≤ q ≤ 65535 → listen q = AddrInUse) →
     findAvailablePort listen startPort maxAttempts = Unsettled).
Proof.
  intros attempts. unfold findAvailablePort. split_and!.
  - intros p. apply tryPort_Resolved.
  - apply tryPort_noPort.
  - intros p err. apply tryPort_error.
  - intros Hpos Hbad. subst attempts.
    destruct (Z.to_nat (default 20 maxAttempts)) as [|remaining]; [lia|].
    rewrite tryPort_cons. by rewrite (proj2 (validPort_false startPort)).
  - intros Hvalid Hpast Hbusy. subst attempts.
    destruct (Z.to_nat (default 20 maxAttempts)) as [|remaining]; [lia|].
    rewrite tryPort_cons. rewrite (proj2 (validPort_true startPort)) by done.
    rewrite (Hbusy startPort) by lia.
    apply tryPort_Unsettled; [lia|lia|]. intros q Hq. apply Hbusy. lia.
Qed.

Lemma findAvailablePort_first_free_witness :
  findAvailablePort (λ p, if p <? 3002 then AddrInUse else Listening) 3000 None
  = Resolved 3002
  ∧ findAvailablePort (λ _, AddrInUse) 65535 None = Unsettled.
Proof.
  pose proof (findAvailablePort_first_free
                (λ p, if p <? 3002 then AddrInUse else Listening) 3000 None)
    as (Hresolved & _).
  pose proof (findAvailablePort_first_free (λ _, AddrInUse) 65535 None)
    as (_ & _ & _ & _ & Hunsettled).
  split.
  - apply Hresolved. split_and!; [simpl; lia|simpl; lia|lia|lia|reflexivity|].
    intros q Hq. by rewrite (proj2 (Z.ltb_lt q 3002)) by lia.
  - apply Hunsettled; [lia|simpl; lia|done].
Defined.

End PortsFacts.

(** ** A request for a prerendered page *)

Module ServerFacts.
Import Matcher Shape Build Kept Text Middleware Serve Server.
Import MatcherFacts MatcherMore PrerenderFacts BuildMore ServeFacts MiddlewareFacts.

Lemma beforeQuery_plain url : hasChar "?" url = false → beforeQuery url = url.
Proof.
  induction url as [|c url IH]; [done|]. cbn [hasChar beforeQuery].
  intros [Hc Hno]%orb_false_iff. by rewrite Hc, IH.
Qed.

(** The pattern of an all-literal route resolves to the route. *)
Lemma match_literal routes e :
  e ∈ routes → allLiteral (splitSegments (e_pattern e)) →
  NoDup (patternShape <$> routes) →
  buildMatcher_match routes (e_pattern e) = Some (mkMatchResult e ∅).
Proof.
  intros Hin Hlit Hnd.
  destruct (lookupShape_buildMatcher_registered _ _ Hin) as [[e' name] Hl].
  destruct (lookupShape_buildMatcher _ _ _ _ Hl) as (Hin' & Hshape & _).
  assert (e' = e) as -> by by eapply NoDup_fmap_eq.
  unfold patternShape in Hl. rewrite shape_allLiteral in Hl by done.
  unfold buildMatcher_match, match_.
  by rewrite (matchSegments_literal _ _ _ _ _ Hl).
Qed.

(** A route of the pass whose module has a default export is marked
    prerendered in the manifest written. *)
Lemma prerender_flag env serm outputs d manifest out routeId cfg entry path m component
    entry' :
  detectExports env serm outputs noneDetected = Ok d →
  prerenderAndWrite env d manifest = Ok out →
  (routeId, cfg) ∈ prerenderMap d →
  routes manifest !! routeId = Some entry → e_type entry = Page →
  serverOutputPathMap d !! routeId = Some path → Js.truthy path = true →
  importPage env path = Ok m → pm_default m = Some component →
  routes (manifestFile out) !! routeId = Some entry' →
  e_prerendered entry' = Some true.
Proof.
  intros Hdetect Hwrite Hin Hentry Htype Hpath Htruthy Himport Hdefault Hentry'.
  unfold prerenderAndWrite in Hwrite.
  destruct (prerenderPass env d _) as [st'|] eqn:Hpass; simpl in Hwrite; [|done].
  injection Hwrite as <-. simpl in Hentry'.
  unfold prerenderPass in Hpass.
  assert ((0 <? length (prerenderMap d))%nat = true) as Hpos.
  { apply Nat.ltb_lt. destruct (prerenderMap d); [by apply elem_of_nil in Hin|simpl; lia]. }
  rewrite Hpos in Hpass.
  assert (NoDup (prerenderMap d).*1) as Hnd.
  { eapply detectExports_NoDup; [done|]. simpl. apply NoDup_nil_2. }
  destruct (prerenderLoop_route _ _ _ _ _ _ _ Hnd Hin Hpass)
    as (st1 & st2 & more & Hroute & Hbefore & Hafter & Hfiles).
  simpl in Hbefore. rewrite Hentry in Hbefore.
  destruct (prerenderRoute_Ok _ _ _ _ _ _ _ _ _ _ Hbefore Htype Hpath Htruthy Himport
              Hdefault Hroute) as (paramSets & _ & Hroutes & _).
  rewrite Hafter, Hroutes, lookup_insert_eq in Hentry'. by injection Hentry' as <-.
Qed.

Lemma hasChar_htmlRelPathOf pathname :
  hasChar "?" pathname = false → hasChar "?" (htmlRelPathOf pathname) = false.
Proof.
  intros Hno. unfold htmlRelPathOf. case_bool_decide; [done|].
  rewrite PathnameFacts.hasChar_app. destruct pathname as [|c rest]; [done|].
  cbn [hasChar] in Hno. apply orb_false_iff in Hno as [_ Hno]. cbn [Js.slice1].
  by rewrite Hno.
Qed.

Lemma siteRuntime_routes out e :
  e ∈ rt_routes (siteRuntime out) ↔ ∃ id, routes (manifestFile out) !! id = Some e.
Proof.
  simpl. rewrite list_elem_of_fmap. split.
  - intros ([id e'] & -> & Hin%elem_of_map_to_list). by exists id.
  - intros [id Hid]. exists (id, e). split; [done|]. by apply elem_of_map_to_list.
Qed.

(** X17. A page prerendered with [prerender = true] is served at its
    own URL: when the build completes, the server runs on the manifest
    and the files the build wrote, no two routes share a branch sequence,
    no two files a disk path, the pattern of the route is all literal,
    no static file lies at that URL and the route has no middleware, then
    a request for the pattern is matched to the route, the final handler
    runs once, and the response is 200 with the page the build rendered
    and the Cache-Control header of the route. *)
Theorem static_page_end_to_end rt disk0 env serm outputs d manifest out routeId entry path m
    component reqMethod :
  detectExports env serm outputs noneDetected = Ok d →
  prerenderAndWrite env d manifest = Ok out →
  (routeId, PrerenderTrue) ∈ prerenderMap d →
  routes manifest !! routeId = Some entry → e_type entry = Page →
  e_prerenderedFile entry = None → e_prerenderedCount entry = None →
  serverOutputPathMap d !! routeId = Some path → Js.truthy path = true →
  importPage env path = Ok m → pm_default m = Some component →
  pageSkipped m entry routeId [] = false →
  (∀ e, e ∈ rt_routes rt ↔ ∃ id, routes (manifestFile out) !! id = Some e) →
  NoDup (patternShape <$> rt_routes rt) →
  rt_disk rt = writeFiles (rt_clientPath rt) (htmlFiles out) disk0 →
  NoDup (rt_clientPath rt <$> (htmlFiles out).*1) →
  allLiteral (splitSegments (e_pattern entry)) →
  e_pattern entry ≠ "" → hasChar "?" (e_pattern entry) = false →
  (∀ content, rt_disk rt !! rt_clientPath rt (e_pattern entry) ≠ Some (File content)) →
  e_middleware entry = None →
  ∃ data html,
    loadPageData m entry routeId (e_pattern entry) [] = Ok (Some data)
    ∧ renderToHTML env component data (mkRenderContext (e_pattern entry) []) = Ok html
    ∧ handleRequest rt (Some (e_pattern entry)) reqMethod
      = Some (Sent (pageResponse (e_cache entry) html) [FinalHandler]).
Proof.
  intros Hdetect Hwrite Hin Hentry Htype Hfile Hcount Hpath Htruthy Himport Hdefault
         Hskip Hroutes Hshapes Hdisk Hnd Hlit Hne Hquery Hshadow Hmw.
  destruct (pass_page _ _ _ _ _ _ _ _ _ _ _ _ [[]] [] Hdetect Hwrite Hin Hentry Htype Hfile
              Hcount Hpath Htruthy Himport Hdefault eq_refl ltac:(by left) Hskip)
    as (entry' & data & html & Hentry' & Hcache & Hflags & Hload & Hrender & Hhtml).
  destruct (prerender_keeps_manifest _ _ _ _ Hwrite) as (Hsame & _).
  specialize (Hsame routeId). rewrite Hentry, Hentry' in Hsame.
  assert (e_pattern entry' = e_pattern entry ∧ e_type entry' = Page
          ∧ e_middleware entry' = None) as (Hpat & Htype' & Hmw').
  { unfold sameButPrerender in Hsame. rewrite <- Hsame in Htype, Hmw.
    rewrite <- Hsame. by destruct entry'. }
  assert (e_prerendered entry' = Some true) as Hpre.
  { apply (prerender_flag _ _ _ _ _ _ _ _ _ _ _ _ _ Hdetect Hwrite Hin Hentry Htype Hpath
             Htruthy Himport Hdefault Hentry'). }
  simpl in Hflags. destruct Hflags as [Hfile' Hcount'].
  exists data, html. split_and!; [done|done|].
  unfold handleRequest.
  assert (Js.truthy (e_pattern entry) = true) as -> by by destruct (e_pattern entry).
  rewrite beforeQuery_plain by done.
  assert (buildMatcher_match (rt_routes rt) (e_pattern entry)
          = Some (mkMatchResult entry' ∅)) as Hmatch.
  { rewrite <- Hpat. apply match_literal; [|by rewrite Hpat|done].
    apply Hroutes. by exists routeId. }
  assert (routeHandler rt reqMethod
            (mkRequestContext (e_pattern entry) (map_to_list (∅ : gmap string string))
                              (e_id entry'))
            (e_pattern entry) (mkMatchResult entry' ∅)
          = Ok (pageResponse (e_cache entry) html)) as Hhandler.
  { unfold routeHandler. cbn [mr_entry]. rewrite Htype', Hpre.
    unfold servePrerenderedPageInner. cbn [mr_entry]. rewrite Hcache.
    unfold servedRelPath. rewrite Hfile', Hcount'. unfold pagePath.
    rewrite htmlRelPathOf_truthy. cbn [andb negb].
    rewrite Hdisk.
    by rewrite (writeFiles_lookup _ _ _ _ _ Hnd Hhtml). }
  destruct (rt_disk rt !! rt_clientPath rt (e_pattern entry)) as [[content|]|] eqn:Hstatic;
    [by destruct (Hshadow content)| |];
    rewrite Hmatch; cbn [mr_entry mr_params]; rewrite Hmw';
    cbn [default loadMiddlewareChain mbind mret Result_bind Result_ret];
    rewrite Hhandler; reflexivity.
Qed.

Lemma static_page_end_to_end_witness :
  ∃ out,
    siteBuilt = Ok out
    ∧ handleRequest (siteRuntime out) (Some "/about") (Some "GET")
      = Some (Sent (pageResponse None "<main>About</main>") [FinalHandler]).
Proof.
  destruct siteBuilt as [out|] eqn:Hbuilt; [|vm_compute in Hbuilt; discriminate].
  exists out. split; [reflexivity|].
  destruct (static_page_end_to_end (siteRuntime out) ∅ (Demo.env Demo.aboutModule)
              Demo.serverEntryRouteMap (Demo.siteOutputs Demo.itemsModule)
              Demo.siteDetected Demo.siteManifest out "/about"
              (pageManifestEntry ∅ Demo.siteServerOutputMap Demo.siteDetected Demo.aboutRoute)
              "page__about.js" Demo.aboutModule (mkComponent "About") (Some "GET"))
    as (data & html & Hload & Hrender & Hserve).
  - apply site_detected.
  - exact Hbuilt.
  - left.
  - vm_compute. reflexivity.
  - reflexivity.
  - reflexivity.
  - reflexivity.
  - reflexivity.
  - reflexivity.
  - reflexivity.
  - reflexivity.
  - reflexivity.
  - apply siteRuntime_routes.
  - vm_compute in Hbuilt. injection Hbuilt as <-. vm_compute.
    repeat constructor; intros Hin;
      repeat (apply elem_of_cons in Hin as [Hin|Hin]; [discriminate|]);
      by apply elem_of_nil in Hin.
  - reflexivity.
  - vm_compute in Hbuilt. injection Hbuilt as <-. vm_compute.
    repeat constructor; intros Hin;
      repeat (apply elem_of_cons in Hin as [Hin|Hin]; [discriminate|]);
      by apply elem_of_nil in Hin.
  - intros s Hs. vm_compute in Hs.
    repeat (apply elem_of_cons in Hs as [->|Hs]; [by split|]).
    by apply elem_of_nil in Hs.
  - done.
  - reflexivity.
  - intros content Hfound. vm_compute in Hbuilt. injection Hbuilt as <-.
    vm_compute in Hfound. discriminate.
  - reflexivity.
  - injection Hload as <-. injection Hrender as <-. exact Hserve.
Defined.

(** X18. The file of a prerendered page is also served as a static
    file: a request for the path of the file under the client directory
    is answered by the static step with the page as written, before any
    route is matched, so without the middleware of the route. The
    hypothesis on [clientPath] is what [path.join] does with a leading
    slash. *)
Theorem prerendered_file_bypasses_route rt disk0 env serm outputs d manifest out routeId cfg
    entry path m component paramSets params reqMethod :
  detectExports env serm outputs noneDetected = Ok d →
  prerenderAndWrite env d manifest = Ok out →
  (routeId, cfg) ∈ prerenderMap d →
  routes manifest !! routeId = Some entry → e_type entry = Page →
  e_prerenderedFile entry = None → e_prerenderedCount entry = None →
  serverOutputPathMap d !! routeId = Some path → Js.truthy path = true →
  importPage env path = Ok m → pm_default m = Some component →
  resolveParamSets cfg = Ok paramSets →
  params ∈ paramSets → pageSkipped m entry routeId params = false →
  rt_disk rt = writeFiles (rt_clientPath rt) (htmlFiles out) disk0 →
  NoDup (rt_clientPath rt <$> (htmlFiles out).*1) →
  rt_clientPath rt ("/" +:+ pagePath entry params) = rt_clientPath rt (pagePath entry params) →
  hasChar "?" (concretePathname (e_pattern entry) params) = false →
  ∃ data html,
    loadPageData m entry routeId (concretePathname (e_pattern entry) params) params
      = Ok (Some data)
    ∧ renderToHTML env component data
        (mkRenderContext (concretePathname (e_pattern entry) params) params) = Ok html
    ∧ handleRequest rt (Some ("/" +:+ pagePath entry params)) reqMethod
      = Some (StaticFile ("/" +:+ pagePath entry params) html).
Proof.
  intros Hdetect Hwrite Hin Hentry Htype Hfile Hcount Hpath Htruthy Himport Hdefault
         Hsets Hparams Hskip Hdisk Hnd Hjoin Hquery.
  destruct (pass_page _ _ _ _ _ _ _ _ _ _ _ _ _ _ Hdetect Hwrite Hin Hentry Htype Hfile
              Hcount Hpath Htruthy Himport Hdefault Hsets Hparams Hskip)
    as (entry' & data & html & _ & _ & _ & Hload & Hrender & Hhtml).
  exists data, html. split_and!; [done|done|].
  assert (hasChar "?" ("/" +:+ pagePath entry params) = false) as Hq.
  { rewrite PathnameFacts.hasChar_app. unfold pagePath.
    by rewrite hasChar_htmlRelPathOf. }
  unfold handleRequest.
  replace (Js.truthy ("/" +:+ pagePath entry params)) with true by done.
  rewrite (beforeQuery_plain _ Hq).
  by rewrite Hjoin, Hdisk, (writeFiles_lookup _ _ _ _ _ Hnd Hhtml).
Qed.

Lemma prerendered_file_bypasses_route_witness :
  ∃ out,
    siteBuilt = Ok out
    ∧ handleRequest (siteRuntime out) (Some "/posts/c/index.html") (Some "GET")
      = Some (StaticFile "/posts/c/index.html" "<main>Post</main>").
Proof.
  destruct siteBuilt as [out|] eqn:Hbuilt; [|vm_compute in Hbuilt; discriminate].
  exists out. split; [reflexivity|].
  destruct (prerendered_file_bypasses_route (siteRuntime out) ∅ (Demo.env Demo.aboutModule)
              Demo.serverEntryRouteMap (Demo.siteOutputs Demo.itemsModule)
              Demo.siteDetected Demo.siteManifest out
              "/posts/[slug]" (PrerenderPaths (Ok Demo.slugs))
              (pageManifestEntry ∅ Demo.siteServerOutputMap Demo.siteDetected Demo.postsRoute)
              "page__posts__slug_.js" Demo.postsModule (mkComponent "Post")
              Demo.slugs [("slug", "c")] (Some "GET"))
    as (data & html & Hload & Hrender & Hserve).
  - apply site_detected.
  - exact Hbuilt.
  - right. left.
  - vm_compute. reflexivity.
  - reflexivity.
  - reflexivity.
  - reflexivity.
  - reflexivity.
  - reflexivity.
  - reflexivity.
  - reflexivity.
  - reflexivity.
  - right. right. left.
  - vm_compute. reflexivity.
  - reflexivity.
  - vm_compute in Hbuilt. injection Hbuilt as <-. vm_compute.
    repeat constructor; intros Hin;
      repeat (apply elem_of_cons in Hin as [Hin|Hin]; [discriminate|]);
      by apply elem_of_nil in Hin.
  - vm_compute. reflexivity.
  - vm_compute. reflexivity.
  - injection Hload as <-. injection Hrender as <-. exact Hserve.
Defined.

End ServerFacts.

(** ** The parameters of the route matched *)

Module ParamsFacts.
Import Matcher Shape Bindings Residual JsFacts MatcherFacts.

Lemma trieOf_cons pe pending root :
  trieOf (pe :: pending) root = trieOf pending (insertSegments pe.1 pe.2 root).
Proof. done. Qed.

Lemma staticResidual_cons s ps e pending :
  staticResidual s ((ps, e) :: pending)
  = match ps with
    | p :: rest =>
        if Js.startsWith "*" p then staticResidual s pending
        else if Js.startsWith ":" p then staticResidual s pending
        else if bool_decide (p = s) then (rest, e) :: staticResidual s pending
        else staticResidual s pending
    | [] => staticResidual s pending
    end.
Proof.
  unfold staticResidual. cbn [omap list_omap fst snd].
  destruct ps as [|p rest]; [done|].
  by destruct (Js.startsWith "*" p), (Js.startsWith ":" p), (bool_decide (p = s)).
Qed.

Lemma dynamicResidual_cons ps e pending :
  dynamicResidual ((ps, e) :: pending)
  = match ps with
    | p :: rest =>
        if Js.startsWith "*" p then dynamicResidual pending
        else if Js.startsWith ":" p then (rest, e) :: dynamicResidual pending
        else dynamicResidual pending
    | [] => dynamicResidual pending
    end.
Proof.
  unfold dynamicResidual. cbn [omap list_omap fst snd].
  destruct ps as [|p rest]; [done|].
  by destruct (Js.startsWith "*" p), (Js.startsWith ":" p).
Qed.

Lemma dynamicHeads_cons ps e pending :
  dynamicHeads ((ps, e) :: pending)
  = match ps with
    | p :: rest =>
        if Js.startsWith "*" p then dynamicHeads pending
        else if Js.startsWith ":" p then Js.slice1 p :: dynamicHeads pending
        else dynamicHeads pending
    | [] => dynamicHeads pending
    end.
Proof.
  unfold dynamicHeads. cbn [omap list_omap fst snd].
  destruct ps as [|p rest]; [done|].
  by destruct (Js.startsWith "*" p), (Js.startsWith ":" p).
Qed.

Lemma catchAlls_cons ps e pending :
  catchAlls ((ps, e) :: pending)
  = match ps with
    | p :: rest =>
        if Js.startsWith "*" p then (Js.slice1 p, e) :: catchAlls pending
        else catchAlls pending
    | [] => catchAlls pending
    end.
Proof.
  unfold catchAlls. cbn [omap list_omap fst snd].
  destruct ps as [|p rest]; [done|]. by destruct (Js.startsWith "*" p).
Qed.

Lemma endings_cons ps e pending :
  endings ((ps, e) :: pending)
  = match ps with
    | [] => e :: endings pending
    | _ :: _ => endings pending
    end.
Proof. unfold endings. cbn [omap list_omap fst snd]. by destruct ps. Qed.

(** The node that a list of pending patterns leaves, child by child. *)
Lemma trieOf_node pending : ∀ root,
  (∀ s, staticChildren (trieOf pending root) !! s
        = match staticResidual s pending with
          | [] => staticChildren root !! s
          | residual =>
              Some (trieOf residual (default createTrieNode (staticChildren root !! s)))
          end)
  ∧ dynamicChild (trieOf pending root)
    = match dynamicResidual pending with
      | [] => dynamicChild root
      | residual =>
          Some (match dynamicChild root with
                | Some (n, c) => (n, trieOf residual c)
                | None => (default "" (head (dynamicHeads pending)),
                           trieOf residual createTrieNode)
                end)
      end
  ∧ catchAllChild (trieOf pending root)
    = match last (catchAlls pending) with
      | Some c => Some c
      | None => catchAllChild root
      end
  ∧ entry (trieOf pending root)
    = match last (endings pending) with
      | Some e => Some e
      | None => entry root
      end.
Proof.
  induction pending as [|[ps e] pending IH]; intros root; [done|].
  rewrite trieOf_cons. cbn [fst snd].
  destruct (IH (insertSegments ps e root)) as (Hs & Hd & Hc & He).
  rewrite dynamicResidual_cons, dynamicHeads_cons, catchAlls_cons, endings_cons.
  destruct ps as [|p rest].
  { split_and!.
    - intros s. by rewrite Hs, staticResidual_cons.
    - done.
    - done.
    - rewrite He, last_cons. by destruct (last (endings pending)). }
  cbn [insertSegments] in *.
  destruct (Js.startsWith "*" p) eqn:Hstar.
  { split_and!.
    - intros s. by rewrite Hs, staticResidual_cons, Hstar.
    - done.
    - rewrite Hc, last_cons. by destruct (last (catchAlls pending)).
    - done. }
  destruct (Js.startsWith ":" p) eqn:Hcolon.
  { destruct (dynamicChild root) as [[n c]|] eqn:Hroot; cbn [staticChildren dynamicChild
      catchAllChild entry] in *; (split_and!; [|rewrite Hd|done|done]).
    - intros s. by rewrite Hs, staticResidual_cons, Hstar, Hcolon.
    - by destruct (dynamicResidual pending).
    - intros s. by rewrite Hs, staticResidual_cons, Hstar, Hcolon.
    - by destruct (dynamicResidual pending). }
  split_and!; [|done|done|done].
  intros s. rewrite Hs, staticResidual_cons, Hstar, Hcolon.
  cbn [staticChildren]. case_bool_decide as Hps.
  - subst s. rewrite lookup_insert_eq. by destruct (staticResidual p pending).
  - by rewrite lookup_insert_ne.
Qed.

(** *** Membership in the residual lists *)

Lemma elem_of_staticResidual s rest e pending :
  (rest, e) ∈ staticResidual s pending ↔
  (s :: rest, e) ∈ pending ∧ Js.startsWith "*" s = false ∧ Js.startsWith ":" s = false.
Proof.
  unfold staticResidual. rewrite list_elem_of_omap. split.
  - intros ([ps e'] & Hin & Hsome). cbn [fst snd] in Hsome.
    destruct ps as [|p rest']; [done|].
    destruct (Js.startsWith "*" p) eqn:Hstar; [done|].
    destruct (Js.startsWith ":" p) eqn:Hcolon; [done|].
    case_bool_decide; [|done]. by simplify_eq.
  - intros (Hin & Hstar & Hcolon). exists (s :: rest, e). split; [done|].
    cbn [fst snd]. by rewrite Hstar, Hcolon, bool_decide_eq_true_2.
Qed.

Lemma elem_of_dynamicResidual rest e pending :
  (rest, e) ∈ dynamicResidual pending ↔
  ∃ p, (p :: rest, e) ∈ pending ∧ Js.startsWith "*" p = false ∧ Js.startsWith ":" p = true.
Proof.
  unfold dynamicResidual. rewrite list_elem_of_omap. split.
  - intros ([ps e'] & Hin & Hsome). cbn [fst snd] in Hsome.
    destruct ps as [|p rest']; [done|].
    destruct (Js.startsWith "*" p) eqn:Hstar; [done|].
    destruct (Js.startsWith ":" p) eqn:Hcolon; [|done].
    simplify_eq. by exists p.
  - intros (p & Hin & Hstar & Hcolon). exists (p :: rest, e). split; [done|].
    cbn [fst snd]. by rewrite Hstar, Hcolon.
Qed.

Lemma elem_of_dynamicHeads n pending :
  n ∈ dynamicHeads pending ↔
  ∃ p rest e, (p :: rest, e) ∈ pending ∧ Js.startsWith "*" p = false
              ∧ Js.startsWith ":" p = true ∧ n = Js.slice1 p.
Proof.
  unfold dynamicHeads. rewrite list_elem_of_omap. split.
  - intros ([ps e'] & Hin & Hsome). cbn [fst snd] in Hsome.
    destruct ps as [|p rest']; [done|].
    destruct (Js.startsWith "*" p) eqn:Hstar; [done|].
    destruct (Js.startsWith ":" p) eqn:Hcolon; [|done].
    simplify_eq. by exists p, rest', e'.
  - intros (p & rest & e & Hin & Hstar & Hcolon & ->). exists (p :: rest, e).
    split; [done|]. cbn [fst snd]. by rewrite Hstar, Hcolon.
Qed.

Lemma elem_of_catchAlls n e pending :
  (n, e) ∈ catchAlls pending ↔
  ∃ p rest, (p :: rest, e) ∈ pending ∧ Js.startsWith "*" p = true ∧ n = Js.slice1 p.
Proof.
  unfold catchAlls. rewrite list_elem_of_omap. split.
  - intros ([ps e'] & Hin & Hsome). cbn [fst snd] in Hsome.
    destruct ps as [|p rest']; [done|].
    destruct (Js.startsWith "*" p) eqn:Hstar; [|done].
    simplify_eq. by exists p, rest'.
  - intros (p & rest & Hin & Hstar & ->). exists (p :: rest, e).
    split; [done|]. cbn [fst snd]. by rewrite Hstar.
Qed.

Lemma elem_of_endings e pending : e ∈ endings pending ↔ ([], e) ∈ pending.
Proof.
  unfold endings. rewrite list_elem_of_omap. split.
  - intros ([ps e'] & Hin & Hsome). cbn [fst snd] in Hsome.
    destruct ps; [|done]. by simplify_eq.
  - intros Hin. by exists ([], e).
Qed.

Lemma last_elem_of {A} (l : list A) x : last l = Some x → x ∈ l.
Proof.
  induction l as [|y l IH]; [done|]. rewrite last_cons.
  destruct (last l) eqn:Hl.
  - intros [= ->]. right. by apply IH.
  - intros [= ->]. by left.
Qed.

(** *** The conditions pass on to the residual lists *)

Lemma shape_static_cons (s : string) rest :
  Js.startsWith "*" s = false → Js.startsWith ":" s = false →
  shape (s :: rest) = KStatic s :: shape rest.
Proof. intros Hstar Hcolon. by rewrite shape_cons, Hstar, Hcolon. Qed.

Lemma shape_dynamic_cons (p : string) rest :
  Js.startsWith "*" p = false → Js.startsWith ":" p = true →
  shape (p :: rest) = KDynamic :: shape rest.
Proof. intros Hstar Hcolon. by rewrite shape_cons, Hstar, Hcolon. Qed.

Lemma namesAgree_static s pending :
  namesAgree pending → namesAgree (staticResidual s pending).
Proof.
  intros Hagree pre1 p1 rest1 e1 pre2 p2 rest2 e2
         (Hin1 & Hstar & Hcolon)%elem_of_staticResidual
         (Hin2 & _)%elem_of_staticResidual Hfree Hshape Hp1 Hp2.
  apply (Hagree (s :: pre1) p1 rest1 e1 (s :: pre2) p2 rest2 e2); try done.
  - by apply starFree_cons.
  - by rewrite !shape_static_cons, Hshape.
Qed.

Lemma namesAgree_dynamic pending :
  namesAgree pending → namesAgree (dynamicResidual pending).
Proof.
  intros Hagree pre1 p1 rest1 e1 pre2 p2 rest2 e2
         (q1 & Hin1 & Hstar1 & Hcolon1)%elem_of_dynamicResidual
         (q2 & Hin2 & Hstar2 & Hcolon2)%elem_of_dynamicResidual Hfree Hshape Hp1 Hp2.
  apply (Hagree (q1 :: pre1) p1 rest1 e1 (q2 :: pre2) p2 rest2 e2); try done.
  - by apply starFree_cons.
  - by rewrite !shape_dynamic_cons, Hshape.
Qed.

Lemma ownNames_static (s : string) rest :
  Js.startsWith "*" s = false → Js.startsWith ":" s = false →
  ownNames (s :: rest) = ownNames rest.
Proof. intros Hstar Hcolon. cbn [ownNames]. by rewrite Hstar, Hcolon. Qed.

Lemma ownNames_dynamic (p : string) rest :
  Js.startsWith "*" p = false → Js.startsWith ":" p = true →
  ownNames (p :: rest) = Js.slice1 p :: ownNames rest.
Proof. intros Hstar Hcolon. cbn [ownNames]. by rewrite Hstar, Hcolon. Qed.

Lemma namesDistinct_static s pending :
  namesDistinct pending → namesDistinct (staticResidual s pending).
Proof.
  intros Hd [rest e] (Hin & Hstar & Hcolon)%elem_of_staticResidual.
  specialize (Hd _ Hin). cbn [fst] in *. by rewrite ownNames_static in Hd.
Qed.

Lemma namesDistinct_dynamic pending :
  namesDistinct pending → namesDistinct (dynamicResidual pending).
Proof.
  intros Hd [rest e] (q & Hin & Hstar & Hcolon)%elem_of_dynamicResidual.
  specialize (Hd _ Hin). cbn [fst] in *. rewrite ownNames_dynamic in Hd by done.
  by apply NoDup_cons in Hd as [_ Hd].
Qed.

(** Under [namesAgree], the name kept with the dynamic child is the name
    every pattern that goes through it uses. *)
Lemma dynamicHeads_agree pending p rest e :
  namesAgree pending →
  (p :: rest, e) ∈ pending → Js.startsWith "*" p = false → Js.startsWith ":" p = true →
  default "" (head (dynamicHeads pending)) = Js.slice1 p.
Proof.
  intros Hagree Hin Hstar Hcolon.
  destruct (dynamicHeads pending) as [|n heads] eqn:Hheads.
  - assert (Js.slice1 p ∈ dynamicHeads pending) as Hn
      by (apply elem_of_dynamicHeads; by exists p, rest, e).
    rewrite Hheads in Hn. by apply elem_of_nil in Hn.
  - assert (n ∈ dynamicHeads pending) as Hn by (rewrite Hheads; by left).
    apply elem_of_dynamicHeads in Hn as (p0 & rest0 & e0 & Hin0 & Hstar0 & Hcolon0 & ->).
    simpl. apply (Hagree [] p0 rest0 e0 [] p rest e); try done.
    intros s Hs. by apply elem_of_nil in Hs.
Qed.

(** *** What [bindParams] binds *)

Lemma bindParams_frame patternSegments segments params k :
  k ∉ ownNames patternSegments →
  bindParams patternSegments segments params !! k = params !! k.
Proof.
  revert segments params.
  induction patternSegments as [|p rest IH]; intros segments params Hk; [by destruct segments|].
  destruct segments as [|s segments]; [done|].
  cbn [bindParams ownNames] in *.
  destruct (Js.startsWith "*" p).
  { apply not_elem_of_cons in Hk as [Hk _]. by rewrite lookup_assign_ne. }
  destruct (Js.startsWith ":" p).
  - apply not_elem_of_cons in Hk as [Hne Hk]. rewrite IH by done.
    by rewrite lookup_assign_ne.
  - by apply IH.
Qed.

Lemma bindParams_proto patternSegments segments params :
  params !! "__proto__" = None →
  bindParams patternSegments segments params !! "__proto__" = None.
Proof.
  revert segments params.
  induction patternSegments as [|p rest IH]; intros segments params Hp;
    [by destruct segments|].
  destruct segments as [|s segments]; [done|].
  cbn [bindParams].
  destruct (Js.startsWith "*" p); [by apply lookup_assign_proto|].
  destruct (Js.startsWith ":" p); apply IH; [by apply lookup_assign_proto|done].
Qed.

Lemma bindParams_own patternSegments segments params params' k :
  shapeMatches (shape patternSegments) segments = true →
  k ∈ ownNames patternSegments → k ≠ "__proto__" →
  bindParams patternSegments segments params !! k
  = bindParams patternSegments segments params' !! k.
Proof.
  revert segments params params'.
  induction patternSegments as [|p rest IH]; intros segments params params' Hm Hk Hproto;
    [by apply elem_of_nil in Hk|].
  rewrite shape_cons in Hm. cbn [bindParams ownNames] in *.
  destruct (Js.startsWith "*" p).
  { destruct segments as [|s segments]; [done|].
    apply list_elem_of_singleton in Hk as ->. by rewrite !lookup_assign_eq. }
  destruct (Js.startsWith ":" p).
  - destruct segments as [|s segments]; [done|]. cbn [shapeMatches] in Hm.
    destruct (decide (k ∈ ownNames rest)) as [Hin|Hnin].
    + by apply IH.
    + apply elem_of_cons in Hk as [->|Hk]; [|done].
      by rewrite !bindParams_frame, !lookup_assign_eq by done.
  - destruct segments as [|s segments]; [done|]. cbn [shapeMatches] in Hm.
    apply andb_true_iff in Hm as [_ Hm]. by apply IH.
Qed.

Lemma matchSegments_attempts node segment rest params :
  matchSegments node (segment :: rest) params =
    let '(r1, p1) := staticAttempt node segment rest params in
    match r1 with
    | Some r => (Some r, p1)
    | None =>
        let '(r2, p2) := dynamicAttempt node segment rest p1 in
        match r2 with
        | Some r => (Some r, p2)
        | None => catchAllAttempt node (segment :: rest) p2
        end
    end.
Proof. done. Qed.

Lemma matchSegments_createTrieNode segments params :
  matchSegments createTrieNode segments params = (None, params).
Proof. destruct segments; [done|]. rewrite matchSegments_cons. simpl. by rewrite lookup_empty. Qed.

Lemma walked_after_failure pending segments params p1 r p2 :
  walked pending segments params None p1 → walked pending segments p1 r p2 →
  walked pending segments params r p2.
Proof.
  intros [Hframe1 Hany1] [Hframe2 Hres]. split.
  - intros k Hk. by rewrite Hframe2, Hframe1.
  - destruct r as [e|].
    + destruct Hres as (ps & Hin & Hm & Hown & Hother). exists ps. split_and!; try done.
      intros k Hk. destruct (Hother k Hk) as [Heq|Hnone]; [|by right].
      rewrite Heq. apply Hany1.
    + intros k. destruct (Hres k) as [Heq|Hnone]; [|by right].
      rewrite Heq. apply Hany1.
Qed.

Section Step.
Variable rest : list string.
Hypothesis IH : ∀ pending params r p,
  namesAgree pending → namesDistinct pending →
  matchSegments (trieOf pending createTrieNode) rest params = (r, p) →
  walked pending rest params r p.

Lemma static_walked pending segment params r p :
  namesAgree pending → namesDistinct pending →
  staticAttempt (trieOf pending createTrieNode) segment rest params = (r, p) →
  walked pending (segment :: rest) params r p.
Proof.
  intros Hagree Hdistinct. unfold staticAttempt.
  destruct (trieOf_node pending createTrieNode) as (Hs & _). rewrite Hs. clear Hs.
  cbn [staticChildren createTrieNode]. rewrite lookup_empty. cbn [default].
  destruct (staticResidual segment pending) as [|x residual] eqn:Hres.
  { intros [= <- <-]. split; [done|]. intros k. by left. }
  rewrite <- Hres. intros Hrun.
  apply IH in Hrun as [Hframe Hr];
    [|by apply namesAgree_static|by apply namesDistinct_static].
  split.
  - intros k Hk. apply Hframe. intros [ps e] (Hin & Hstar & Hcolon)%elem_of_staticResidual.
    specialize (Hk _ Hin). cbn [fst] in *. by rewrite ownNames_static in Hk.
  - destruct r as [e|]; [|done].
    destruct Hr as (ps & (Hin & Hstar & Hcolon)%elem_of_staticResidual & Hm & Hown & Hother).
    exists (segment :: ps). rewrite shape_static_cons, ownNames_static by done.
    split_and!; try done.
    + cbn [shapeMatches]. by rewrite bool_decide_eq_true_2.
    + intros k Hk Hproto. cbn [bindParams]. rewrite Hstar, Hcolon. by apply Hown.
Qed.

Lemma dynamic_walked pending segment params r p :
  namesAgree pending → namesDistinct pending →
  dynamicAttempt (trieOf pending createTrieNode) segment rest params = (r, p) →
  walked pending (segment :: rest) params r p.
Proof.
  intros Hagree Hdistinct. unfold dynamicAttempt.
  destruct (trieOf_node pending createTrieNode) as (_ & Hd & _). rewrite Hd. clear Hd.
  cbn [dynamicChild createTrieNode].
  destruct (dynamicResidual pending) as [|x residual] eqn:Hres.
  { intros [= <- <-]. split; [done|]. intros k. by left. }
  rewrite <- Hres.
  set (n := default "" (head (dynamicHeads pending))).
  assert (∀ q rest' e, (q :: rest', e) ∈ pending → Js.startsWith "*" q = false →
                       Js.startsWith ":" q = true → Js.slice1 q = n) as Hname.
  { intros q rest' e Hin Hstar Hcolon. symmetry. by eapply dynamicHeads_agree. }
  assert (∀ pe, pe ∈ dynamicResidual pending → n ∉ ownNames pe.1) as Hfresh.
  { intros [rest' e] (q & Hin & Hstar & Hcolon)%elem_of_dynamicResidual.
    specialize (Hdistinct _ Hin). cbn [fst] in *.
    rewrite ownNames_dynamic, (Hname _ _ _ Hin Hstar Hcolon) in Hdistinct by done.
    by apply NoDup_cons in Hdistinct as [? _]. }
  assert (∃ q0 rest0 e0, (q0 :: rest0, e0) ∈ pending ∧ Js.startsWith "*" q0 = false
                         ∧ Js.startsWith ":" q0 = true) as (q0 & rest0 & e0 & Hin0 & Hs0 & Hc0).
  { assert (x ∈ dynamicResidual pending) as Hx by (rewrite Hres; by left).
    destruct x as [rest0 e0].
    apply elem_of_dynamicResidual in Hx as (q0 & ? & ? & ?). by exists q0, rest0, e0. }
  destruct (matchSegments (trieOf (dynamicResidual pending) createTrieNode) rest
              (Js.assign n segment params)) as [r' p'] eqn:Hrun.
  apply IH in Hrun as [Hframe Hr];
    [|by apply namesAgree_dynamic|by apply namesDistinct_dynamic].
  assert (∀ k, (∀ pe, pe ∈ pending → k ∉ ownNames pe.1) →
               k ≠ n ∧ ∀ pe, pe ∈ dynamicResidual pending → k ∉ ownNames pe.1) as Hout.
  { intros k Hk. split.
    - intros ->. apply (Hk _ Hin0). cbn [fst].
      rewrite ownNames_dynamic, (Hname _ _ _ Hin0 Hs0 Hc0) by done. by left.
    - intros [rest' e] (q & Hin & Hstar & Hcolon)%elem_of_dynamicResidual.
      specialize (Hk _ Hin). cbn [fst] in *. rewrite ownNames_dynamic in Hk by done.
      by apply not_elem_of_cons in Hk as [_ ?]. }
  destruct r' as [e|].
  - intros [= <- <-].
    destruct Hr as (ps & (q & Hin & Hstar & Hcolon)%elem_of_dynamicResidual
                    & Hm & Hown & Hother).
    pose proof (Hname _ _ _ Hin Hstar Hcolon) as Hq.
    split.
    + intros k Hk. destruct (Hout k Hk) as [Hne Hk'].
      by rewrite Hframe, lookup_assign_ne.
    + exists (q :: ps). rewrite shape_dynamic_cons, ownNames_dynamic, Hq by done.
      split_and!; try done.
      * intros k Hk Hproto. cbn [bindParams]. rewrite Hstar, Hcolon, Hq.
        destruct (decide (k ∈ ownNames ps)) as [Hin'|Hnin].
        -- rewrite (Hown k Hin' Hproto). by apply bindParams_own.
        -- apply elem_of_cons in Hk as [->|Hk]; [|done].
           rewrite bindParams_frame, lookup_assign_eq by done.
           rewrite Hframe by (by apply Hfresh). by rewrite lookup_assign_eq.
      * intros k Hk. apply not_elem_of_cons in Hk as [Hne Hk].
        destruct (Hother k Hk) as [Heq|Hnone]; [|by right].
        left. by rewrite Heq, lookup_assign_ne.
  - intros [= <- <-]. split.
    + intros k Hk. destruct (Hout k Hk) as [Hne Hk'].
      by rewrite lookup_delete_ne, Hframe, lookup_assign_ne.
    + intros k. destruct (decide (k = n)) as [->|Hne].
      * right. by rewrite lookup_delete_eq.
      * rewrite lookup_delete_ne by done.
        destruct (Hr k) as [Heq|Hnone]; [|by right].
        left. by rewrite Heq, lookup_assign_ne.
Qed.

End Step.

Lemma catchAll_walked pending segment rest params r p :
  catchAllAttempt (trieOf pending createTrieNode) (segment :: rest) params = (r, p) →
  walked pending (segment :: rest) params r p.
Proof.
  unfold catchAllAttempt.
  destruct (trieOf_node pending createTrieNode) as (_ & _ & Hc & _). rewrite Hc. clear Hc.
  cbn [catchAllChild createTrieNode].
  destruct (last (catchAlls pending)) as [[n e]|] eqn:Hlast.
  - intros [= <- <-].
    apply last_elem_of, elem_of_catchAlls in Hlast as (q & rest' & Hin & Hstar & ->).
    split.
    + intros k Hk. specialize (Hk _ Hin). cbn [fst ownNames] in Hk. rewrite Hstar in Hk.
      apply not_elem_of_cons in Hk as [Hne _]. by rewrite lookup_assign_ne.
    + exists (q :: rest'). rewrite shape_cons. cbn [ownNames bindParams]. rewrite Hstar.
      split_and!; try done.
      * intros k ->%list_elem_of_singleton Hproto. by rewrite !lookup_assign_eq.
      * intros k Hk%not_elem_of_cons. left. by rewrite lookup_assign_ne by (by destruct Hk).
  - intros [= <- <-]. split; [done|]. intros k. by left.
Qed.

(** The walk of a path through the trie of the pending patterns. *)
Lemma matchSegments_walked segments : ∀ pending params r p,
  namesAgree pending → namesDistinct pending →
  matchSegments (trieOf pending createTrieNode) segments params = (r, p) →
  walked pending segments params r p.
Proof.
  induction segments as [|segment rest IH]; intros pending params r p Hagree Hdistinct.
  - simpl. destruct (trieOf_node pending createTrieNode) as (_ & _ & _ & He).
    rewrite He. cbn [entry createTrieNode]. intros [= <- <-]. split; [done|].
    destruct (last (endings pending)) as [e|] eqn:Hlast.
    + apply last_elem_of, elem_of_endings in Hlast. exists []. split_and!; try done.
      * intros k Hk. by apply elem_of_nil in Hk.
      * intros k _. by left.
    + intros k. by left.
  - rewrite matchSegments_attempts.
    destruct (staticAttempt _ segment rest params) as [r1 p1] eqn:H1.
    apply (static_walked rest IH) in H1; [|done|done].
    destruct r1 as [e1|]; [by intros [= <- <-]|].
    destruct (dynamicAttempt _ segment rest p1) as [r2 p2] eqn:H2.
    apply (dynamic_walked rest IH) in H2; [|done|done].
    pose proof (walked_after_failure _ _ _ _ _ _ H1 H2) as H12.
    destruct r2 as [e2|]; [by intros [= <- <-]|].
    intros H3%catchAll_walked.
    by eapply walked_after_failure.
Qed.

Lemma buildMatcher_trieOf routes :
  buildMatcher routes = trieOf (pendingOf routes) createTrieNode.
Proof.
  unfold buildMatcher, trieOf, pendingOf. generalize createTrieNode.
  induction routes as [|e routes IH]; intros root; [done|].
  rewrite fmap_cons. cbn [foldl]. by rewrite IH.
Qed.

(** X19. When the routes that reach the same position along the same
    branches name the parameter there alike, and no pattern uses a name
    twice, the parameter object [match] returns is the one the pattern of
    the matched route alone yields on the path: each of its [:name]
    assigned the segment at its position, its [*name] the remaining
    segments joined by slashes, and nothing else, whatever the other
    routes and the attempts that failed before. The name [__proto__] is
    bound by neither: the object returned never holds it. *)
Theorem match_params routes pathname r :
  namesAgree (pendingOf routes) → namesDistinct (pendingOf routes) →
  buildMatcher_match routes pathname = Some r →
  mr_params r
  = bindParams (splitSegments (e_pattern (mr_entry r))) (splitSegments pathname) ∅
  ∧ mr_params r !! "__proto__" = None.
Proof.
  intros Hagree Hdistinct. unfold buildMatcher_match, match_.
  rewrite buildMatcher_trieOf.
  destruct (matchSegments _ _ _) as [[e|] p] eqn:Hrun; [|done].
  intros [= <-]. cbn [mr_params mr_entry].
  pose proof (matchSegments_proto _ _ _ _ _ Hrun (lookup_empty _)) as Hproto.
  split; [|done].
  apply matchSegments_walked in Hrun as [_ (ps & Hin & Hm & Hown & Hother)]; [|done|done].
  apply list_elem_of_fmap in Hin as (e' & [= -> ->] & _).
  apply map_eq. intros k.
  destruct (decide (k = "__proto__")) as [->|Hne].
  { by rewrite Hproto, bindParams_proto. }
  destruct (decide (k ∈ ownNames (splitSegments (e_pattern e')))) as [Hk|Hk].
  - by apply Hown.
  - rewrite bindParams_frame by done. rewrite lookup_empty.
    destruct (Hother k Hk) as [Heq|Hnone]; [|done]. by rewrite Heq, lookup_empty.
Qed.

Lemma match_params_witness :
  buildMatcher_match [Demo.page "/docs/:id"; Demo.page "/users/:name"] "/users/ann"
  = Some (mkMatchResult (Demo.page "/users/:name") {[ "name" := "ann" ]}).
Proof.
  destruct (buildMatcher_match [Demo.page "/docs/:id"; Demo.page "/users/:name"]
              "/users/ann") as [r|] eqn:Hr; [|vm_compute in Hr; discriminate].
  pose proof (match_params [Demo.page "/docs/:id"; Demo.page "/users/:name"]
                "/users/ann" r) as Hparams.
  assert (mr_entry r = Demo.page "/users/:name") as Hentry
    by (vm_compute in Hr; by injection Hr as <-).
  destruct r as [e p]. cbn [mr_entry mr_params] in *. subst e.
  destruct Hparams as [-> _]; [| |done|reflexivity].
  - intros pre1 p1 rest1 e1 pre2 p2 rest2 e2 Hin1 Hin2 Hfree Hshape Hp1 Hp2.
    vm_compute in Hin1, Hin2.
    repeat (apply elem_of_cons in Hin1 as [Hin1|Hin1]);
      [| |by apply elem_of_nil in Hin1];
      injection Hin1 as Hsegs1 _;
      (destruct pre1 as [|a1 [|b1 [|c1 pre1]]]; simplify_eq/=; try discriminate;
       try (by destruct pre1));
      (repeat (apply elem_of_cons in Hin2 as [Hin2|Hin2]);
         [| |by apply elem_of_nil in Hin2]);
      injection Hin2 as Hsegs2 _;
      (destruct pre2 as [|a2 [|b2 [|c2 pre2]]]; simplify_eq/=; try discriminate;
       try (by destruct pre2)); done.
  - intros pe Hin. vm_compute in Hin.
    repeat (apply elem_of_cons in Hin as [->|Hin]); [| |by apply elem_of_nil in Hin];
      vm_compute; apply NoDup_singleton.
Defined.

End ParamsFacts.
